(** * GallerySlider (src/js/main.js, lines 425-542)

    A shallow embedding of the gallery slider of the portfolio page and the
    properties of its index state machine.

    The class mutates DOM elements it shares with the page (slides, the
    indicator container and the indicators it creates), so the embedding keeps
    one store of elements and passes handles around, as the JavaScript does.
    Methods are computations in a state monad whose result is either a value
    or a thrown exception; the store survives a throw, because the assignments
    made before it are not rolled back.

    The page is a tree: an element lists its children, the handles follow the
    document order of the page, and an element made by [createElement] gets
    the next handle.  [querySelectorAll] on an element ranges over all its
    descendants, and an event bubbles from its target through the ancestors
    of the target to the document.

    Numbers: indices are exact integers or NaN.  IEEE doubles are exact on the
    integers of magnitude up to 2^53 ([safe_integer]), which is where the
    indices of a deck lie; a statement about an arbitrary integer index
    assumes it.  [%] is the truncated remainder, and [x % 0] is NaN.
    JavaScript's [-0] behaves as [0] in every use made here (property key
    ["0"], [=== 0]).  Screen coordinates of touches are whole pixels. *)

From Stdlib Require Import ZArith QArith Lia String List Bool.
From stdpp Require Import base list strings.

Local Open Scope string_scope.
Local Open Scope Z_scope.
Local Open Scope nat_scope.

(** ** JavaScript values used by the slider *)

Inductive jsnum : Type :=
| Num (z : Z)
| NaN.

(** The integers on which doubles are exact: magnitude up to 2^53.  A sum or
    a difference of two of them that is one of them again is computed
    exactly, and so is every remainder. *)
Definition safe_integer (z : Z) : bool := (Z.abs z <=? 2 ^ 53)%Z.

(** [a + b] and [a - b], for operands and results in the range of
    [safe_integer]; beyond it a double rounds, which is not modelled. *)
Definition js_add (a b : jsnum) : jsnum :=
  match a, b with
  | Num x, Num y => Num (x + y)
  | _, _ => NaN
  end.

Definition js_sub (a b : jsnum) : jsnum :=
  match a, b with
  | Num x, Num y => Num (x - y)
  | _, _ => NaN
  end.

(** [a % b]: remainder with the sign of the dividend, NaN for a zero divisor. *)
Definition js_rem (a b : jsnum) : jsnum :=
  match a, b with
  | Num x, Num y => if (y =? 0)%Z then NaN else Num (Z.rem x y)
  | _, _ => NaN
  end.

(** [a === b] on numbers: NaN equals nothing. *)
Definition strict_eq (a b : jsnum) : bool :=
  match a, b with
  | Num x, Num y => (x =? y)%Z
  | _, _ => false
  end.

Inductive exn : Type :=
| TypeError
| SyntaxError.   (* the DOMException of [querySelector] for an invalid selector *)

Inductive Res (A : Type) : Type :=
| Ok (a : A)
| Throw (e : exn).

Arguments Ok {A} a.
Arguments Throw {A} e.

(** ** The page: elements, listeners, timers *)

(** A handle to an element is its position in the store. *)
Abbreviation node := nat (only parsing).

Record Element : Type := mkElement {
  tagName : string;
  classList : list string;
  childNodes : list node
}.

Definition with_classList (cl : list string) (e : Element) : Element :=
  {| tagName := tagName e; classList := cl; childNodes := childNodes e |}.

Definition with_childNodes (ch : list node) (e : Element) : Element :=
  {| tagName := tagName e; classList := classList e; childNodes := ch |}.

(** The arrow functions the class registers, one constructor per closure. *)
Inductive handler : Type :=
| OnPrevClick              (* () => this.prevSlide() *)
| OnNextClick              (* () => this.nextSlide() *)
| OnKeydown                (* (e) => { ArrowLeft: prevSlide; ArrowRight: nextSlide } *)
| OnTouchStart             (* (e) => { touchStartX = ... } *)
| OnTouchEnd               (* (e) => { touchEndX = ...; this.handleSwipe(...) } *)
| OnDotClick (index : nat) (* () => this.showSlide(index) *)
| OnTick.                  (* () => { this.nextSlide(); } *)

Inductive target : Type :=
| Doc
| El (n : node).

Record Event : Type := mkEvent {
  type : string;
  key : string;     (* e.key *)
  screenX : Z       (* e.changedTouches[0].screenX *)
}.

Record World : Type := mkWorld {
  (* the browser *)
  elements : list Element;                       (* a handle is a position here *)
  listeners : list (target * string * handler);  (* in registration order *)
  timers : list (nat * handler * nat);           (* armed intervals: id, callback, delay *)
  lastTimer : nat;                               (* last interval id handed out *)
  (* the fields of [this] *)
  slider : option node;
  slides : list node;
  prevBtn : option node;
  nextBtn : option node;
  dotsContainer : option node;
  currentIndex : jsnum;
  autoPlayInterval : option nat;
  (* the [let] variables of [init] captured by the touch listeners *)
  touchStartX : Z;
  touchEndX : Z
}.

Definition set_elements (x : list Element) (w : World) : World :=
  mkWorld x (listeners w) (timers w) (lastTimer w) (slider w) (slides w)
    (prevBtn w) (nextBtn w) (dotsContainer w) (currentIndex w)
    (autoPlayInterval w) (touchStartX w) (touchEndX w).

Definition set_listeners (x : list (target * string * handler)) (w : World) : World :=
  mkWorld (elements w) x (timers w) (lastTimer w) (slider w) (slides w)
    (prevBtn w) (nextBtn w) (dotsContainer w) (currentIndex w)
    (autoPlayInterval w) (touchStartX w) (touchEndX w).

Definition set_timers (x : list (nat * handler * nat)) (l : nat) (w : World) : World :=
  mkWorld (elements w) (listeners w) x l (slider w) (slides w)
    (prevBtn w) (nextBtn w) (dotsContainer w) (currentIndex w)
    (autoPlayInterval w) (touchStartX w) (touchEndX w).

Definition set_currentIndex (x : jsnum) (w : World) : World :=
  mkWorld (elements w) (listeners w) (timers w) (lastTimer w) (slider w) (slides w)
    (prevBtn w) (nextBtn w) (dotsContainer w) x
    (autoPlayInterval w) (touchStartX w) (touchEndX w).

Definition set_autoPlayInterval (x : option nat) (w : World) : World :=
  mkWorld (elements w) (listeners w) (timers w) (lastTimer w) (slider w) (slides w)
    (prevBtn w) (nextBtn w) (dotsContainer w) (currentIndex w)
    x (touchStartX w) (touchEndX w).

Definition set_touchStartX (x : Z) (w : World) : World :=
  mkWorld (elements w) (listeners w) (timers w) (lastTimer w) (slider w) (slides w)
    (prevBtn w) (nextBtn w) (dotsContainer w) (currentIndex w)
    (autoPlayInterval w) x (touchEndX w).

Definition set_touchEndX (x : Z) (w : World) : World :=
  mkWorld (elements w) (listeners w) (timers w) (lastTimer w) (slider w) (slides w)
    (prevBtn w) (nextBtn w) (dotsContainer w) (currentIndex w)
    (autoPlayInterval w) (touchStartX w) x.

(** ** The monad of methods: state that survives a throw *)

Definition M (A : Type) : Type := World -> Res A * World.

Definition ret {A : Type} (a : A) : M A := fun w => (Ok a, w).

Definition bind {A B : Type} (m : M A) (k : A -> M B) : M B :=
  fun w =>
    match m w with
    | (Ok a, w') => k a w'
    | (Throw e, w') => (Throw e, w')
    end.

Definition throw {A : Type} (e : exn) : M A := fun w => (Throw e, w).

Definition gets {A : Type} (f : World -> A) : M A := fun w => (Ok (f w), w).

Definition modify (f : World -> World) : M unit := fun w => (Ok tt, f w).

Notation "'let*' x ':=' m 'in' k" := (bind m (fun x => k))
  (at level 10, x name, m at level 100, k at level 200).
Notation "m '>>' k" := (bind m (fun _ => k))
  (at level 100, k at level 200, right associativity).

(** Property access on a value that may be [null] or [undefined]. *)
Definition deref {A : Type} (o : option A) : M A :=
  match o with
  | Some a => ret a
  | None => throw TypeError
  end.

(** [Array.prototype.forEach] / [NodeList.prototype.forEach]: the callback
    gets the item and its index; an exception leaves the loop. *)
Fixpoint forEach_from {A : Type} (i : nat) (l : list A) (f : A -> nat -> M unit) : M unit :=
  match l with
  | [] => ret tt
  | x :: l' => f x i >> forEach_from (S i) l' f
  end.

Definition forEach {A : Type} (l : list A) (f : A -> nat -> M unit) : M unit :=
  forEach_from 0 l f.

Definition is_none {A : Type} (o : option A) : bool :=
  match o with
  | Some _ => false
  | None => true
  end.

(** ** DOM primitives *)

(** DOMTokenList operations on the token list of one element. *)
Definition contains (t : string) (cl : list string) : bool :=
  existsb (String.eqb t) cl.

Definition token_add (t : string) (cl : list string) : list string :=
  if contains t cl then cl else cl ++ [t].

Definition token_remove (t : string) (cl : list string) : list string :=
  List.filter (fun x => negb (String.eqb t x)) cl.

Definition token_toggle (t : string) (force : bool) (cl : list string) : list string :=
  if force then token_add t cl else token_remove t cl.

Definition classes (els : list Element) (n : node) : list string :=
  match els !! n with
  | Some e => classList e
  | None => []
  end.

Definition children (els : list Element) (n : node) : list node :=
  match els !! n with
  | Some e => childNodes e
  | None => []
  end.

Definition has_class (els : list Element) (c : string) (n : node) : bool :=
  contains c (classes els n).

(** The store after the class list of element [n] went through [f]. *)
Definition upd (f : list string -> list string) (n : node) (els : list Element) : list Element :=
  alter (fun e => with_classList (f (classList e)) e) n els.

Definition update_classList (f : list string -> list string) (n : node) : M unit :=
  modify (fun w => set_elements (upd f n (elements w)) w).

Definition classList_add (n : node) (t : string) : M unit :=
  update_classList (token_add t) n.

Definition classList_remove (n : node) (t : string) : M unit :=
  update_classList (token_remove t) n.

Definition classList_toggle (n : node) (t : string) (force : bool) : M unit :=
  update_classList (token_toggle t force) n.

(** [document.querySelectorAll('.c')]: the page's elements are stored in
    document order.  Selectors are class selectors throughout; the class name
    [c] stands for the selector [.c]. *)
Definition document_querySelectorAll (c : string) (els : list Element) : list node :=
  List.filter (has_class els c) (seq 0 (length els)).

Definition document_querySelector (c : string) (els : list Element) : option node :=
  head (document_querySelectorAll c els).

(** The descendants of [n] in document order: each child, followed by its
    own descendants.  [fuel] bounds the depth explored; the elements of a page
    form a finite tree, whose depth is below their number. *)
Fixpoint descendants_upto (fuel : nat) (els : list Element) (n : node) : list node :=
  match fuel with
  | O => []
  | S fuel' => flat_map (fun ch => ch :: descendants_upto fuel' els ch) (children els n)
  end.

Definition descendants (els : list Element) (n : node) : list node :=
  descendants_upto (length els) els n.

(** [parent.querySelectorAll('.c')]: the descendants of [parent] that carry
    the class, in document order. *)
Definition querySelectorAll (parent : node) (c : string) : M (list node) :=
  gets (fun w => List.filter (has_class (elements w) c) (descendants (elements w) parent)).

(** [n.parentNode]: the element that has [n] among its children, none for a
    root and for an element that was created and not inserted.  In document
    order a parent comes before its children, and [createElement] hands out a
    handle after all others, so the parent is among the elements before
    [n]. *)
Definition parentNode (els : list Element) (n : node) : option node :=
  head (List.filter (fun p => existsb (Nat.eqb n) (children els p)) (seq 0 n)).

Fixpoint ancestors_upto (fuel : nat) (els : list Element) (n : node) : list node :=
  match fuel with
  | O => []
  | S fuel' =>
      match parentNode els n with
      | Some p => p :: ancestors_upto fuel' els p
      | None => []
      end
  end.

(** The ancestors of [n], the nearest first.  Every step goes to an earlier
    element, so [n] steps reach the root. *)
Definition ancestors (els : list Element) (n : node) : list node :=
  ancestors_upto n els n.

(** [b] is [n] or one of its ancestors: what is delivered to [n] reaches
    [b]. *)
Definition encloses (els : list Element) (b n : node) : bool :=
  (b =? n) || existsb (Nat.eqb b) (ancestors els n).

(** The elements that are nobody's child. *)
Definition roots (els : list Element) : list node :=
  List.filter (fun n => is_none (parentNode els n)) (seq 0 (length els)).

(** The page is a tree stored in document order: the children of an element
    are elements of the page that come after it, and walking the tree from
    its roots, each element before its children, meets the elements in the
    order of their handles, each once. *)
Definition document_order (page : list Element) : bool :=
  forallb
    (fun n => forallb (fun ch => (n <? ch) && (ch <? length page)) (children page n))
    (seq 0 (length page))
  && bool_decide (flat_map (fun r => r :: descendants page r) (roots page)
                  = seq 0 (length page)).

(** [document.createElement(tag)]: a new element, detached, without classes. *)
Definition createElement (tag : string) : M node :=
  fun w => (Ok (length (elements w)),
            set_elements (elements w ++ [mkElement tag [] []]) w).

Definition appendChild (parent child : node) : M unit :=
  modify (fun w =>
    set_elements
      (alter (fun e => with_childNodes (childNodes e ++ [child]) e) parent (elements w)) w).

Definition addEventListener (t : target) (ty : string) (h : handler) : M unit :=
  modify (fun w => set_listeners (listeners w ++ [(t, ty, h)]) w).

(** [setInterval] returns a positive handle and arms the timer. *)
Definition setInterval (h : handler) (delay : nat) : M nat :=
  fun w => let id := S (lastTimer w) in
           (Ok id, set_timers (timers w ++ [(id, h, delay)]) id w).

Definition clearInterval (id : nat) : M unit :=
  modify (fun w =>
    set_timers (List.filter (fun t => negb (fst (fst t) =? id)) (timers w)) (lastTimer w) w).

(** Truthiness of a timer handle: [null] and [0] are falsy. *)
Definition truthy_handle (h : option nat) : bool :=
  match h with
  | Some id => negb (id =? 0)
  | None => false
  end.

(** [list[i]] for a number [i]: [undefined] unless [i] is an index of the list. *)
Definition item (l : list node) (i : jsnum) : option node :=
  match i with
  | Num z => if (0 <=? z)%Z then l !! Z.to_nat z else None
  | NaN => None
  end.

Definition length_num {A : Type} (l : list A) : jsnum := Num (Z.of_nat (length l)).

(** ** The class GallerySlider *)

Definition createDots : M unit :=
  let* sl := gets slides in
  forEach sl (fun _ index =>
    let* dot := createElement "span" in
    classList_add dot "slider-dot" >>
    addEventListener (El dot) "click" (OnDotClick index) >>
    let* dc := gets dotsContainer in
    let* c := deref dc in
    appendChild c dot).

Definition showSlide (index : jsnum) : M unit :=
  (* Remove active class from all slides *)
  let* sl := gets slides in
  forEach sl (fun slide _ => classList_remove slide "active") >>
  (* Add active class to current slide *)
  modify (set_currentIndex index) >>
  let* sl := gets slides in
  let* ci := gets currentIndex in
  let* slide := deref (item sl ci) in
  classList_add slide "active" >>
  (* Update dots *)
  let* dc := gets dotsContainer in
  let* c := deref dc in
  let* dots := querySelectorAll c "slider-dot" in
  forEach dots (fun dot i =>
    let* ci := gets currentIndex in
    classList_toggle dot "active" (strict_eq (Num (Z.of_nat i)) ci)).

Definition nextSlide : M unit :=
  let* ci := gets currentIndex in
  let* sl := gets slides in
  let nextIndex := js_rem (js_add ci (Num 1)) (length_num sl) in
  showSlide nextIndex.

Definition prevSlide : M unit :=
  let* ci := gets currentIndex in
  let* sl := gets slides in
  let prevIndex := js_rem (js_add (js_sub ci (Num 1)) (length_num sl)) (length_num sl) in
  showSlide prevIndex.

Definition handleSwipe (startX endX : Z) : M unit :=
  let threshold := 50%Z in
  let diff := (startX - endX)%Z in
  if (threshold <? Z.abs diff)%Z then
    if (0 <? diff)%Z then nextSlide else prevSlide
  else ret tt.

Definition startAutoPlay : M unit :=
  let* id := setInterval OnTick 5000 in
  modify (set_autoPlayInterval (Some id)).

Definition stopAutoPlay : M unit :=
  let* h := gets autoPlayInterval in
  if truthy_handle h then
    match h with
    | Some id => clearInterval id >> modify (set_autoPlayInterval None)
    | None => ret tt
    end
  else ret tt.

Definition when_present (o : option node) (k : node -> M unit) : M unit :=
  match o with
  | Some n => k n
  | None => ret tt
  end.

Definition init : M unit :=
  (* Create dots *)
  createDots >>
  (* Show first slide *)
  showSlide (Num 0) >>
  (* Event listeners *)
  let* pb := gets prevBtn in
  when_present pb (fun b => addEventListener (El b) "click" OnPrevClick) >>
  let* nb := gets nextBtn in
  when_present nb (fun b => addEventListener (El b) "click" OnNextClick) >>
  (* Keyboard navigation *)
  addEventListener Doc "keydown" OnKeydown >>
  (* Touch/swipe support *)
  modify (set_touchStartX 0) >>
  modify (set_touchEndX 0) >>
  let* s := gets slider in
  let* s := deref s in
  addEventListener (El s) "touchstart" OnTouchStart >>
  addEventListener (El s) "touchend" OnTouchEnd.

(** The page as the constructor finds it: its elements in document order; this
    component's listeners and timers do not exist yet. *)
Definition new_object (page : list Element) : World :=
  {| elements := page;
     listeners := [];
     timers := [];
     lastTimer := 0;
     slider := document_querySelector "gallery-slider" page;
     slides := document_querySelectorAll "gallery-slide" page;
     prevBtn := document_querySelector "slider-btn-prev" page;
     nextBtn := document_querySelector "slider-btn-next" page;
     dotsContainer := document_querySelector "slider-dots" page;
     currentIndex := Num 0;
     autoPlayInterval := None;
     touchStartX := 0;
     touchEndX := 0 |}.

Definition constructor (page : list Element) : Res unit * World :=
  let w := new_object page in
  if is_none (slider w) || (length (slides w) =? 0) then (Ok tt, w)
  else init w.

(** ** Events *)

Definition handle (h : handler) (e : Event) : M unit :=
  match h with
  | OnPrevClick => prevSlide
  | OnNextClick => nextSlide
  | OnKeydown =>
      (if String.eqb (key e) "ArrowLeft" then prevSlide else ret tt) >>
      (if String.eqb (key e) "ArrowRight" then nextSlide else ret tt)
  | OnTouchStart => modify (set_touchStartX (screenX e))
  | OnTouchEnd =>
      modify (set_touchEndX (screenX e)) >>
      let* sx := gets touchStartX in
      let* ex := gets touchEndX in
      handleSwipe sx ex
  | OnDotClick index => showSlide (Num (Z.of_nat index))
  | OnTick => nextSlide
  end.

Definition target_eqb (a b : target) : bool :=
  match a, b with
  | Doc, Doc => true
  | El n, El m => n =? m
  | _, _ => false
  end.

Definition listens (t : target) (ty : string) (l : target * string * handler) : bool :=
  target_eqb (fst (fst l)) t && String.eqb (snd (fst l)) ty.

Definition listeners_for (t : target) (ty : string) (w : World) : list handler :=
  map snd (List.filter (listens t ty) (listeners w)).

(** Listeners run in the order given.  An exception in a listener is reported
    and does not stop the remaining ones; the reports are returned. *)
Fixpoint run_listeners (hs : list handler) (e : Event) (w : World) : list exn * World :=
  match hs with
  | [] => ([], w)
  | h :: hs' =>
      match handle h e w with
      | (Ok _, w') => run_listeners hs' e w'
      | (Throw x, w') => let (xs, w'') := run_listeners hs' e w' in (x :: xs, w'')
      end
  end.

(** The path of an event that the browser delivers to [t], an element of the
    document or the document itself: the target, then its ancestors from the
    nearest to the root, then the document. *)
Definition event_path (els : list Element) (t : target) : list target :=
  match t with
  | Doc => [Doc]
  | El n => (El n :: map El (ancestors els n) ++ [Doc])%list
  end.

(** Delivering an event ([click], [keydown], [touchstart] and [touchend] all
    bubble): at the target and then at each further element of the path, the
    listeners registered there for the type of the event run, in registration
    order.  The class registers no capturing listener, never stops the
    propagation, and no listener of it registers or removes a listener or
    moves an element, so path and listeners are those found at the start. *)
Definition dispatch (t : target) (e : Event) (w : World) : list exn * World :=
  run_listeners
    (flat_map (fun t' => listeners_for t' (type e) w) (event_path (elements w) t)) e w.

(** A timer tick: the callback of an armed interval runs; a cleared one does
    nothing. *)
Definition tick (id : nat) (w : World) : list exn * World :=
  run_listeners
    (map (fun t => snd (fst t)) (List.filter (fun t => fst (fst t) =? id) (timers w)))
    (mkEvent "timer" EmptyString 0) w.

(** ** Observations *)

Definition is_active (w : World) (n : node) : bool :=
  has_class (elements w) "active" n.

(** The positions of a list of handles whose element carries [active]. *)
Definition active_positions (w : World) (l : list node) : list nat :=
  List.filter (fun i => match l !! i with Some n => is_active w n | None => false end)
    (seq 0 (length l)).

(** The indicators: what [dotsContainer.querySelectorAll('.slider-dot')]
    returns. *)
Definition dots (w : World) : list node :=
  match dotsContainer w with
  | Some c => List.filter (has_class (elements w) "slider-dot") (descendants (elements w) c)
  | None => []
  end.

(** A sample page: slider root, three slides, both buttons, an empty
    indicator container. *)
Definition sample_page : list Element :=
  [ mkElement "div" ["gallery-slider"] [1; 2; 3; 4; 5; 6];
    mkElement "div" ["gallery-slide"; "active"] [];
    mkElement "div" ["gallery-slide"] [];
    mkElement "div" ["gallery-slide"] [];
    mkElement "button" ["slider-btn"; "slider-btn-prev"] [];
    mkElement "button" ["slider-btn"; "slider-btn-next"] [];
    mkElement "div" ["slider-dots"] [] ].


(** ** Closed forms of the two loops of [showSlide], and of its outcomes *)

(** Two stores that differ at most in who carries the token [active]. *)
Definition same_but_active (els els' : list Element) : Prop :=
  length els' = length els /\
  (forall m, children els' m = children els m) /\
  (forall t m, t <> "active" -> has_class els' t m = has_class els t m).

(** The store after [slides.forEach(slide => slide.classList.remove('active'))]. *)
Fixpoint deactivate (l : list node) (els : list Element) : list Element :=
  match l with
  | [] => els
  | n :: l' => deactivate l' (upd (token_remove "active") n els)
  end.

(** The store after [dots.forEach((dot, i) => dot.classList.toggle('active',
    i === ci))], the loop counter starting at [k]. *)
Fixpoint mark_from (k : nat) (ds : list node) (ci : jsnum) (els : list Element) : list Element :=
  match ds with
  | [] => els
  | d :: ds' =>
      mark_from (S k) ds' ci
        (upd (token_toggle "active" (strict_eq (Num (Z.of_nat k)) ci)) d els)
  end.

(** The world a completed [showSlide(idx)] leaves, [s] being [slides[idx]]
    and [c] the indicator container. *)
Definition shown (idx : jsnum) (s c : node) (w : World) : World :=
  let els1 := upd (token_add "active") s (deactivate (slides w) (elements w)) in
  let ds := List.filter (has_class els1 "slider-dot") (descendants els1 c) in
  set_elements (mark_from 0 ds idx els1) (set_currentIndex idx w).

(** The world [showSlide(idx)] leaves when [slides[idx]] is undefined. *)
Definition half_shown (idx : jsnum) (w : World) : World :=
  set_elements (deactivate (slides w) (elements w)) (set_currentIndex idx w).

(** A world without page and without slides, for telling computations apart. *)
Definition blank : World := new_object [].

(** ** Sequences of calls *)

(** [k] calls of a method in a row. *)
Fixpoint repeat_call (k : nat) (m : M unit) : M unit :=
  match k with
  | O => ret tt
  | S k' => m >> repeat_call k' m
  end.

(** The world after [k] separate calls, each one made whatever the outcome of
    the one before (as when each comes from its own event). *)
Fixpoint after_calls (k : nat) (m : M unit) (w : World) : World :=
  match k with
  | O => w
  | S k' => after_calls k' m (snd (m w))
  end.

(** The value of [currentIndex] after each of [k] successive calls. *)
Fixpoint visited (k : nat) (m : M unit) (w : World) : list jsnum :=
  match k with
  | O => []
  | S k' => let w' := snd (m w) in currentIndex w' :: visited k' m w'
  end.

(** ** Closed form of construction *)

(** An indicator as [createDots] makes it. *)
Definition dot_element : Element := mkElement "span" ["slider-dot"] [].

(** The store after [m] indicators were created and appended to [c]. *)
Definition with_dots (c : node) (m : nat) (els : list Element) : list Element :=
  alter (fun e => with_childNodes (childNodes e ++ seq (length els) m) e) c els
  ++ replicate m dot_element.

(** The click listeners of [m] indicators created from handle [base] on, the
    first of them for slide index [k]. *)
Definition dot_listeners (base k m : nat) : list (target * string * handler) :=
  map (fun j => (El (base + j), "click", OnDotClick (k + j))) (seq 0 m).

Definition dotted (c : node) (k m : nat) (w : World) : World :=
  set_listeners (listeners w ++ dot_listeners (length (elements w)) k m)
    (set_elements (with_dots c m (elements w)) w).

Definition button_listener (b : option node) (h : handler) : list (target * string * handler) :=
  match b with
  | Some n => [(El n, "click", h)]
  | None => []
  end.

(** The click listener of a control, as far as the element [a] is
    concerned: there if [a] is the control. *)
Definition button_at (b : option node) (h : handler) (a : node) : list handler :=
  match b with
  | Some n => if a =? n then [h] else []
  | None => []
  end.

(** The world after the listener registrations of [init]. *)
Definition wired (s : node) (w : World) : World :=
  set_listeners
    (listeners w ++ button_listener (prevBtn w) OnPrevClick
       ++ button_listener (nextBtn w) OnNextClick
       ++ [(Doc, "keydown", OnKeydown);
           (El s, "touchstart", OnTouchStart);
           (El s, "touchend", OnTouchEnd)])
    (set_touchEndX 0 (set_touchStartX 0 w)).

(** What a delivered event amounts to when exactly the call [m] is wired. *)
Definition as_event (m : M unit) (w : World) : list exn * World :=
  match m w with
  | (Ok _, w') => ([], w')
  | (Throw x, w') => ([x], w')
  end.

(** A page with the slider root and the indicator container, but no slide. *)
Definition no_slide_page : list Element :=
  [ mkElement "div" ["gallery-slider"] [1];
    mkElement "div" ["slider-dots"] [] ].

(** A page with the slider root and one slide, but no indicator container. *)
Definition no_container_page : list Element :=
  [ mkElement "div" ["gallery-slider"] [1];
    mkElement "div" ["gallery-slide"] [] ].

(** The deck built from the sample page. *)
Definition sample_deck : World := snd (constructor sample_page).

(** The sample deck moved to its last slide. *)
Definition sample_deck_at_last : World := snd (showSlide (Num 2) sample_deck).

(** Before construction no element inside the indicator container, at any
    depth, is an indicator. *)
Definition no_indicator_yet (page : list Element) (c : node) : Prop :=
  Forall (fun x => has_class page "slider-dot" x = false) (descendants page c).

(** A page whose indicator container wraps an indicator of its own in a
    [div]: slider root, two slides, the container. *)
Definition wrapped_dot_page : list Element :=
  [ mkElement "div" ["gallery-slider"] [1; 2; 3];
    mkElement "div" ["gallery-slide"] [];
    mkElement "div" ["gallery-slide"] [];
    mkElement "div" ["slider-dots"] [4];
    mkElement "div" [] [5];
    mkElement "span" ["slider-dot"] [] ].

Definition wrapped_dot_deck : World := snd (constructor wrapped_dot_page).

(** A page whose indicator container is also its "previous" control. *)
Definition dots_in_control_page : list Element :=
  [ mkElement "div" ["gallery-slider"] [1; 2; 3];
    mkElement "div" ["gallery-slide"] [];
    mkElement "div" ["gallery-slide"] [];
    mkElement "div" ["slider-dots"; "slider-btn-prev"] [] ].

(** A page whose "previous" control sits inside its "next" control. *)
Definition nested_buttons_page : list Element :=
  [ mkElement "div" ["gallery-slider"] [1; 2; 3; 5];
    mkElement "div" ["gallery-slide"] [];
    mkElement "div" ["gallery-slide"] [];
    mkElement "button" ["slider-btn-next"] [4];
    mkElement "span" ["slider-btn-prev"] [];
    mkElement "div" ["slider-dots"] [] ].

(** ** Well-formed decks and the invariant *)

(** The handles of slides and indicators are live and pairwise distinct, and
    the container holds an indicator for every slide (construction makes it
    exactly one per slide). *)
Definition well_formed (w : World) : Prop :=
  NoDup (slides w ++ dots w) /\
  Forall (fun n => n < length (elements w)) (slides w ++ dots w) /\
  length (slides w) <= length (dots w).

(** Exactly one slide and exactly one indicator carry [active], both at
    position [i], which is [currentIndex]. *)
Definition exactly_active (w : World) (i : nat) : Prop :=
  currentIndex w = Num (Z.of_nat i) /\
  active_positions w (slides w) = [i] /\
  active_positions w (dots w) = [i].

Definition invariant (w : World) : Prop :=
  well_formed w /\ exists i, exactly_active w i.

(** ** Further observations on the slider *)

(** [w'] differs from [w] at most in [currentIndex] and in who carries the
    token [active]. *)
Definition only_active_changes (w w' : World) : Prop :=
  same_but_active (elements w) (elements w') /\
  listeners w' = listeners w /\
  timers w' = timers w /\
  lastTimer w' = lastTimer w /\
  slider w' = slider w /\
  slides w' = slides w /\
  prevBtn w' = prevBtn w /\
  nextBtn w' = nextBtn w /\
  dotsContainer w' = dotsContainer w /\
  autoPlayInterval w' = autoPlayInterval w /\
  touchStartX w' = touchStartX w /\
  touchEndX w' = touchEndX w.

(** Every armed interval carries a handle that [setInterval] has handed out. *)
Definition timers_consistent (w : World) : Prop :=
  Forall (fun t => fst (fst t) <= lastTimer w) (timers w).

(** The world a completed construction leaves, [s] being the slider root,
    [c] the indicator container and [n0] the first slide. *)
Definition built (page : list Element) (s c n0 : node) : World :=
  wired s
    (shown (Num 0) n0 c
       (dotted c 0 (length (document_querySelectorAll "gallery-slide" page))
          (new_object page))).

(** The sample deck with auto-play started once. *)
Definition sample_deck_playing : World := snd (startAutoPlay sample_deck).

(** A page with slides and an indicator container, but no slider root. *)
Definition no_slider_page : list Element :=
  [ mkElement "div" ["gallery-slide"] [];
    mkElement "div" ["slider-dots"] [] ].

(** The sample deck after the failed calls [showSlide(3)] and [showSlide(-3)]. *)
Definition sample_deck_past_end : World := snd (showSlide (Num 3) sample_deck).
Definition sample_deck_negative : World := snd (showSlide (Num (-3)) sample_deck).

(** * The utilities of main.js (lines 12-44) *)

(** ** [throttle(func, delay)] *)

Section Throttle.
Context {A S R : Type}.
Variable func : A -> S -> Res R * S.
Variable delay : Z.

(** One call of the closure that [throttle] returns.  Its captured variable
    [lastCall] is the first component of the state, what [func] acts on the
    second; [now] is the reading of [new Date().getTime()] at the call.  The
    early [return] yields [undefined], here [None]; [lastCall] is assigned
    before [func] runs, so it is kept when [func] throws. *)
Definition throttled (args : A) (now : Z) (st : Z * S) : Res (option R) * (Z * S) :=
  let (lastCall, s) := st in
  if (now - lastCall <? delay)%Z then (Ok None, (lastCall, s))
  else
    match func args s with
    | (Ok r, s') => (Ok (Some r), (now, s'))
    | (Throw e, s') => (Throw e, (now, s'))
    end.

(** A sequence of calls, each with its arguments and clock reading: the
    clock readings of the calls that reached [func], and the final state. *)
Fixpoint throttled_run (calls : list (A * Z)) (st : Z * S) : list Z * (Z * S) :=
  match calls with
  | [] => ([], st)
  | (args, now) :: rest =>
      let (r, st') := throttled args now st in
      let (ts, st'') := throttled_run rest st' in
      (match r with Ok None => ts | _ => now :: ts end, st'')
  end.
End Throttle.

(** The state of a fresh closure: [let lastCall = 0]. *)
Definition throttle_new {S : Type} (s : S) : Z * S := (0%Z, s).

(** Successive clock readings at least [d] apart, the first one at least [d]
    after [last]. *)
Fixpoint spaced (d last : Z) (ts : list Z) : Prop :=
  match ts with
  | [] => True
  | t :: ts' => (d <= t - last)%Z /\ spaced d t ts'
  end.

(** ** [debounce(func, delay)] *)

(** The closure that [debounce] returns, with the part of the browser's
    timeout table it owns: [timeoutId] is its captured variable ([undefined]
    at first), [pending] the timeouts it has set and that neither expired nor
    were cleared, each with the arguments its callback will pass to [func]. *)
Record Debounce (A : Type) : Type := mkDebounce {
  timeoutId : option nat;
  pending : list (nat * A);
  lastTimeout : nat
}.

Arguments mkDebounce {A} _ _ _.
Arguments timeoutId {A} _.
Arguments pending {A} _.
Arguments lastTimeout {A} _.

Definition debounce_new {A : Type} : Debounce A := mkDebounce None [] 0.

(** [clearTimeout(id)]: [undefined] and handles that are not pending are
    ignored. *)
Definition clearTimeout {A : Type} (id : option nat) (tab : list (nat * A)) : list (nat * A) :=
  match id with
  | Some i => List.filter (fun t => negb (fst t =? i)) tab
  | None => tab
  end.

(** One call of the debounced function: [clearTimeout(timeoutId); timeoutId =
    setTimeout(() => func.apply(this, args), delay)]. *)
Definition debounced {A : Type} (args : A) (d : Debounce A) : Debounce A :=
  let id := S (lastTimeout d) in
  mkDebounce (Some id) (clearTimeout (timeoutId d) (pending d) ++ [(id, args)]) id.

(** The timeout [id] expires: if it is pending its callback runs once, which
    applies [func] to the stored arguments, and it leaves the table. *)
Definition expire {A : Type} (id : nat) (d : Debounce A) : list A * Debounce A :=
  (map snd (List.filter (fun t => fst t =? id) (pending d)),
   mkDebounce (timeoutId d) (List.filter (fun t => negb (fst t =? id)) (pending d))
     (lastTimeout d)).

Inductive debounce_event (A : Type) : Type :=
| Call (args : A)
| Expire (id : nat).

Arguments Call {A} args.
Arguments Expire {A} id.

(** A sequence of calls and expiries: the arguments [func] was applied to, in
    order, and the final state. *)
Fixpoint debounce_run {A : Type} (evs : list (debounce_event A)) (d : Debounce A)
  : list A * Debounce A :=
  match evs with
  | [] => ([], d)
  | Call args :: rest => debounce_run rest (debounced args d)
  | Expire id :: rest =>
      let (ran, d') := expire id d in
      let (ran', d'') := debounce_run rest d' in
      ((ran ++ ran')%list, d'')
  end.

(** At most one timeout is pending, it is the one [timeoutId] names, and no
    handle is ahead of the counter. *)
Definition debounce_ok {A : Type} (d : Debounce A) : Prop :=
  length (pending d) <= 1 /\
  (forall t, In t (pending d) -> timeoutId d = Some (fst t)) /\
  (forall i, timeoutId d = Some i -> i <= lastTimeout d).

(** A counter as [func], and a burst of calls with their clock readings, for
    trying the utilities. *)
Definition count_call (args : unit) (n : nat) : Res unit * nat := (Ok tt, S n).

Definition sample_calls : list (unit * Z) :=
  [(tt, 1000%Z); (tt, 1050%Z); (tt, 1100%Z); (tt, 1199%Z); (tt, 1250%Z)].

(** The number of calls among the events of a debounced function. *)
Fixpoint calls_in {A : Type} (evs : list (debounce_event A)) : nat :=
  match evs with
  | [] => 0
  | Call _ :: rest => S (calls_in rest)
  | Expire _ :: rest => calls_in rest
  end.

(** ** [isInViewport(element, offset = 100)] *)

(** The two edges of [element.getBoundingClientRect()] the function reads;
    they are fractions of a pixel in general. *)
Record DOMRect : Type := mkRect {
  rect_top : Q;
  rect_bottom : Q
}.

(** What a pass reads of the layout: the rectangle of each element and the
    two heights of [window.innerHeight || document.documentElement
    .clientHeight]. *)
Record Layout : Type := mkLayout {
  boundingRect : node -> DOMRect;
  innerHeight : Z;
  clientHeight : Z
}.

(** [offset] is [None] when the argument is omitted. *)
Definition isInViewport (ly : Layout) (element : node) (offset : option Z) : bool :=
  let offset := match offset with Some o => o | None => 100%Z end in
  let rect := boundingRect ly element in
  let height := if (innerHeight ly =? 0)%Z then clientHeight ly else innerHeight ly in
  Qle_bool (rect_top rect) (inject_Z (height - offset)) && Qle_bool 0 (rect_bottom rect).

(** * KPICounter (lines 127-154) *)

(** The fields of the object that [animateCounters] uses, and the calls of
    [animateValue] it has made: each with the card and the number element it
    was made for.  [animateValue] itself (an animation in floating point,
    frame by frame) is not modelled beyond the fact of its call. *)
Record KPICounter : Type := mkKPI {
  counters : list node;
  hasAnimated : list node;
  animations : list (node * node)
}.

Section AnimateCounters.
(** [counter.querySelector('.kpi-number')], which nothing here changes. *)
Variable kpi_number : node -> option node.

(** The callback of [this.counters.forEach] for one card. *)
Definition animateCounter (ly : Layout) (counter : node) (k : KPICounter)
  : Res unit * KPICounter :=
  if existsb (Nat.eqb counter) (hasAnimated k) then (Ok tt, k)
  else if isInViewport ly counter None then
    let marked := (hasAnimated k ++ [counter])%list in
    match kpi_number counter with
    | None => (Throw TypeError, mkKPI (counters k) marked (animations k))
    | Some numberElement =>
        (Ok tt, mkKPI (counters k) marked
                  (animations k ++ [(counter, numberElement)])%list)
    end
  else (Ok tt, k).

Fixpoint forEach_counter (ly : Layout) (cs : list node) (k : KPICounter)
  : Res unit * KPICounter :=
  match cs with
  | [] => (Ok tt, k)
  | c :: cs' =>
      match animateCounter ly c k with
      | (Ok _, k') => forEach_counter ly cs' k'
      | (Throw e, k') => (Throw e, k')
      end
  end.

Definition animateCounters (ly : Layout) (k : KPICounter) : Res unit * KPICounter :=
  forEach_counter ly (counters k) k.

(** Successive passes, one per scroll event let through, each with the
    layout of its moment; an exception ends its pass only. *)
Fixpoint animate_passes (lys : list Layout) (k : KPICounter) : KPICounter :=
  match lys with
  | [] => k
  | ly :: rest => animate_passes rest (snd (animateCounters ly k))
  end.
End AnimateCounters.

(** No card has been animated twice, and every animated card is marked. *)
Definition animated_once (k : KPICounter) : Prop :=
  NoDup (map fst (animations k)) /\
  (forall c, In c (map fst (animations k)) -> In c (hasAnimated k)).

(** A layout with a viewport 600 high where element [n] spans from
    [300 n - 100] to [300 n + 100], and cards whose number element is the
    next handle, card 5 having none. *)
Definition sample_layout : Layout :=
  mkLayout (fun n => mkRect (inject_Z (300 * Z.of_nat n - 100))
                            (inject_Z (300 * Z.of_nat n + 100))) 600 0.

Definition sample_kpi_number (n : node) : option node :=
  if n =? 5 then None else Some (S n).

(** * Navigation: the mobile menu (lines 50-58, 95-103) *)

(** The fields the constructor reads off the page; [getElementById] gives
    [null] for an id the page does not have. *)
Record Navigation : Type := mkNavigation {
  navbar : option node;
  navToggle : option node;
  navMenu : option node;
  navLinks : list node
}.

(** [classList.toggle(t)] without a second argument. *)
Definition token_flip (t : string) (cl : list string) : list string :=
  if contains t cl then token_remove t cl else token_add t cl.

Definition classList_flip (n : node) (t : string) : M unit :=
  update_classList (token_flip t) n.

Definition toggleMenu (nav : Navigation) : M unit :=
  let* menu := deref (navMenu nav) in
  classList_flip menu "active" >>
  let* toggle := deref (navToggle nav) in
  classList_flip toggle "active".

Definition closeMenu (nav : Navigation) : M unit :=
  let* menu := deref (navMenu nav) in
  classList_remove menu "active" >>
  let* toggle := deref (navToggle nav) in
  classList_remove toggle "active".

(** A page with the navigation bar, its toggle, its menu (open) and two
    links, and the objects built on it with and without the toggle. *)
Definition nav_page : list Element :=
  [ mkElement "nav" ["navbar"] [1; 2];
    mkElement "button" ["nav-toggle"] [];
    mkElement "ul" ["nav-menu"; "active"] [3; 4];
    mkElement "a" ["nav-link"] [];
    mkElement "a" ["nav-link"; "active"] [] ].

Definition nav_world : World := new_object nav_page.

Definition sample_nav : Navigation := mkNavigation (Some 0) (Some 1) (Some 2) [3; 4].

Definition sample_nav_no_toggle : Navigation := mkNavigation (Some 0) None (Some 2) [3; 4].

(** * ScrollAnimations (lines 185-214) *)

(** The object with the part of the page and of the timeout table it acts
    on.  [aos_elements] is [this.elements], [animated] the set
    [this.animated], [aos_page] the elements of the page, [aos_timeouts] the
    timeouts [checkElements] has set and that have not expired, each with the
    element its callback closes over.  The delay of a timeout (the attribute
    [data-aos-delay], or 0) only decides when it expires; expiries are taken
    here in any order. *)
Record ScrollAnimations : Type := mkAOS {
  aos_elements : list node;
  animated : list node;
  aos_page : list Element;
  aos_timeouts : list (nat * node);
  aos_last : nat
}.

(** [set.add(x)]: a set holds a value once. *)
Definition set_add (x : node) (l : list node) : list node :=
  if existsb (Nat.eqb x) l then l else (l ++ [x])%list.

(** The callback of [this.elements.forEach] in [checkElements]. *)
Definition checkElement (ly : Layout) (element : node) (a : ScrollAnimations)
  : ScrollAnimations :=
  if existsb (Nat.eqb element) (animated a) then a
  else if isInViewport ly element (Some 150%Z) then
    mkAOS (aos_elements a) (animated a) (aos_page a)
      (aos_timeouts a ++ [(S (aos_last a), element)])%list (S (aos_last a))
  else a.

Definition checkElements (ly : Layout) (a : ScrollAnimations) : ScrollAnimations :=
  fold_left (fun acc element => checkElement ly element acc) (aos_elements a) a.

(** The callback of one timeout: [element.classList.add('aos-animate');
    this.animated.add(element)]. *)
Definition aos_callback (element : node) (a : ScrollAnimations) : ScrollAnimations :=
  mkAOS (aos_elements a) (set_add element (animated a))
    (upd (token_add "aos-animate") element (aos_page a)) (aos_timeouts a) (aos_last a).

(** The timeout [id] expires: it leaves the table and its callback runs. *)
Definition aos_expire (id : nat) (a : ScrollAnimations) : ScrollAnimations :=
  fold_left (fun acc t => aos_callback (snd t) acc)
    (List.filter (fun t => fst t =? id) (aos_timeouts a))
    (mkAOS (aos_elements a) (animated a) (aos_page a)
       (List.filter (fun t => negb (fst t =? id)) (aos_timeouts a)) (aos_last a)).

Inductive aos_event : Type :=
| Pass (ly : Layout)      (* a scroll event let through, or the initial check *)
| Timeout (id : nat).

Definition aos_step (a : ScrollAnimations) (ev : aos_event) : ScrollAnimations :=
  match ev with
  | Pass ly => checkElements ly a
  | Timeout id => aos_expire id a
  end.

Definition aos_run (evs : list aos_event) (a : ScrollAnimations) : ScrollAnimations :=
  fold_left aos_step evs a.

(** The elements watched and those with a pending timeout are elements of the
    page, and every element marked in [animated] carries [aos-animate]. *)
Definition aos_ok (a : ScrollAnimations) : Prop :=
  (forall e, In e (aos_elements a) -> e < length (aos_page a)) /\
  (forall t, In t (aos_timeouts a) -> In (snd t) (aos_elements a)) /\
  (forall e, In e (animated a) -> has_class (aos_page a) "aos-animate" e = true).

(** The pending timeouts whose callback is for [e]. *)
Definition timeouts_for (e : node) (a : ScrollAnimations) : list (nat * node) :=
  List.filter (fun t => snd t =? e) (aos_timeouts a).

(** Three watched elements on a page of four, nothing animated yet. *)
Definition sample_aos : ScrollAnimations :=
  mkAOS [0; 1; 3]
    []
    [ mkElement "div" ["card"] []; mkElement "div" ["card"] [];
      mkElement "div" [] []; mkElement "div" ["card"] [] ]
    [] 0.

(** * Navigation: the link of the section in view (lines 105-120) *)

(** A character that a double-quoted string of a selector holds as itself:
    not the quote (34), not the backslash (92), not a line break (10, 12, 13),
    not NUL. *)
Definition css_plain (a : Ascii.ascii) : bool :=
  negb (existsb (Nat.eqb (Ascii.nat_of_ascii a)) [0; 10; 12; 13; 34; 92]).

(** An id that the template literal leaves inside the quoted string. *)
Fixpoint plain_id (s : string) : bool :=
  match s with
  | EmptyString => true
  | String a s' => css_plain a && plain_id s'
  end.

Section HighlightActiveSection.
(** What the method reads of the page and never writes: attributes and the
    layout of sections. *)
Variable getAttribute : node -> string -> option string.
Variable offsetTop : node -> Z.
Variable offsetHeight : node -> Z.

(** [document.querySelector] on the selector built from a section id that
    is not plain (see [plain_id]): the id then ends or escapes the quoted
    string of the selector, and the browser throws a SyntaxError or selects
    by some other selector.  This outcome is left open. *)
Variable querySelector_other : string -> list Element -> Res (option node).

(** [document.querySelectorAll('section[id]')]. *)
Definition sections_with_id (els : list Element) : list node :=
  List.filter
    (fun n =>
       match els !! n with
       | Some e => String.eqb (tagName e) "section"
       | None => false
       end && negb (is_none (getAttribute n "id")))
    (seq 0 (length els)).

(** [section.getAttribute('id')], as the template literal renders it. *)
Definition section_id (section : node) : string :=
  match getAttribute section "id" with
  | Some i => i
  | None => "null"
  end.

(** The first element of class [nav-link] whose [href] is [#sectionId]. *)
Definition nav_link_plain (els : list Element) (sectionId : string) : option node :=
  head
    (List.filter
       (fun n =>
          has_class els "nav-link" n &&
          match getAttribute n "href" with
          | Some h => String.eqb h ("#" ++ sectionId)
          | None => false
          end)
       (seq 0 (length els))).

(** [document.querySelector(`.nav-link[href="#${sectionId}"]`)]: for a plain
    id the selector is the class selector with an attribute selector whose
    quoted string is [#sectionId], compared with [href] character by
    character. *)
Definition nav_link_to (els : list Element) (sectionId : string) : M (option node) :=
  fun w =>
    (if plain_id sectionId then Ok (nav_link_plain els sectionId)
     else querySelector_other sectionId els, w).

(** [scrollY > sectionTop && scrollY <= sectionTop + sectionHeight]. *)
Definition scrolled_into (scrollY : Q) (section : node) : bool :=
  let sectionHeight := offsetHeight section in
  let sectionTop := (offsetTop section - 100)%Z in
  negb (Qle_bool scrollY (inject_Z sectionTop)) &&
  Qle_bool scrollY (inject_Z (sectionTop + sectionHeight)).

(** The callback of [sections.forEach]. *)
Definition highlight_section (nav : Navigation) (scrollY : Q) (section : node) : M unit :=
  let sectionId := section_id section in
  let* els := gets elements in
  let* navLink := nav_link_to els sectionId in
  match navLink with
  | Some navLink =>
      if scrolled_into scrollY section then
        forEach (navLinks nav) (fun link _ => classList_remove link "active") >>
        classList_add navLink "active"
      else ret tt
  | None => ret tt
  end.

Definition highlightActiveSection (nav : Navigation) (scrollY : Q) : M unit :=
  let* els := gets elements in
  forEach (sections_with_id els) (fun section _ => highlight_section nav scrollY section).

(** The link a section with a plain id gets highlighted, if the section has
    one and the page is scrolled into it. *)
Definition section_hit (els : list Element) (scrollY : Q) (section : node) : option node :=
  match nav_link_plain els (section_id section) with
  | Some navLink => if scrolled_into scrollY section then Some navLink else None
  | None => None
  end.

(** The world after the callback ran for a section with a plain id. *)
Definition highlighted (nav : Navigation) (scrollY : Q) (w : World) (section : node) : World :=
  match section_hit (elements w) scrollY section with
  | Some navLink =>
      set_elements
        (upd (token_add "active") navLink (deactivate (navLinks nav) (elements w))) w
  | None => w
  end.
End HighlightActiveSection.

(** A page with two sections and their links, the attributes and layout of
    its elements, and the navigation object on it. *)
Definition sections_page : list Element :=
  [ mkElement "a" ["nav-link"; "active"] [];
    mkElement "a" ["nav-link"] [];
    mkElement "section" [] [];
    mkElement "section" [] [] ].

Definition sections_attr (n : node) (a : string) : option string :=
  match n with
  | 0 => if String.eqb a "href" then Some "#home" else None
  | 1 => if String.eqb a "href" then Some "#about" else None
  | 2 => if String.eqb a "id" then Some "home" else None
  | 3 => if String.eqb a "id" then Some "about" else None
  | _ => None
  end.

Definition sections_top (n : node) : Z := if n =? 3 then 800%Z else 0%Z.

Definition sections_height (n : node) : Z := 800%Z.

Definition sections_nav : Navigation := mkNavigation None None None [0; 1].

Definition sections_world : World := new_object sections_page.

(** The same page with a quote in the id of the first section, and a browser
    that rejects the selector it gives. *)
Definition quoted_attr (n : node) (a : string) : option string :=
  match n with
  | 2 => if String.eqb a "id"
         then Some ("a" ++ String (Ascii.ascii_of_nat 34) "b")
         else None
  | _ => sections_attr n a
  end.

Definition rejecting (sectionId : string) (els : list Element) : Res (option node) :=
  Throw SyntaxError.

(** ** Stores as the image of a store under a change of class lists *)

(** The store where the class list of every element [n] went through
    [g n]. *)
Definition app_at (g : node -> list string -> list string) (els : list Element)
  : list Element :=
  imap (fun n e => with_classList (g n (classList e)) e) els.

(** What the loops of [showSlide] do to the class list of element [m]. *)
Definition g_deactivate (l : list node) (m : node) (cl : list string) : list string :=
  if existsb (Nat.eqb m) l then token_remove "active" cl else cl.

Definition g_at (f : list string -> list string) (n m : node) (cl : list string)
  : list string :=
  if m =? n then f cl else cl.

Fixpoint g_mark (k : nat) (ds : list node) (ci : jsnum) (m : node) (cl : list string)
  : list string :=
  match ds with
  | [] => cl
  | d :: ds' =>
      g_mark (S k) ds' ci m
        (g_at (token_toggle "active" (strict_eq (Num (Z.of_nat k)) ci)) d m cl)
  end.

(** * Properties *)

(** ** Tokens *)

Lemma contains_token_add (t s : string) (cl : list string) :
  contains s (token_add t cl) = String.eqb s t || contains s cl.
Proof.
  unfold token_add, contains.
  destruct (existsb (String.eqb t) cl) eqn:Ht.
  - destruct (String.eqb_spec s t) as [->|]; [now rewrite Ht | reflexivity].
  - rewrite existsb_app. simpl. rewrite orb_false_r. apply orb_comm.
Qed.

Lemma contains_token_remove (t s : string) (cl : list string) :
  contains s (token_remove t cl) = negb (String.eqb s t) && contains s cl.
Proof.
  unfold token_remove, contains.
  induction cl as [|x cl IH]; simpl.
  - now rewrite andb_false_r.
  - destruct (String.eqb_spec t x) as [->|Htx]; simpl.
    + rewrite IH. destruct (String.eqb_spec s x); simpl; auto.
    + rewrite IH. destruct (String.eqb_spec s t) as [->|]; simpl; auto.
      destruct (String.eqb_spec t x); [contradiction | reflexivity].
Qed.

Lemma contains_token_toggle (t s : string) (force : bool) (cl : list string) :
  contains s (token_toggle t force cl) =
  if String.eqb s t then force else contains s cl.
Proof.
  unfold token_toggle. destruct force.
  - rewrite contains_token_add. now destruct (String.eqb s t).
  - rewrite contains_token_remove. now destruct (String.eqb s t).
Qed.

(** ** The element store under class-list updates *)

Lemma length_upd f n els : length (upd f n els) = length els.
Proof. apply length_alter. Qed.

Lemma children_upd f n els m : children (upd f n els) m = children els m.
Proof.
  unfold children, upd. rewrite list_lookup_alter.
  case_decide; [subst n|reflexivity].
  now destruct (els !! m).
Qed.

Lemma classes_upd f n els m :
  classes (upd f n els) m =
  if decide (n = m ∧ n < length els) then f (classes els m) else classes els m.
Proof.
  unfold classes, upd. rewrite list_lookup_alter.
  case_decide as Hnm.
  - subst n. destruct (els !! m) as [e|] eqn:He; simpl.
    + apply lookup_lt_Some in He. rewrite decide_True; auto.
    + apply lookup_ge_None in He. rewrite decide_False; [reflexivity | lia].
  - rewrite decide_False; [reflexivity | tauto].
Qed.

Lemma has_class_upd_other f n els t m :
  (forall cl, contains t (f cl) = contains t cl) ->
  has_class (upd f n els) t m = has_class els t m.
Proof.
  intros Hf. unfold has_class. rewrite classes_upd.
  destruct (decide _); [apply Hf | reflexivity].
Qed.

Lemma same_but_active_refl els : same_but_active els els.
Proof. repeat split. Qed.

Lemma same_but_active_trans a b c :
  same_but_active a b -> same_but_active b c -> same_but_active a c.
Proof.
  intros (L1 & C1 & H1) (L2 & C2 & H2). repeat split.
  - congruence.
  - intros m. now rewrite C2.
  - intros t m Ht. now rewrite H2, H1.
Qed.

Lemma same_but_active_upd f n els :
  (forall t cl, t <> "active" -> contains t (f cl) = contains t cl) ->
  same_but_active els (upd f n els).
Proof.
  intros Hf. repeat split.
  - apply length_upd.
  - apply children_upd.
  - intros t m Ht. apply has_class_upd_other. intros cl. now apply Hf.
Qed.

Lemma token_add_active_other t cl :
  t <> "active" -> contains t (token_add "active" cl) = contains t cl.
Proof.
  intros Ht. rewrite contains_token_add.
  destruct (String.eqb_spec t "active"); [contradiction | reflexivity].
Qed.

Lemma token_remove_active_other t cl :
  t <> "active" -> contains t (token_remove "active" cl) = contains t cl.
Proof.
  intros Ht. rewrite contains_token_remove.
  destruct (String.eqb_spec t "active"); [contradiction | reflexivity].
Qed.

Lemma token_toggle_active_other b t cl :
  t <> "active" -> contains t (token_toggle "active" b cl) = contains t cl.
Proof.
  intros Ht. rewrite contains_token_toggle.
  destruct (String.eqb_spec t "active"); [contradiction | reflexivity].
Qed.

(** ** The tree of the page *)

Lemma flat_map_ext_In {A B : Type} (f g : A -> list B) (l : list A) :
  (forall a, In a l -> f a = g a) -> flat_map f l = flat_map g l.
Proof.
  induction l as [|a l IH]; intros H; cbn [flat_map]; [reflexivity|].
  rewrite (H a) by now left. f_equal. apply IH. intros x Hx. apply H. now right.
Qed.

Lemma flat_map_nil {A B : Type} (f : A -> list B) (l : list A) :
  (forall a, In a l -> f a = []) -> flat_map f l = [].
Proof.
  induction l as [|a l IH]; intros H; cbn [flat_map]; [reflexivity|].
  rewrite (H a) by now left. apply IH. intros x Hx. apply H. now right.
Qed.

Lemma flat_map_map {A B C : Type} (g : A -> B) (f : B -> list C) (l : list A) :
  flat_map f (map g l) = flat_map (fun a => f (g a)) l.
Proof.
  induction l as [|a l IH]; cbn [flat_map map]; [reflexivity|]. now rewrite IH.
Qed.

Lemma flat_map_leaves (f : nat -> list nat) (l : list nat) :
  (forall a, In a l -> f a = []) -> flat_map (fun a => a :: f a) l = l.
Proof.
  induction l as [|a l IH]; intros H; cbn [flat_map]; [reflexivity|].
  rewrite (H a) by now left. cbn [app]. f_equal. apply IH. intros x Hx. apply H. now right.
Qed.

Lemma children_dangling (els : list Element) (n : node) :
  length els <= n -> children els n = [].
Proof. intros H. unfold children. now rewrite (proj2 (lookup_ge_None els n) H). Qed.

Lemma descendants_upto_leaf (f : nat) (els : list Element) (n : node) :
  children els n = [] -> descendants_upto f els n = [].
Proof. intros H. destruct f; cbn [descendants_upto]; [reflexivity | now rewrite H]. Qed.

Lemma descendants_upto_ext (f : nat) (els els' : list Element) (n : node) :
  (forall m, children els' m = children els m) ->
  descendants_upto f els' n = descendants_upto f els n.
Proof.
  intros H. revert n. induction f as [|f IH]; intros n; cbn [descendants_upto];
    [reflexivity|].
  rewrite H. apply flat_map_ext_In. intros ch _. now rewrite IH.
Qed.

Lemma descendants_same (els els' : list Element) (n : node) :
  same_but_active els els' -> descendants els' n = descendants els n.
Proof.
  intros (Hl & Hch & _). unfold descendants. rewrite Hl.
  now apply descendants_upto_ext.
Qed.

Lemma document_order_spec (page : list Element) (n ch : node) :
  document_order page = true -> In ch (children page n) -> n < ch < length page.
Proof.
  intros H Hin. unfold document_order in H. apply andb_true_iff in H as [H _].
  rewrite forallb_forall in H.
  destruct (Nat.lt_ge_cases n (length page)) as [Hn|Hn].
  - specialize (H n ltac:(apply in_seq; lia)). rewrite forallb_forall in H.
    specialize (H ch Hin). apply andb_true_iff in H as [H1 H2].
    apply Nat.ltb_lt in H1, H2. lia.
  - rewrite children_dangling in Hin by exact Hn. destruct Hin.
Qed.

Lemma descendants_upto_bound (page : list Element) (f : nat) (n x : node) :
  document_order page = true ->
  In x (descendants_upto f page n) -> n < x < length page.
Proof.
  intros Ho. revert n. induction f as [|f IH]; intros n Hx; cbn [descendants_upto] in Hx;
    [destruct Hx|].
  apply in_flat_map in Hx as (ch & Hch & Hx).
  pose proof (document_order_spec page n ch Ho Hch) as Hb.
  destruct Hx as [<-|Hx]; [exact Hb|]. apply IH in Hx. lia.
Qed.

Lemma descendants_upto_enough (page : list Element) (f f' : nat) (n : node) :
  document_order page = true ->
  length page <= f + n -> length page <= f' + n ->
  descendants_upto f page n = descendants_upto f' page n.
Proof.
  intros Ho. revert f' n. induction f as [|f IH]; intros f' n Hf Hf'.
  - rewrite (descendants_upto_leaf f') by (apply children_dangling; lia). reflexivity.
  - destruct f' as [|f'].
    + now rewrite (descendants_upto_leaf (S f)) by (apply children_dangling; lia).
    + cbn [descendants_upto]. apply flat_map_ext_In. intros ch Hch.
      pose proof (document_order_spec page n ch Ho Hch) as Hb.
      f_equal. apply IH; lia.
Qed.

Lemma parentNode_Some (els : list Element) (n p : node) :
  parentNode els n = Some p -> p < n /\ In n (children els p).
Proof.
  unfold parentNode. intros H.
  destruct (List.filter _ (seq 0 n)) as [|q l] eqn:Ef; [discriminate|].
  injection H as ->. assert (In p (p :: l)) as Hin by now left.
  rewrite <- Ef in Hin. apply filter_In in Hin as [Hs He].
  apply in_seq in Hs. split; [lia|].
  apply existsb_exists in He as (x & Hx & E). apply Nat.eqb_eq in E. now subst.
Qed.

Lemma parentNode_ext (els els' : list Element) (n : node) :
  (forall p, p < n ->
     existsb (Nat.eqb n) (children els' p) = existsb (Nat.eqb n) (children els p)) ->
  parentNode els' n = parentNode els n.
Proof.
  intros H. unfold parentNode. f_equal. apply List.filter_ext_in.
  intros p Hp. apply in_seq in Hp. apply H. lia.
Qed.

Lemma ancestors_upto_lt (f : nat) (els : list Element) (n p : node) :
  In p (ancestors_upto f els n) -> p < n.
Proof.
  revert n. induction f as [|f IH]; intros n H; cbn [ancestors_upto] in H; [destruct H|].
  destruct (parentNode els n) as [q|] eqn:Eq; [|destruct H].
  apply parentNode_Some in Eq as [Hq _].
  destruct H as [<-|H]; [exact Hq|]. apply IH in H. lia.
Qed.

Lemma ancestors_upto_parent (f : nat) (els : list Element) (n p : node) :
  In p (ancestors_upto f els n) -> children els p <> [].
Proof.
  revert n. induction f as [|f IH]; intros n H; cbn [ancestors_upto] in H; [destruct H|].
  destruct (parentNode els n) as [q|] eqn:Eq; [|destruct H].
  destruct H as [<-|H]; [|now apply IH in H].
  apply parentNode_Some in Eq as [_ Hin]. intros E. now rewrite E in Hin.
Qed.

Lemma ancestors_upto_enough (els : list Element) (f f' : nat) (n : node) :
  n <= f -> n <= f' -> ancestors_upto f els n = ancestors_upto f' els n.
Proof.
  revert f' n. induction f as [|f IH]; intros f' n Hf Hf'.
  - assert (n = 0) as -> by lia. destruct f'; reflexivity.
  - destruct f' as [|f']; [assert (n = 0) as -> by lia; reflexivity|].
    cbn [ancestors_upto]. destruct (parentNode els n) as [p|] eqn:Ep; [|reflexivity].
    apply parentNode_Some in Ep as [Hp _]. f_equal. apply IH; lia.
Qed.

Lemma ancestors_upto_ext (f : nat) (els els' : list Element) (n : node) :
  (forall x p, x <= n ->
     existsb (Nat.eqb x) (children els' p) = existsb (Nat.eqb x) (children els p)) ->
  ancestors_upto f els' n = ancestors_upto f els n.
Proof.
  revert n. induction f as [|f IH]; intros n H; cbn [ancestors_upto]; [reflexivity|].
  rewrite (parentNode_ext els els' n) by (intros p _; now apply H).
  destruct (parentNode els n) as [p|] eqn:Ep; [|reflexivity].
  apply parentNode_Some in Ep as [Hp _]. f_equal. apply IH.
  intros x q Hx. apply H. lia.
Qed.

(** An element occurs at most once among the ancestors of another. *)
Lemma flat_map_ancestors {B : Type} (f : nat) (els : list Element) (n b : node) (l : list B) :
  flat_map (fun a => if a =? b then l else []) (ancestors_upto f els n) =
  if existsb (Nat.eqb b) (ancestors_upto f els n) then l else [].
Proof.
  revert n. induction f as [|f IH]; intros n; cbn [ancestors_upto]; [reflexivity|].
  destruct (parentNode els n) as [p|]; [|reflexivity].
  cbn [flat_map existsb]. rewrite (Nat.eqb_sym b p).
  destruct (Nat.eqb_spec p b) as [->|Hne]; [|exact (IH p)].
  cbn [orb]. rewrite flat_map_nil; [apply app_nil_r|].
  intros a Ha. apply ancestors_upto_lt in Ha.
  destruct (Nat.eqb_spec a b); [lia | reflexivity].
Qed.

Lemma encloses_false (els : list Element) (b n : node) :
  encloses els b n = false -> b <> n /\ existsb (Nat.eqb b) (ancestors els n) = false.
Proof.
  unfold encloses. intros H. apply orb_false_iff in H as [H1 H2].
  apply Nat.eqb_neq in H1. auto.
Qed.

(** ** Events along their path *)

Lemma dispatch_document (e : Event) (w : World) :
  dispatch Doc e w = run_listeners (listeners_for Doc (type e) w) e w.
Proof. unfold dispatch. cbn [event_path flat_map]. now rewrite app_nil_r. Qed.

Lemma dispatch_element (n : node) (e : Event) (w : World) :
  dispatch (El n) e w =
  run_listeners
    (listeners_for (El n) (type e) w
     ++ flat_map (fun a => listeners_for (El a) (type e) w) (ancestors (elements w) n)
     ++ listeners_for Doc (type e) w) e w.
Proof.
  unfold dispatch. cbn [event_path flat_map].
  rewrite flat_map_app, flat_map_map. cbn [flat_map]. now rewrite app_nil_r.
Qed.

Lemma dispatch_nothing (t : target) (e : Event) (w : World) :
  (forall t', In t' (event_path (elements w) t) -> listeners_for t' (type e) w = []) ->
  dispatch t e w = ([], w).
Proof. intros H. unfold dispatch. now rewrite flat_map_nil. Qed.

(** ** The methods in closed form *)

Lemma set_elements_id w : set_elements (elements w) w = w.
Proof. now destruct w. Qed.

Lemma forEach_remove (l : list node) (i : nat) (w : World) :
  forEach_from i l (fun slide _ => classList_remove slide "active") w =
  (Ok tt, set_elements (deactivate l (elements w)) w).
Proof.
  revert i w. induction l as [|n l IH]; intros i w; simpl.
  - unfold ret. now rewrite set_elements_id.
  - unfold bind, classList_remove, update_classList, modify.
    now rewrite IH.
Qed.

Lemma forEach_toggle (ds : list node) (k : nat) (w : World) (f : node -> nat -> M unit) :
  (forall d i w0, f d i w0 =
     (Ok tt, set_elements
        (upd (token_toggle "active" (strict_eq (Num (Z.of_nat i)) (currentIndex w0))) d
           (elements w0)) w0)) ->
  forEach_from k ds f w =
  (Ok tt, set_elements (mark_from k ds (currentIndex w) (elements w)) w).
Proof.
  intros Hf. revert k w. induction ds as [|d ds IH]; intros k w; simpl.
  - unfold ret. now rewrite set_elements_id.
  - unfold bind. rewrite Hf, IH. reflexivity.
Qed.

Lemma showSlide_ok (idx : jsnum) (s c : node) (w : World) :
  item (slides w) idx = Some s ->
  dotsContainer w = Some c ->
  showSlide idx w = (Ok tt, shown idx s c w).
Proof.
  intros Hs Hc. unfold showSlide, forEach, bind, gets; simpl.
  rewrite forEach_remove. unfold modify; simpl.
  rewrite Hs; simpl. unfold classList_add, update_classList, modify; simpl.
  rewrite Hc; simpl. unfold querySelectorAll, gets; simpl.
  etransitivity; [apply forEach_toggle; reflexivity | reflexivity].
Qed.

Lemma showSlide_undefined (idx : jsnum) (w : World) :
  item (slides w) idx = None ->
  showSlide idx w = (Throw TypeError, half_shown idx w).
Proof.
  intros Hs. unfold showSlide, forEach, bind, gets; simpl.
  rewrite forEach_remove. unfold modify; simpl. now rewrite Hs.
Qed.

Lemma showSlide_null (idx : jsnum) (s : node) (w : World) :
  item (slides w) idx = Some s ->
  dotsContainer w = None ->
  showSlide idx w =
  (Throw TypeError,
   set_elements (upd (token_add "active") s (deactivate (slides w) (elements w)))
     (set_currentIndex idx w)).
Proof.
  intros Hs Hc. unfold showSlide, forEach, bind, gets; simpl.
  rewrite forEach_remove. unfold modify; simpl.
  rewrite Hs; simpl. unfold classList_add, update_classList, modify; simpl.
  now rewrite Hc.
Qed.

(** ** Who carries [active] after each loop *)

Lemma active_upd_remove n els m :
  has_class (upd (token_remove "active") n els) "active" m =
  negb (m =? n) && has_class els "active" m.
Proof.
  unfold has_class. rewrite classes_upd. case_decide as H.
  - destruct H as [-> _]. rewrite contains_token_remove, Nat.eqb_refl. reflexivity.
  - destruct (Nat.eqb_spec m n) as [->|]; [|reflexivity].
    assert (length els <= n) as Hn by lia.
    unfold classes. apply lookup_ge_None in Hn. now rewrite Hn.
Qed.

Lemma active_upd_add s els m :
  s < length els ->
  has_class (upd (token_add "active") s els) "active" m =
  (m =? s) || has_class els "active" m.
Proof.
  intros Hs. unfold has_class. rewrite classes_upd. case_decide as H.
  - destruct H as [-> _]. rewrite contains_token_add, Nat.eqb_refl. reflexivity.
  - destruct (Nat.eqb_spec m s) as [->|]; [|reflexivity]. tauto.
Qed.

Lemma active_upd_toggle b d els m :
  d < length els ->
  has_class (upd (token_toggle "active" b) d els) "active" m =
  if m =? d then b else has_class els "active" m.
Proof.
  intros Hd. unfold has_class. rewrite classes_upd. case_decide as H.
  - destruct H as [-> _]. rewrite contains_token_toggle, Nat.eqb_refl. reflexivity.
  - destruct (Nat.eqb_spec m d) as [->|]; [|reflexivity]. tauto.
Qed.

Lemma deactivate_same l els : same_but_active els (deactivate l els).
Proof.
  revert els. induction l as [|n l IH]; intros els; simpl.
  - apply same_but_active_refl.
  - eapply same_but_active_trans; [|apply IH].
    apply same_but_active_upd. intros t cl. apply token_remove_active_other.
Qed.

Lemma mark_from_same k ds ci els : same_but_active els (mark_from k ds ci els).
Proof.
  revert k els. induction ds as [|d ds IH]; intros k els; simpl.
  - apply same_but_active_refl.
  - eapply same_but_active_trans; [|apply IH].
    apply same_but_active_upd. intros t cl. apply token_toggle_active_other.
Qed.

Lemma active_deactivate l els m :
  has_class (deactivate l els) "active" m =
  negb (existsb (Nat.eqb m) l) && has_class els "active" m.
Proof.
  revert els. induction l as [|n l IH]; intros els; simpl; [reflexivity|].
  rewrite IH, active_upd_remove.
  destruct (m =? n), (existsb (Nat.eqb m) l); reflexivity.
Qed.

Lemma existsb_eqb_elem_of (m : nat) (l : list nat) :
  existsb (Nat.eqb m) l = true <-> m ∈ l.
Proof.
  rewrite existsb_exists. split.
  - intros (x & Hx & He). apply Nat.eqb_eq in He. subst. now apply list_elem_of_In.
  - intros H. exists m. split; [now apply list_elem_of_In | apply Nat.eqb_refl].
Qed.

Lemma active_deactivate_in l els m :
  m ∈ l -> has_class (deactivate l els) "active" m = false.
Proof.
  intros H. rewrite active_deactivate.
  apply existsb_eqb_elem_of in H. now rewrite H.
Qed.

Lemma active_mark_from_notin ds k ci els m :
  m ∉ ds ->
  has_class (mark_from k ds ci els) "active" m = has_class els "active" m.
Proof.
  revert k els. induction ds as [|d ds IH]; intros k els Hm; simpl; [reflexivity|].
  apply not_elem_of_cons in Hm as [Hne Hm].
  rewrite IH by assumption.
  unfold has_class. rewrite classes_upd.
  case_decide as H; [|reflexivity]. destruct H as [-> _]. contradiction.
Qed.

Lemma active_mark_from_lookup ds k ci els j m :
  NoDup ds ->
  Forall (fun n => n < length els) ds ->
  ds !! j = Some m ->
  has_class (mark_from k ds ci els) "active" m =
  strict_eq (Num (Z.of_nat (k + j))) ci.
Proof.
  revert k els j. induction ds as [|d ds IH]; intros k els j Hnd Hv Hj; [discriminate|].
  apply NoDup_cons in Hnd as [Hd Hnd].
  apply Forall_cons in Hv as [Hdv Hv].
  destruct j as [|j]; simpl in *.
  - injection Hj as ->.
    rewrite active_mark_from_notin by assumption.
    rewrite active_upd_toggle, Nat.eqb_refl by assumption.
    now rewrite Nat.add_0_r.
  - replace (k + S j) with (S k + j) by lia.
    apply IH; auto. now rewrite length_upd.
Qed.

(** ** One active slide, one active indicator *)

Lemma filter_eqb_seq (i s n : nat) :
  List.filter (fun j => j =? i) (seq s n) =
  if (s <=? i) && (i <? s + n) then [i] else [].
Proof.
  revert s. induction n as [|n IH]; intros s; simpl.
  - destruct (Nat.leb_spec s i), (Nat.ltb_spec i (s + 0)); simpl; auto; lia.
  - rewrite IH. destruct (Nat.eqb_spec s i) as [->|Hne].
    + destruct (Nat.leb_spec (S i) i), (Nat.leb_spec i i),
        (Nat.ltb_spec i (i + S n)); simpl; auto; lia.
    + destruct (Nat.leb_spec (S s) i), (Nat.leb_spec s i),
        (Nat.ltb_spec i (S s + n)), (Nat.ltb_spec i (s + S n)); simpl; auto; lia.
Qed.

Lemma active_positions_single (w : World) (l : list node) (i : nat) :
  i < length l ->
  (forall j m, l !! j = Some m -> is_active w m = (j =? i)) ->
  active_positions w l = [i].
Proof.
  intros Hi H. unfold active_positions.
  rewrite (List.filter_ext_in _ (fun j => j =? i)).
  - rewrite filter_eqb_seq. simpl.
    destruct (Nat.ltb_spec i (length l)); [reflexivity | lia].
  - intros j Hj. apply in_seq in Hj.
    destruct (l !! j) as [m|] eqn:Hm.
    + now apply H.
    + apply lookup_ge_None in Hm. lia.
Qed.

Lemma active_positions_none (w : World) (l : list node) :
  (forall m, m ∈ l -> is_active w m = false) ->
  active_positions w l = [].
Proof.
  intros H. unfold active_positions.
  rewrite (List.filter_ext_in _ (fun _ => false)).
  - induction (seq 0 (length l)); auto.
  - intros j _. destruct (l !! j) as [m|] eqn:Hm; [|reflexivity].
    apply H. eapply list_elem_of_lookup_2, Hm.
Qed.

Lemma active_positions_bound (w : World) (l : list node) (i : nat) :
  active_positions w l = [i] -> i < length l.
Proof.
  intros H. assert (In i (active_positions w l)) as Hin by (rewrite H; now left).
  unfold active_positions in Hin. apply filter_In in Hin as [Hin _].
  apply in_seq in Hin. lia.
Qed.

Lemma dots_same (w w' : World) :
  same_but_active (elements w) (elements w') ->
  dotsContainer w' = dotsContainer w ->
  dots w' = dots w.
Proof.
  intros Hs Hc. unfold dots. rewrite Hc.
  destruct (dotsContainer w) as [c|]; [|reflexivity].
  rewrite (descendants_same _ _ c Hs). destruct Hs as (_ & _ & Hcl).
  apply List.filter_ext. intros a. now apply Hcl.
Qed.

Lemma shown_same (idx : jsnum) (s c : node) (w : World) :
  same_but_active (elements w) (elements (shown idx s c w)).
Proof.
  unfold shown; simpl.
  eapply same_but_active_trans; [apply deactivate_same|].
  eapply same_but_active_trans; [|apply mark_from_same].
  apply same_but_active_upd. intros t cl. apply token_add_active_other.
Qed.

Lemma shown_dots_arg (s c : node) (w : World) :
  dotsContainer w = Some c ->
  let els1 := upd (token_add "active") s (deactivate (slides w) (elements w)) in
  List.filter (has_class els1 "slider-dot") (descendants els1 c) = dots w.
Proof.
  intros Hc els1.
  assert (same_but_active (elements w) els1) as Hs.
  { eapply same_but_active_trans; [apply deactivate_same|].
    apply same_but_active_upd. intros t cl. apply token_add_active_other. }
  unfold dots. rewrite Hc, (descendants_same _ _ c Hs). destruct Hs as (_ & _ & Hcl).
  apply List.filter_ext. intros a. now apply Hcl.
Qed.

Lemma shown_exactly (w : World) (i : nat) (s c : node) :
  well_formed w ->
  slides w !! i = Some s ->
  dotsContainer w = Some c ->
  well_formed (shown (Num (Z.of_nat i)) s c w) /\
  exactly_active (shown (Num (Z.of_nat i)) s c w) i.
Proof.
  intros (Hnd & Hv & Hlen) Hs Hc.
  pose proof (shown_same (Num (Z.of_nat i)) s c w) as Hsame.
  assert (dots (shown (Num (Z.of_nat i)) s c w) = dots w) as Hdots
    by (apply dots_same; [exact Hsame | reflexivity]).
  apply NoDup_app in Hnd as (Hnds & Hdisj & Hndd).
  apply Forall_app in Hv as [Hvs Hvd].
  assert (i < length (slides w)) as Hi by (eapply lookup_lt_Some, Hs).
  assert (s < length (elements w)) as Hsv.
  { rewrite Forall_forall in Hvs. apply Hvs. eapply list_elem_of_lookup_2, Hs. }
  split.
  - unfold well_formed. rewrite Hdots. destruct Hsame as (Hl & _ & _).
    rewrite Hl. simpl. repeat split; auto.
    + apply NoDup_app. auto.
    + apply Forall_app. auto.
  - unfold exactly_active. rewrite Hdots. split; [reflexivity|].
    unfold shown, is_active. rewrite (shown_dots_arg s c w Hc). split.
    + apply active_positions_single; [exact Hi|].
      intros j m Hj. unfold is_active; simpl in *.
      assert (m ∈ slides w) as Hm by (eapply list_elem_of_lookup_2, Hj).
      rewrite active_mark_from_notin by auto.
      rewrite active_upd_add
        by (destruct (deactivate_same (slides w) (elements w)) as (-> & _); exact Hsv).
      rewrite active_deactivate_in by exact Hm. rewrite orb_false_r.
      destruct (Nat.eqb_spec j i) as [E|Hne].
      * subst j. assert (m = s) as -> by congruence. apply Nat.eqb_refl.
      * apply Nat.eqb_neq. intros E. subst m. apply Hne.
        exact (NoDup_lookup (slides w) j i s Hnds Hj Hs).
    + apply active_positions_single; [lia|].
      intros j m Hj. unfold is_active; simpl in *.
      rewrite (active_mark_from_lookup _ 0 _ _ j); auto.
      * simpl. destruct (Nat.eqb_spec j i), (Z.eqb_spec (Z.of_nat j) (Z.of_nat i));
          auto; lia.
      * rewrite length_upd.
        destruct (deactivate_same (slides w) (elements w)) as (-> & _). exact Hvd.
Qed.

(** ** Index arithmetic of [nextSlide] and [prevSlide] *)

Lemma item_nat (l : list node) (i : nat) : item l (Num (Z.of_nat i)) = l !! i.
Proof.
  unfold item. destruct (Z.leb_spec 0 (Z.of_nat i)); [|lia].
  now rewrite Nat2Z.id.
Qed.

Lemma item_in_range (l : list node) (z : Z) :
  (0 <= z < Z.of_nat (length l))%Z -> exists s, item l (Num z) = Some s.
Proof.
  intros Hz. unfold item. destruct (Z.leb_spec 0 z); [|lia].
  apply lookup_lt_is_Some_2. lia.
Qed.

Lemma item_out_of_range (l : list node) (z : Z) :
  (z < 0 \/ Z.of_nat (length l) <= z)%Z -> item l (Num z) = None.
Proof.
  intros Hz. unfold item. destruct (Z.leb_spec 0 z); [|reflexivity].
  apply lookup_ge_None. lia.
Qed.

Lemma next_index (z n : Z) :
  (0 <= z < n)%Z ->
  js_rem (js_add (Num z) (Num 1)) (Num n) = Num ((z + 1) mod n).
Proof.
  intros Hz. simpl. destruct (Z.eqb_spec n 0); [lia|].
  now rewrite Z.rem_mod_nonneg by lia.
Qed.

Lemma prev_index (z n : Z) :
  (0 <= z < n)%Z ->
  js_rem (js_add (js_sub (Num z) (Num 1)) (Num n)) (Num n) = Num ((z - 1) mod n).
Proof.
  intros Hz. simpl. destruct (Z.eqb_spec n 0); [lia|].
  rewrite Z.rem_mod_nonneg by lia.
  f_equal. rewrite <- (Z.mod_add (z - 1) 1 n) by lia. f_equal. lia.
Qed.

(** [showSlide] assigns [currentIndex] before anything can throw, and never
    assigns [slides] or [dotsContainer]. *)
Lemma showSlide_fields (idx : jsnum) (w : World) :
  currentIndex (snd (showSlide idx w)) = idx /\
  slides (snd (showSlide idx w)) = slides w /\
  dotsContainer (snd (showSlide idx w)) = dotsContainer w.
Proof.
  destruct (item (slides w) idx) as [s|] eqn:Hs.
  - destruct (dotsContainer w) as [c|] eqn:Hc.
    + rewrite (showSlide_ok idx s c w Hs Hc). simpl. auto.
    + rewrite (showSlide_null idx s w Hs Hc). simpl. auto.
  - rewrite (showSlide_undefined idx w Hs). simpl. auto.
Qed.

Lemma showSlide_returns (w : World) (z : Z) :
  (0 <= z < Z.of_nat (length (slides w)))%Z ->
  dotsContainer w <> None ->
  fst (showSlide (Num z) w) = Ok tt.
Proof.
  intros Hz Hc. destruct (item_in_range _ _ Hz) as [s Hs].
  destruct (dotsContainer w) as [c|] eqn:Ec; [|contradiction].
  now rewrite (showSlide_ok (Num z) s c w Hs Ec).
Qed.

Lemma call_returns (m : M unit) (w : World) :
  fst (m w) = Ok tt -> m w = (Ok tt, snd (m w)).
Proof. destruct (m w) as [r w']. simpl. now intros ->. Qed.

Lemma nextSlide_index (w : World) (z : Z) :
  let n := Z.of_nat (length (slides w)) in
  (0 <= z < n)%Z ->
  currentIndex w = Num z ->
  currentIndex (snd (nextSlide w)) = Num ((z + 1) mod n) /\
  slides (snd (nextSlide w)) = slides w /\
  dotsContainer (snd (nextSlide w)) = dotsContainer w /\
  (dotsContainer w <> None -> fst (nextSlide w) = Ok tt).
Proof.
  intros n Hz Hi. unfold nextSlide, bind, gets. rewrite Hi.
  unfold length_num. fold n. rewrite next_index by assumption.
  destruct (showSlide_fields (Num ((z + 1) mod n)) w) as (H1 & H2 & H3).
  repeat split; auto. intros Hc. apply showSlide_returns; [|exact Hc].
  fold n. apply Z.mod_pos_bound. lia.
Qed.

Lemma prevSlide_index (w : World) (z : Z) :
  let n := Z.of_nat (length (slides w)) in
  (0 <= z < n)%Z ->
  currentIndex w = Num z ->
  currentIndex (snd (prevSlide w)) = Num ((z - 1) mod n) /\
  slides (snd (prevSlide w)) = slides w /\
  dotsContainer (snd (prevSlide w)) = dotsContainer w /\
  (dotsContainer w <> None -> fst (prevSlide w) = Ok tt).
Proof.
  intros n Hz Hi. unfold prevSlide, bind, gets. rewrite Hi.
  unfold length_num. fold n. rewrite prev_index by assumption.
  destruct (showSlide_fields (Num ((z - 1) mod n)) w) as (H1 & H2 & H3).
  repeat split; auto. intros Hc. apply showSlide_returns; [|exact Hc].
  fold n. apply Z.mod_pos_bound. lia.
Qed.

Lemma after_calls_nextSlide (k : nat) (w : World) (z : Z) :
  let n := Z.of_nat (length (slides w)) in
  (0 <= z < n)%Z ->
  currentIndex w = Num z ->
  currentIndex (after_calls k nextSlide w) = Num ((z + Z.of_nat k) mod n) /\
  (dotsContainer w <> None ->
   repeat_call k nextSlide w = (Ok tt, after_calls k nextSlide w)).
Proof.
  revert w z. induction k as [|k IH]; intros w z n Hz Hi.
  - simpl. split; [|reflexivity].
    rewrite Z.add_0_r, Z.mod_small by assumption. exact Hi.
  - destruct (nextSlide_index w z Hz Hi) as (I1 & S1 & C1 & R1). fold n in I1.
    destruct (IH (snd (nextSlide w)) ((z + 1) mod n)%Z) as (I2 & R2).
    + rewrite S1. apply Z.mod_pos_bound. lia.
    + exact I1.
    + simpl. split.
      * rewrite I2, S1. fold n. rewrite Zplus_mod_idemp_l. f_equal. f_equal. lia.
      * intros Hc. unfold bind. rewrite (call_returns nextSlide w (R1 Hc)).
        apply R2. now rewrite C1.
Qed.

Lemma after_calls_prevSlide (k : nat) (w : World) (z : Z) :
  let n := Z.of_nat (length (slides w)) in
  (0 <= z < n)%Z ->
  currentIndex w = Num z ->
  currentIndex (after_calls k prevSlide w) = Num ((z - Z.of_nat k) mod n) /\
  (dotsContainer w <> None ->
   repeat_call k prevSlide w = (Ok tt, after_calls k prevSlide w)).
Proof.
  revert w z. induction k as [|k IH]; intros w z n Hz Hi.
  - simpl. split; [|reflexivity].
    rewrite Z.sub_0_r, Z.mod_small by assumption. exact Hi.
  - destruct (prevSlide_index w z Hz Hi) as (I1 & S1 & C1 & R1). fold n in I1.
    destruct (IH (snd (prevSlide w)) ((z - 1) mod n)%Z) as (I2 & R2).
    + rewrite S1. apply Z.mod_pos_bound. lia.
    + exact I1.
    + simpl. split.
      * rewrite I2, S1. fold n. rewrite Zminus_mod_idemp_l. f_equal. f_equal. lia.
      * intros Hc. unfold bind. rewrite (call_returns prevSlide w (R1 Hc)).
        apply R2. now rewrite C1.
Qed.

(** ** The invariant under the three operations *)

Lemma well_formed_container (w : World) :
  well_formed w -> slides w <> [] -> exists c, dotsContainer w = Some c.
Proof.
  intros (_ & _ & Hlen) Hne. unfold dots in Hlen.
  destruct (dotsContainer w) as [c|]; [now exists c|].
  destruct (slides w); [contradiction | simpl in Hlen; lia].
Qed.

Lemma exactly_active_bound (w : World) (i : nat) :
  exactly_active w i -> i < length (slides w).
Proof. intros (_ & H & _). eapply active_positions_bound, H. Qed.

Lemma showSlide_invariant (w : World) (i : nat) :
  well_formed w ->
  i < length (slides w) ->
  exists w', showSlide (Num (Z.of_nat i)) w = (Ok tt, w') /\
             well_formed w' /\ exactly_active w' i.
Proof.
  intros Hwf Hi.
  destruct (well_formed_container w Hwf) as [c Hc].
  { intros E. rewrite E in Hi. simpl in Hi. lia. }
  destruct (lookup_lt_is_Some_2 _ _ Hi) as [s Hs].
  exists (shown (Num (Z.of_nat i)) s c w). split.
  - apply showSlide_ok; [now rewrite item_nat | exact Hc].
  - now apply shown_exactly.
Qed.

Lemma nextSlide_invariant (w : World) :
  invariant w -> exists w', nextSlide w = (Ok tt, w') /\ invariant w'.
Proof.
  intros (Hwf & j & Hj). pose proof (exactly_active_bound w j Hj) as Hb.
  destruct Hj as (Hi & _).
  unfold nextSlide, bind, gets. rewrite Hi. unfold length_num.
  rewrite next_index by lia.
  replace ((Z.of_nat j + 1) mod Z.of_nat (length (slides w)))%Z
    with (Z.of_nat ((j + 1) mod length (slides w)))
    by (rewrite Nat2Z.inj_mod; f_equal; lia).
  destruct (showSlide_invariant w ((j + 1) mod length (slides w)) Hwf)
    as (w' & E & Hwf' & Hact).
  { apply Nat.mod_upper_bound. lia. }
  exists w'. split; [exact E|]. split; [exact Hwf' | eauto].
Qed.

Lemma prevSlide_invariant (w : World) :
  invariant w -> exists w', prevSlide w = (Ok tt, w') /\ invariant w'.
Proof.
  intros (Hwf & j & Hj). pose proof (exactly_active_bound w j Hj) as Hb.
  destruct Hj as (Hi & _).
  unfold prevSlide, bind, gets. rewrite Hi. unfold length_num.
  rewrite prev_index by lia.
  set (n := length (slides w)) in *.
  replace ((Z.of_nat j - 1) mod Z.of_nat n)%Z
    with (Z.of_nat ((j + n - 1) mod n)).
  - destruct (showSlide_invariant w ((j + n - 1) mod n) Hwf) as (w' & E & Hwf' & Hact).
    { apply Nat.mod_upper_bound. lia. }
    exists w'. split; [exact E|]. split; [exact Hwf' | eauto].
  - rewrite Nat2Z.inj_mod.
    rewrite <- (Z.mod_add (Z.of_nat j - 1) 1 (Z.of_nat n)) by lia.
    f_equal. lia.
Qed.

(** C2.  On a well-formed deck (live, pairwise distinct handles, an indicator
    for every slide) [showSlide(i)] for a valid [i] completes and leaves exactly one
    slide and exactly one indicator active, both at position [i], with
    [currentIndex = i]; and this condition is an invariant: [showSlide] at a
    valid index, [nextSlide] and [prevSlide] all complete and preserve it. *)
Theorem showSlide_exactly_one_active (w : World) (i : nat) :
  well_formed w ->
  i < length (slides w) ->
  (exists w', showSlide (Num (Z.of_nat i)) w = (Ok tt, w') /\
              exactly_active w' i /\ invariant w') /\
  (invariant w ->
   (exists w', nextSlide w = (Ok tt, w') /\ invariant w') /\
   (exists w', prevSlide w = (Ok tt, w') /\ invariant w')).
Proof.
  intros Hwf Hi. split.
  - destruct (showSlide_invariant w i Hwf Hi) as (w' & E & Hwf' & Hact).
    exists w'. split; [exact E|]. split; [exact Hact|]. split; [exact Hwf' | eauto].
  - intros Hinv. split; [now apply nextSlide_invariant | now apply prevSlide_invariant].
Qed.

(** C1.  With at least one slide, [k] calls of [nextSlide] from index 0
    leave [currentIndex = k mod N] and [k] calls of [prevSlide] leave
    [(-k) mod N]; both values lie in [0, N-1].  With three slides, three calls
    of [nextSlide] visit 1, 2, 0.  When the indicator container is present,
    none of the calls throws. *)
Theorem next_prev_index_modulo (w : World) (k : nat) :
  slides w <> [] ->
  currentIndex w = Num 0 ->
  let n := Z.of_nat (length (slides w)) in
  currentIndex (after_calls k nextSlide w) = Num (Z.of_nat k mod n) /\
  currentIndex (after_calls k prevSlide w) = Num ((- Z.of_nat k) mod n) /\
  (0 <= Z.of_nat k mod n < n)%Z /\
  (0 <= (- Z.of_nat k) mod n < n)%Z /\
  (length (slides w) = 3 -> visited 3 nextSlide w = [Num 1; Num 2; Num 0]) /\
  (dotsContainer w <> None ->
   repeat_call k nextSlide w = (Ok tt, after_calls k nextSlide w) /\
   repeat_call k prevSlide w = (Ok tt, after_calls k prevSlide w)).
Proof.
  intros Hne Hi n.
  assert (0 < n)%Z as Hn by (unfold n; destruct (slides w); [contradiction | simpl; lia]).
  destruct (after_calls_nextSlide k w 0) as (In & Rn); [fold n; lia | exact Hi |].
  destruct (after_calls_prevSlide k w 0) as (Ip & Rp); [fold n; lia | exact Hi |].
  fold n in In, Ip.
  split; [now rewrite In|]. split; [now rewrite Ip|].
  split; [apply Z.mod_pos_bound; exact Hn|].
  split; [apply Z.mod_pos_bound; exact Hn|].
  split; [|intros Hc; split; [now apply Rn | now apply Rp]].
  intros H3.
  destruct (nextSlide_index w 0) as (I1 & S1 & _); [fold n; lia | exact Hi |].
  destruct (nextSlide_index (snd (nextSlide w)) 1) as (I2 & S2 & _);
    [rewrite S1; lia | rewrite I1, H3; reflexivity |].
  destruct (nextSlide_index (snd (nextSlide (snd (nextSlide w)))) 2) as (I3 & _);
    [rewrite S2, S1; lia | rewrite I2, S1, H3; reflexivity |].
  simpl. rewrite I1, I2, I3, S2, S1, H3. reflexivity.
Qed.

(** C6.  With at least one slide, [nextSlide] at [currentIndex = N-1] goes to
    index 0 and [prevSlide] at [currentIndex = 0] goes to index [N-1]; with
    the indicator container present, neither throws. *)
Theorem wraparound_at_both_ends (w : World) :
  slides w <> [] ->
  let n := Z.of_nat (length (slides w)) in
  (currentIndex w = Num (n - 1) ->
   currentIndex (snd (nextSlide w)) = Num 0 /\
   (dotsContainer w <> None -> fst (nextSlide w) = Ok tt)) /\
  (currentIndex w = Num 0 ->
   currentIndex (snd (prevSlide w)) = Num (n - 1) /\
   (dotsContainer w <> None -> fst (prevSlide w) = Ok tt)).
Proof.
  intros Hne n.
  assert (0 < n)%Z as Hn by (unfold n; destruct (slides w); [contradiction | simpl; lia]).
  split; intros Hi.
  - destruct (nextSlide_index w (n - 1)) as (I & _ & _ & R); [fold n; lia | exact Hi |].
    split; [|exact R]. rewrite I. fold n.
    replace (n - 1 + 1)%Z with n by lia. now rewrite Z.mod_same by lia.
  - destruct (prevSlide_index w 0) as (I & _ & _ & R); [fold n; lia | exact Hi |].
    split; [|exact R]. rewrite I. fold n.
    rewrite <- (Z.mod_add (0 - 1) 1 n) by lia.
    rewrite Z.mod_small by lia. f_equal. lia.
Qed.

(** C9.  With at least one slide and a valid [currentIndex], [prevSlide] right
    after [nextSlide] restores [currentIndex], and so does [nextSlide] right
    after [prevSlide]; with the indicator container present, no call
    throws. *)
Theorem next_prev_round_trip (w : World) (z : Z) :
  (0 <= z < Z.of_nat (length (slides w)))%Z ->
  currentIndex w = Num z ->
  currentIndex (snd (prevSlide (snd (nextSlide w)))) = Num z /\
  currentIndex (snd (nextSlide (snd (prevSlide w)))) = Num z /\
  (dotsContainer w <> None ->
   (nextSlide >> prevSlide) w = (Ok tt, snd (prevSlide (snd (nextSlide w)))) /\
   (prevSlide >> nextSlide) w = (Ok tt, snd (nextSlide (snd (prevSlide w))))).
Proof.
  intros Hz Hi. set (n := Z.of_nat (length (slides w))) in *.
  destruct (nextSlide_index w z Hz Hi) as (I1 & S1 & C1 & R1). fold n in I1.
  destruct (prevSlide_index w z Hz Hi) as (I2 & S2 & C2 & R2). fold n in I2.
  destruct (prevSlide_index (snd (nextSlide w)) ((z + 1) mod n)) as (I3 & _ & _ & R3);
    [rewrite S1; apply Z.mod_pos_bound; lia | exact I1 |].
  destruct (nextSlide_index (snd (prevSlide w)) ((z - 1) mod n)) as (I4 & _ & _ & R4);
    [rewrite S2; apply Z.mod_pos_bound; lia | exact I2 |].
  rewrite S1 in I3. rewrite S2 in I4. fold n in I3, I4.
  split; [|split].
  - rewrite I3, Zminus_mod_idemp_l.
    replace (z + 1 - 1)%Z with z by lia. now rewrite Z.mod_small.
  - rewrite I4, Zplus_mod_idemp_l.
    replace (z - 1 + 1)%Z with z by lia. now rewrite Z.mod_small.
  - intros Hc. unfold bind. split.
    + rewrite (call_returns nextSlide w (R1 Hc)).
      apply call_returns, R3. now rewrite C1.
    + rewrite (call_returns prevSlide w (R2 Hc)).
      apply call_returns, R4. now rewrite C2.
Qed.

(** ** Swipes *)

Lemma ret_is_not_nextSlide : @ret unit tt <> nextSlide.
Proof.
  intros H. apply (f_equal (fun m => fst (m blank))) in H. discriminate H.
Qed.

Lemma ret_is_not_prevSlide : @ret unit tt <> prevSlide.
Proof.
  intros H. apply (f_equal (fun m => fst (m blank))) in H. discriminate H.
Qed.

Lemma handleSwipe_big (startX endX : Z) :
  (50 < Z.abs (startX - endX))%Z ->
  handleSwipe startX endX = if (endX <? startX)%Z then nextSlide else prevSlide.
Proof.
  intros H. unfold handleSwipe.
  destruct (Z.ltb_spec 50 (Z.abs (startX - endX))); [|lia].
  destruct (Z.ltb_spec 0 (startX - endX)), (Z.ltb_spec endX startX);
    try reflexivity; lia.
Qed.

Lemma handleSwipe_small (startX endX : Z) :
  (Z.abs (startX - endX) <= 50)%Z -> handleSwipe startX endX = ret tt.
Proof.
  intros H. unfold handleSwipe.
  destruct (Z.ltb_spec 50 (Z.abs (startX - endX))); [lia | reflexivity].
Qed.

(** A touch that starts at [e0] and ends at [e] on the slider is the call
    [handleSwipe(e0.screenX, e.screenX)]. *)
Lemma touch_gesture (e0 e : Event) (w : World) :
  (handle OnTouchStart e0 >> handle OnTouchEnd e) w =
  handleSwipe (screenX e0) (screenX e)
    (set_touchEndX (screenX e) (set_touchStartX (screenX e0) w)).
Proof. reflexivity. Qed.

(** C5.  A swipe of magnitude 49 changes nothing; one of magnitude 51 is
    exactly one [nextSlide] call when [start > end] and exactly one
    [prevSlide] call when [start < end]; in general [handleSwipe] is one
    navigation call iff the magnitude exceeds 50, and does nothing
    otherwise. *)
Theorem swipe_threshold (startX endX : Z) :
  (Z.abs (startX - endX) = 49%Z -> handleSwipe startX endX = ret tt) /\
  (Z.abs (startX - endX) = 51%Z -> (startX > endX)%Z ->
   handleSwipe startX endX = nextSlide) /\
  (Z.abs (startX - endX) = 51%Z -> (startX < endX)%Z ->
   handleSwipe startX endX = prevSlide) /\
  ((50 < Z.abs (startX - endX))%Z <->
   handleSwipe startX endX = nextSlide \/ handleSwipe startX endX = prevSlide) /\
  ((50 < Z.abs (startX - endX))%Z ->
   handleSwipe startX endX = if (endX <? startX)%Z then nextSlide else prevSlide) /\
  ((Z.abs (startX - endX) <= 50)%Z -> handleSwipe startX endX = ret tt).
Proof.
  split; [intros H; apply handleSwipe_small; lia|].
  split; [intros H Hd; rewrite handleSwipe_big by lia;
          destruct (Z.ltb_spec endX startX); [reflexivity | lia]|].
  split; [intros H Hd; rewrite handleSwipe_big by lia;
          destruct (Z.ltb_spec endX startX); [lia | reflexivity]|].
  split; [|split; [apply handleSwipe_big | apply handleSwipe_small]].
  split.
  - intros H. rewrite handleSwipe_big by exact H.
    destruct (endX <? startX)%Z; [now left | now right].
  - intros H. destruct (Z.lt_ge_cases 50 (Z.abs (startX - endX))) as [Hb|Hs]; [exact Hb|].
    rewrite handleSwipe_small in H by exact Hs.
    destruct H as [H|H]; [now apply ret_is_not_nextSlide in H
                         | now apply ret_is_not_prevSlide in H].
Qed.

(** ** [showSlide] outside the range *)

(** C10.  With at least one slide, [showSlide(index)] for an integer index
    outside [0, N-1] throws after it has removed [active] from every slide and
    assigned [currentIndex = index], and before it touches any indicator: the
    deck is left with that out-of-range [currentIndex] and no active slide. *)
Theorem showSlide_out_of_range_not_atomic (w : World) (z : Z) :
  slides w <> [] ->
  (z < 0 \/ Z.of_nat (length (slides w)) <= z)%Z ->
  exists w', showSlide (Num z) w = (Throw TypeError, w') /\
             w' = half_shown (Num z) w /\
             currentIndex w' = Num z /\
             slides w' = slides w /\
             active_positions w' (slides w') = [] /\
             (forall d, d ∈ dots w -> d ∉ slides w -> is_active w' d = is_active w d).
Proof.
  intros _ Hz. exists (half_shown (Num z) w).
  split; [apply showSlide_undefined, item_out_of_range, Hz|].
  repeat split.
  - apply active_positions_none. intros m Hm.
    unfold is_active, half_shown; simpl. now apply active_deactivate_in.
  - intros d _ Hd. unfold is_active, half_shown; simpl.
    rewrite active_deactivate.
    destruct (existsb (Nat.eqb d) (slides w)) eqn:E; [|reflexivity].
    apply existsb_eqb_elem_of in E. contradiction.
Qed.

(** ** The auto-rotation timer *)

Lemma startAutoPlay_ok (w : World) :
  startAutoPlay w =
  (Ok tt, set_autoPlayInterval (Some (S (lastTimer w)))
            (set_timers (timers w ++ [(S (lastTimer w), OnTick, 5000)])
               (S (lastTimer w)) w)).
Proof. reflexivity. Qed.

Lemma stopAutoPlay_armed (w : World) (id : nat) :
  autoPlayInterval w = Some (S id) ->
  stopAutoPlay w =
  (Ok tt, set_autoPlayInterval None
            (set_timers (List.filter (fun t => negb (fst (fst t) =? S id)) (timers w))
               (lastTimer w) w)).
Proof. intros H. unfold stopAutoPlay, bind, gets. rewrite H. reflexivity. Qed.

Lemma stopAutoPlay_idle (w : World) :
  autoPlayInterval w = None -> stopAutoPlay w = (Ok tt, w).
Proof. intros H. unfold stopAutoPlay, bind, gets. now rewrite H. Qed.

(** One start followed by one stop leaves the timer it armed cancelled and
    the handle cleared. *)
Lemma start_then_stop (w : World) :
  exists w', (startAutoPlay >> stopAutoPlay) w = (Ok tt, w') /\
             autoPlayInterval w' = None /\
             forall h d, ~ In (S (lastTimer w), h, d) (timers w').
Proof.
  eexists. split; [|split].
  - unfold bind. rewrite startAutoPlay_ok.
    erewrite stopAutoPlay_armed by reflexivity. reflexivity.
  - reflexivity.
  - intros h d Hin. simpl in Hin. apply filter_In in Hin as [_ Hin].
    simpl in Hin. now rewrite Nat.eqb_refl in Hin.
Qed.

(** C7, evaluated on the code.  Two [startAutoPlay] calls in a row arm two
    timers and remember only the second handle; the [stopAutoPlay] that
    follows cancels the second and clears the handle, so the first timer stays
    armed, keeps calling [nextSlide] at each tick, and no later
    [stopAutoPlay] can cancel it. *)
Theorem double_start_leaks_timer (w : World) :
  let id1 := S (lastTimer w) in
  let id2 := S (S (lastTimer w)) in
  exists w2 w3,
    (startAutoPlay >> startAutoPlay) w = (Ok tt, w2) /\
    timers w2 = (timers w ++ [(id1, OnTick, 5000); (id2, OnTick, 5000)])%list /\
    autoPlayInterval w2 = Some id2 /\
    stopAutoPlay w2 = (Ok tt, w3) /\
    autoPlayInterval w3 = None /\
    In (id1, OnTick, 5000) (timers w3) /\
    stopAutoPlay w3 = (Ok tt, w3).
Proof.
  intros id1 id2. eexists. eexists.
  split; [unfold bind; rewrite !startAutoPlay_ok; reflexivity|].
  split; [simpl; now rewrite <- app_assoc|].
  split; [reflexivity|].
  split; [erewrite stopAutoPlay_armed by reflexivity; reflexivity|].
  split; [reflexivity|].
  split; [|now apply stopAutoPlay_idle].
  simpl. apply filter_In. split.
  - apply in_or_app. left. apply in_or_app. right. now left.
  - simpl. apply negb_true_iff, Nat.eqb_neq. lia.
Qed.

(** ** Construction *)

Lemma set_listeners_id w : set_listeners (listeners w) w = w.
Proof. now destruct w. Qed.

Lemma with_dots_0 (c : node) (els : list Element) : with_dots c 0 els = els.
Proof.
  unfold with_dots. simpl. rewrite app_nil_r.
  apply list_alter_id. intros [t cl ch]. unfold with_childNodes; simpl.
  now rewrite app_nil_r.
Qed.

Lemma with_dots_S (c : node) (m : nat) (els : list Element) :
  c < length els ->
  with_dots c m
    (alter (fun e => with_childNodes (childNodes e ++ [length els]) e) c
       (upd (token_add "slider-dot") (length els)
          (els ++ [mkElement "span" [] []]))) =
  with_dots c (S m) els.
Proof.
  intros Hc. unfold upd.
  rewrite <- (Nat.add_0_r (length els)) at 1. rewrite alter_app_r. simpl.
  change (with_classList (token_add "slider-dot" []) (mkElement "span" [] []))
    with dot_element.
  rewrite alter_app_l by exact Hc. unfold with_dots.
  rewrite length_app, length_alter. simpl. rewrite Nat.add_1_r.
  rewrite alter_app_l by (now rewrite length_alter).
  rewrite list_alter_alter_eq, <- app_assoc. simpl. f_equal.
  apply list_alter_ext; [|reflexivity].
  intros [t cl ch] _. unfold with_childNodes; simpl. now rewrite <- app_assoc.
Qed.

Lemma dot_listeners_S (base k m : nat) :
  dot_listeners base k (S m) =
  (El base, "click", OnDotClick k) :: dot_listeners (S base) (S k) m.
Proof.
  unfold dot_listeners. simpl. rewrite !Nat.add_0_r. f_equal.
  rewrite <- seq_shift, map_map. apply map_ext. intros j.
  now rewrite !Nat.add_succ_r.
Qed.

Lemma createDots_loop (l : list node) (k : nat) (c : node) (w : World)
    (f : node -> nat -> M unit) :
  (forall x i w0, dotsContainer w0 = Some c ->
     f x i w0 =
     (Ok tt,
      set_listeners (listeners w0 ++ [(El (length (elements w0)), "click", OnDotClick i)])
        (set_elements
           (alter (fun e => with_childNodes (childNodes e ++ [length (elements w0)]) e) c
              (upd (token_add "slider-dot") (length (elements w0))
                 (elements w0 ++ [mkElement "span" [] []]))) w0))) ->
  dotsContainer w = Some c ->
  c < length (elements w) ->
  forEach_from k l f w = (Ok tt, dotted c k (length l) w).
Proof.
  intros Hf. revert k w. induction l as [|x l IH]; intros k w Hc Hv; simpl.
  - unfold ret, dotted, dot_listeners. simpl.
    now rewrite with_dots_0, app_nil_r, set_elements_id, set_listeners_id.
  - unfold bind. rewrite Hf by exact Hc. rewrite IH.
    + unfold dotted. simpl. rewrite with_dots_S by exact Hv.
      rewrite length_alter, length_upd, length_app. simpl.
      rewrite Nat.add_1_r, dot_listeners_S, <- app_assoc. reflexivity.
    + exact Hc.
    + simpl. rewrite length_alter, length_upd, length_app. lia.
Qed.

Lemma createDots_ok (c : node) (w : World) :
  dotsContainer w = Some c ->
  c < length (elements w) ->
  createDots w = (Ok tt, dotted c 0 (length (slides w)) w).
Proof.
  intros Hc Hv. unfold createDots, bind at 1, gets at 1, forEach.
  apply createDots_loop; [|exact Hc|exact Hv].
  intros x i w0 Hc0. unfold bind, gets, createElement; simpl.
  now rewrite Hc0.
Qed.

Lemma createDots_null (n : node) (l : list node) (w : World) :
  slides w = n :: l ->
  dotsContainer w = None ->
  createDots w =
  (Throw TypeError,
   set_listeners (listeners w ++ [(El (length (elements w)), "click", OnDotClick 0)])
     (set_elements
        (upd (token_add "slider-dot") (length (elements w))
           (elements w ++ [mkElement "span" [] []])) w)).
Proof.
  intros Hs Hc. unfold createDots, bind at 1, gets at 1, forEach. rewrite Hs.
  simpl. unfold bind, gets, createElement; simpl. now rewrite Hc.
Qed.

Lemma document_querySelectorAll_spec (cls : string) (page : list Element) (n : node) :
  In n (document_querySelectorAll cls page) <->
  n < length page /\ has_class page cls n = true.
Proof.
  unfold document_querySelectorAll. rewrite filter_In, in_seq. intuition lia.
Qed.

Lemma NoDup_list_filter {A : Type} (f : A -> bool) (l : list A) :
  NoDup l -> NoDup (List.filter f l).
Proof.
  induction l as [|a l IH]; intros H; simpl; [constructor|].
  apply NoDup_cons in H as [Ha H].
  destruct (f a); [|now apply IH].
  apply NoDup_cons. split; [|now apply IH].
  intros Hin. apply Ha. apply list_elem_of_In in Hin.
  apply filter_In in Hin as [Hin _]. now apply list_elem_of_In.
Qed.

Lemma document_querySelectorAll_NoDup (cls : string) (page : list Element) :
  NoDup (document_querySelectorAll cls page).
Proof. unfold document_querySelectorAll. apply NoDup_list_filter, NoDup_seq. Qed.

Lemma document_querySelector_spec (cls : string) (page : list Element) (n : node) :
  document_querySelector cls page = Some n ->
  n < length page /\ has_class page cls n = true.
Proof.
  unfold document_querySelector. intros H.
  apply document_querySelectorAll_spec.
  destruct (document_querySelectorAll cls page); [discriminate|].
  injection H as ->. now left.
Qed.

Lemma length_with_dots (c : node) (m : nat) (els : list Element) :
  length (with_dots c m els) = length els + m.
Proof. unfold with_dots. now rewrite length_app, length_alter, length_replicate. Qed.

Lemma children_with_dots (c : node) (m : nat) (els : list Element) :
  c < length els ->
  children (with_dots c m els) c = (children els c ++ seq (length els) m)%list.
Proof.
  intros Hc. unfold children, with_dots.
  rewrite lookup_app_l by (now rewrite length_alter).
  rewrite list_lookup_alter_eq.
  destruct (lookup_lt_is_Some_2 els c Hc) as [e He]. now rewrite He.
Qed.

Lemma classes_with_dots_old (c : node) (m : nat) (els : list Element) (n : node) :
  n < length els -> classes (with_dots c m els) n = classes els n.
Proof.
  intros Hn. unfold classes, with_dots.
  rewrite lookup_app_l by (now rewrite length_alter).
  rewrite list_lookup_alter. case_decide; [subst|reflexivity].
  now destruct (els !! n).
Qed.

Lemma classes_with_dots_new (c : node) (m : nat) (els : list Element) (j : nat) :
  j < m -> classes (with_dots c m els) (length els + j) = ["slider-dot"].
Proof.
  intros Hj. unfold classes, with_dots.
  rewrite lookup_app_r by (rewrite length_alter; lia).
  rewrite length_alter. replace (length els + j - length els) with j by lia.
  now rewrite lookup_replicate_2.
Qed.

Lemma filter_all {A : Type} (f : A -> bool) (l : list A) :
  (forall x, In x l -> f x = true) -> List.filter f l = l.
Proof.
  induction l as [|a l IH]; intros H; simpl; [reflexivity|].
  rewrite (H a) by now left. f_equal. apply IH. intros x Hx. apply H. now right.
Qed.

Lemma filter_none {A : Type} (f : A -> bool) (l : list A) :
  (forall x, In x l -> f x = false) -> List.filter f l = [].
Proof.
  induction l as [|a l IH]; intros H; simpl; [reflexivity|].
  rewrite (H a) by now left. apply IH. intros x Hx. apply H. now right.
Qed.

Lemma children_with_dots_other (c : node) (m : nat) (els : list Element) (p : node) :
  p <> c -> children (with_dots c m els) p = children els p.
Proof.
  intros Hp. unfold children, with_dots.
  destruct (Nat.lt_ge_cases p (length els)) as [H|H].
  - rewrite lookup_app_l by (now rewrite length_alter).
    now rewrite list_lookup_alter_ne by auto.
  - rewrite lookup_app_r by (now rewrite length_alter). rewrite length_alter.
    rewrite (proj2 (lookup_ge_None els p) H).
    destruct (replicate m dot_element !! (p - length els)) as [e|] eqn:E; [|reflexivity].
    apply lookup_replicate in E as [-> _]. reflexivity.
Qed.

Lemma descendants_upto_with_dots_above (c : node) (m : nat) (els : list Element)
    (f : nat) (x : node) :
  document_order els = true -> c < x ->
  descendants_upto f (with_dots c m els) x = descendants_upto f els x.
Proof.
  intros Ho. revert x. induction f as [|f IH]; intros x Hx; cbn [descendants_upto];
    [reflexivity|].
  rewrite children_with_dots_other by lia.
  apply flat_map_ext_In. intros ch Hch. f_equal. apply IH.
  pose proof (document_order_spec els x ch Ho Hch). lia.
Qed.

(** The new indicators come after everything the container held, at any
    depth. *)
Lemma descendants_with_dots (c : node) (m : nat) (els : list Element) :
  document_order els = true -> c < length els ->
  descendants (with_dots c m els) c = (descendants els c ++ seq (length els) m)%list.
Proof.
  intros Ho Hc. unfold descendants. rewrite length_with_dots.
  destruct (length els + m) as [|f] eqn:Ef; [lia|].
  cbn [descendants_upto]. rewrite children_with_dots by exact Hc.
  rewrite flat_map_app. f_equal.
  - rewrite (descendants_upto_enough els (length els) (S f)) by (auto; lia).
    cbn [descendants_upto]. apply flat_map_ext_In. intros ch Hch. f_equal.
    apply descendants_upto_with_dots_above; [exact Ho|].
    pose proof (document_order_spec els c ch Ho Hch). lia.
  - apply flat_map_leaves. intros d Hd. apply in_seq in Hd.
    apply descendants_upto_leaf. rewrite children_with_dots_other by lia.
    apply children_dangling. lia.
Qed.

Lemma dots_dotted (c : node) (k : nat) (w : World) :
  dotsContainer w = Some c ->
  c < length (elements w) ->
  document_order (elements w) = true ->
  dots (dotted c k (length (slides w)) w) =
  (dots w ++ seq (length (elements w)) (length (slides w)))%list.
Proof.
  intros Hc Hv Ho. unfold dots, dotted.
  cbn [dotsContainer elements set_listeners set_elements]. rewrite Hc.
  rewrite descendants_with_dots by assumption. rewrite List.filter_app. f_equal.
  - apply List.filter_ext_in. intros x Hx.
    apply descendants_upto_bound in Hx; [|exact Ho].
    unfold has_class. now rewrite classes_with_dots_old by lia.
  - apply filter_all. intros x Hx. apply in_seq in Hx. unfold has_class.
    replace x with (length (elements w) + (x - length (elements w))) by lia.
    rewrite classes_with_dots_new by lia. reflexivity.
Qed.

Lemma no_indicator_yet_dots (c : node) (w : World) :
  dotsContainer w = Some c -> no_indicator_yet (elements w) c -> dots w = [].
Proof.
  intros Hc Hno. unfold dots. rewrite Hc. apply filter_none.
  intros x Hx. unfold no_indicator_yet in Hno. rewrite Forall_forall in Hno.
  apply Hno. now apply list_elem_of_In.
Qed.

Lemma well_formed_dotted (c : node) (k : nat) (w : World) :
  dotsContainer w = Some c ->
  c < length (elements w) ->
  document_order (elements w) = true ->
  NoDup (slides w ++ dots w) ->
  Forall (fun n => n < length (elements w)) (slides w) ->
  well_formed (dotted c k (length (slides w)) w).
Proof.
  intros Hc Hv Ho Hnd Hsv. unfold well_formed.
  rewrite dots_dotted by assumption.
  cbn [dotted slides elements set_listeners set_elements].
  rewrite length_with_dots.
  assert (Forall (fun n => n < length (elements w)) (slides w ++ dots w)) as Hlive.
  { apply Forall_app. split; [exact Hsv|]. apply Forall_forall. intros x Hx.
    unfold dots in Hx. rewrite Hc in Hx. apply list_elem_of_In, filter_In in Hx as [Hx _].
    apply descendants_upto_bound in Hx; [lia | exact Ho]. }
  rewrite Forall_forall in Hlive. rewrite app_assoc. repeat split.
  - apply NoDup_app. repeat split; [exact Hnd | | apply NoDup_seq].
    intros x Hx Hin. apply Hlive in Hx. apply elem_of_seq in Hin. lia.
  - apply Forall_app. split; apply Forall_forall; intros x Hx.
    + apply Hlive in Hx. lia.
    + apply elem_of_seq in Hx. lia.
  - rewrite length_app, length_seq. lia.
Qed.

Lemma init_ok (n : node) (l : list node) (s c : node) (w : World) :
  slides w = n :: l ->
  dotsContainer w = Some c ->
  c < length (elements w) ->
  slider w = Some s ->
  init w = (Ok tt, wired s (shown (Num 0) n c (dotted c 0 (length (slides w)) w))).
Proof.
  intros Hs Hc Hv Hsl. unfold init, bind at 1.
  rewrite (createDots_ok c w Hc Hv).
  unfold bind at 1. rewrite (showSlide_ok (Num 0) n c).
  - unfold bind, gets, modify, wired, when_present, addEventListener, modify; simpl.
    destruct (prevBtn w) as [pb|] eqn:Ep, (nextBtn w) as [nb|] eqn:En;
      simpl; rewrite ?En; simpl; rewrite Hsl; simpl;
      repeat rewrite <- app_assoc; reflexivity.
  - simpl. now rewrite Hs.
  - exact Hc.
Qed.

Lemma constructor_runs_init (page : list Element) (s : node) :
  document_querySelector "gallery-slider" page = Some s ->
  document_querySelectorAll "gallery-slide" page <> [] ->
  constructor page = init (new_object page).
Proof.
  intros Hs Hne. unfold constructor. simpl. rewrite Hs. simpl.
  destruct (document_querySelectorAll "gallery-slide" page); [contradiction|].
  reflexivity.
Qed.

(** ** Who listens where *)

Lemma dot_listeners_old (base k m d : nat) (ty : string) :
  d < base -> List.filter (listens (El d) ty) (dot_listeners base k m) = [].
Proof.
  intros Hd. apply filter_none. intros x Hx.
  unfold dot_listeners in Hx. apply in_map_iff in Hx as (j & <- & _).
  unfold listens; simpl. destruct (Nat.eqb_spec (base + j) d); [lia | reflexivity].
Qed.

Lemma dot_listeners_new (m base k i : nat) :
  i < m ->
  map snd (List.filter (listens (El (base + i)) "click") (dot_listeners base k m)) =
  [OnDotClick (k + i)].
Proof.
  revert base k i. induction m as [|m IH]; intros base k i Hi; [lia|].
  rewrite dot_listeners_S. simpl. unfold listens at 1; simpl.
  destruct i as [|i].
  - rewrite Nat.add_0_r, Nat.eqb_refl; simpl.
    rewrite dot_listeners_old by lia. now rewrite Nat.add_0_r.
  - destruct (Nat.eqb_spec base (base + S i)); [lia|]. simpl.
    replace (base + S i) with (S base + i) by lia.
    replace (k + S i) with (S k + i) by lia.
    apply IH. lia.
Qed.

Lemma button_listener_old (b : option node) (h : handler) (d : nat) (ty : string) :
  (forall n, b = Some n -> n <> d) ->
  List.filter (listens (El d) ty) (button_listener b h) = [].
Proof.
  intros H. destruct b as [n|]; [|reflexivity]. simpl. unfold listens; simpl.
  destruct (Nat.eqb_spec n d) as [E|]; [|reflexivity]. now apply (H n) in E.
Qed.

Lemma run_single_listener (h : handler) (e : Event) (w : World) :
  run_listeners [h] e w = as_event (handle h e) w.
Proof.
  unfold as_event. simpl. destruct (handle h e w) as [[a|x] w']; reflexivity.
Qed.

(** ** The world construction leaves *)

Lemma constructor_built (page : list Element) (s c n0 : node) (l : list node) :
  document_querySelector "gallery-slider" page = Some s ->
  document_querySelector "slider-dots" page = Some c ->
  document_querySelectorAll "gallery-slide" page = n0 :: l ->
  constructor page = (Ok tt, built page s c n0).
Proof.
  intros Hs Hc Hsl.
  pose proof (document_querySelector_spec _ _ _ Hc) as [Hcv _].
  rewrite (constructor_runs_init page s Hs) by (rewrite Hsl; discriminate).
  unfold built. now apply (init_ok n0 l).
Qed.

Lemma listeners_built (page : list Element) (s c n0 : node) :
  listeners (built page s c n0) =
  (dot_listeners (length page) 0 (length (document_querySelectorAll "gallery-slide" page))
   ++ button_listener (document_querySelector "slider-btn-prev" page) OnPrevClick
   ++ button_listener (document_querySelector "slider-btn-next" page) OnNextClick
   ++ [(Doc, "keydown", OnKeydown);
       (El s, "touchstart", OnTouchStart);
       (El s, "touchend", OnTouchEnd)])%list.
Proof. reflexivity. Qed.

Lemma dot_listeners_not_click (base k m : nat) (t : target) (ty : string) :
  String.eqb "click" ty = false ->
  List.filter (listens t ty) (dot_listeners base k m) = [].
Proof.
  intros Hty. apply filter_none. intros x Hx.
  unfold dot_listeners in Hx. apply in_map_iff in Hx as (j & <- & _).
  unfold listens. cbn [fst snd]. rewrite Hty. apply andb_false_r.
Qed.

Lemma button_listener_not_click (b : option node) (h : handler) (t : target) (ty : string) :
  String.eqb "click" ty = false ->
  List.filter (listens t ty) (button_listener b h) = [].
Proof.
  intros Hty. destruct b as [n|]; [|reflexivity].
  cbn [button_listener List.filter]. unfold listens. cbn [fst snd].
  rewrite Hty. now rewrite andb_false_r.
Qed.

Lemma button_listener_same (n : node) (h : handler) :
  List.filter (listens (El n) "click") (button_listener (Some n) h) = [(El n, "click", h)].
Proof.
  cbn [button_listener List.filter]. unfold listens. cbn [fst snd target_eqb].
  now rewrite Nat.eqb_refl.
Qed.

Lemma fixed_listeners_not_click (s : node) (t : target) :
  List.filter (listens t "click")
    [(Doc, "keydown", OnKeydown);
     (El s, "touchstart", OnTouchStart);
     (El s, "touchend", OnTouchEnd)] = [].
Proof.
  apply filter_none. intros x [<-|[<-|[<-|[]]]]; unfold listens; cbn [fst snd];
    apply andb_false_r.
Qed.

Lemma listeners_for_button (page : list Element) (s c n0 b : node) :
  b < length page ->
  listeners_for (El b) "click" (built page s c n0) =
  (map snd (List.filter (listens (El b) "click")
              (button_listener (document_querySelector "slider-btn-prev" page) OnPrevClick))
   ++ map snd (List.filter (listens (El b) "click")
                 (button_listener (document_querySelector "slider-btn-next" page) OnNextClick)))%list.
Proof.
  intros Hb. unfold listeners_for. rewrite listeners_built.
  rewrite !List.filter_app, !map_app, dot_listeners_old by exact Hb.
  rewrite (fixed_listeners_not_click s (El b)). cbn [map app].
  now rewrite app_nil_r.
Qed.

Lemma built_elements_same (page : list Element) (s c n0 : node) :
  same_but_active
    (with_dots c (length (document_querySelectorAll "gallery-slide" page)) page)
    (elements (built page s c n0)).
Proof.
  exact (shown_same (Num 0) n0 c
           (dotted c 0 (length (document_querySelectorAll "gallery-slide" page))
              (new_object page))).
Qed.

Lemma children_built (page : list Element) (s c n0 p : node) :
  c < length page ->
  children (elements (built page s c n0)) p =
  (children page p ++
   if p =? c then seq (length page) (length (document_querySelectorAll "gallery-slide" page))
   else [])%list.
Proof.
  intros Hc. destruct (built_elements_same page s c n0) as (_ & -> & _).
  destruct (Nat.eqb_spec p c) as [->|Hne].
  - now apply children_with_dots.
  - rewrite app_nil_r. now apply children_with_dots_other.
Qed.

Lemma existsb_children_built (page : list Element) (s c n0 p x : node) :
  c < length page -> x < length page ->
  existsb (Nat.eqb x) (children (elements (built page s c n0)) p) =
  existsb (Nat.eqb x) (children page p).
Proof.
  intros Hc Hx. rewrite children_built, existsb_app by exact Hc.
  destruct (p =? c); [|apply orb_false_r].
  replace (existsb _ (seq _ _)) with false; [apply orb_false_r|].
  symmetry. apply not_true_is_false. intros H.
  apply existsb_exists in H as (y & Hy & E). apply in_seq in Hy.
  apply Nat.eqb_eq in E. lia.
Qed.

(** Construction leaves the ancestors of the page's elements as they were. *)
Lemma ancestors_built_old (page : list Element) (s c n0 n : node) :
  c < length page -> n < length page ->
  ancestors (elements (built page s c n0)) n = ancestors page n.
Proof.
  intros Hc Hn. unfold ancestors. apply ancestors_upto_ext.
  intros x p Hx. apply existsb_children_built; [exact Hc | lia].
Qed.

Lemma ancestors_unfold (els : list Element) (n p : node) :
  parentNode els n = Some p -> ancestors els n = p :: ancestors els p.
Proof.
  intros H. pose proof (parentNode_Some els n p H) as [Hp _].
  unfold ancestors. destruct n as [|f]; [lia|].
  cbn [ancestors_upto]. rewrite H. f_equal. apply ancestors_upto_enough; lia.
Qed.

(** The parent of a new indicator is the container. *)
Lemma parentNode_built_new (page : list Element) (s c n0 : node) (i : nat) :
  document_order page = true ->
  c < length page ->
  i < length (document_querySelectorAll "gallery-slide" page) ->
  parentNode (elements (built page s c n0)) (length page + i) = Some c.
Proof.
  intros Ho Hc Hi. unfold parentNode.
  rewrite (List.filter_ext_in _ (fun p => p =? c)).
  - rewrite filter_eqb_seq.
    destruct (Nat.leb_spec 0 c), (Nat.ltb_spec c (0 + (length page + i)));
      try reflexivity; lia.
  - intros p _. rewrite children_built, existsb_app by exact Hc.
    replace (existsb (Nat.eqb (length page + i)) (children page p)) with false.
    + cbn [orb]. destruct (Nat.eqb_spec p c); [|reflexivity].
      apply existsb_exists. exists (length page + i).
      split; [apply in_seq; lia | apply Nat.eqb_refl].
    + symmetry. apply not_true_is_false. intros H.
      apply existsb_exists in H as (y & Hy & E). apply Nat.eqb_eq in E. subst y.
      apply (document_order_spec page p _ Ho) in Hy. lia.
Qed.

Lemma ancestors_built_new (page : list Element) (s c n0 : node) (i : nat) :
  document_order page = true ->
  c < length page ->
  i < length (document_querySelectorAll "gallery-slide" page) ->
  ancestors (elements (built page s c n0)) (length page + i) = c :: ancestors page c.
Proof.
  intros Ho Hc Hi.
  rewrite (ancestors_unfold _ _ c) by now apply parentNode_built_new.
  now rewrite ancestors_built_old.
Qed.

Lemma dots_built (page : list Element) (s c n0 : node) :
  document_querySelector "slider-dots" page = Some c ->
  document_order page = true ->
  dots (built page s c n0) =
  (dots (new_object page)
   ++ seq (length page) (length (document_querySelectorAll "gallery-slide" page)))%list.
Proof.
  intros Hc Ho. pose proof (document_querySelector_spec _ _ _ Hc) as [Hcv _].
  transitivity (dots (dotted c 0 (length (slides (new_object page))) (new_object page))).
  - apply dots_same; [apply built_elements_same | reflexivity].
  - now apply dots_dotted.
Qed.

Lemma button_listener_at (b : option node) (h : handler) (a : node) :
  map snd (List.filter (listens (El a) "click") (button_listener b h)) = button_at b h a.
Proof.
  destruct b as [n|]; [|reflexivity].
  cbn [button_listener List.filter button_at]. unfold listens.
  cbn [fst snd target_eqb]. rewrite (Nat.eqb_sym n a).
  destruct (a =? n); reflexivity.
Qed.

Lemma listeners_for_old (page : list Element) (s c n0 a : node) :
  a < length page ->
  listeners_for (El a) "click" (built page s c n0) =
  (button_at (document_querySelector "slider-btn-prev" page) OnPrevClick a
   ++ button_at (document_querySelector "slider-btn-next" page) OnNextClick a)%list.
Proof.
  intros Ha. rewrite listeners_for_button by exact Ha.
  now rewrite !button_listener_at.
Qed.

Lemma listeners_for_document_click (page : list Element) (s c n0 : node) :
  listeners_for Doc "click" (built page s c n0) = [].
Proof.
  unfold listeners_for. rewrite listeners_built, !List.filter_app.
  rewrite (fixed_listeners_not_click s Doc), app_nil_r.
  rewrite !map_app.
  replace (List.filter (listens Doc "click") (dot_listeners _ _ _)) with (@nil (target * string * handler)).
  - destruct (document_querySelector "slider-btn-prev" page),
      (document_querySelector "slider-btn-next" page); reflexivity.
  - symmetry. apply filter_none. intros x Hx.
    unfold dot_listeners in Hx. apply in_map_iff in Hx as (j & <- & _). reflexivity.
Qed.

Lemma listeners_for_new (page : list Element) (s c n0 : node) (i : nat) :
  i < length (document_querySelectorAll "gallery-slide" page) ->
  listeners_for (El (length page + i)) "click" (built page s c n0) = [OnDotClick i].
Proof.
  intros Hi. unfold listeners_for. rewrite listeners_built, !List.filter_app.
  rewrite (button_listener_old (document_querySelector "slider-btn-prev" page)),
          (button_listener_old (document_querySelector "slider-btn-next" page)).
  - rewrite (fixed_listeners_not_click s), !app_nil_r.
    exact (dot_listeners_new _ _ 0 i Hi).
  - intros b Hb. apply document_querySelector_spec in Hb. lia.
  - intros b Hb. apply document_querySelector_spec in Hb. lia.
Qed.

Lemma button_at_outside (page : list Element) (q : string) (h : handler) (c a : node) :
  (forall b, document_querySelector q page = Some b -> encloses page b c = false) ->
  In a (c :: ancestors page c) ->
  button_at (document_querySelector q page) h a = [].
Proof.
  intros H Ha. destruct (document_querySelector q page) as [b|]; [|reflexivity].
  cbn [button_at]. destruct (Nat.eqb_spec a b) as [->|]; [|reflexivity].
  destruct (encloses_false page b c (H b eq_refl)) as [Hne Hanc].
  destruct Ha as [E|Ha]; [now symmetry in E|].
  apply not_true_iff_false in Hanc. exfalso. apply Hanc.
  apply existsb_exists. exists b. split; [exact Ha | apply Nat.eqb_refl].
Qed.

Lemma shown_slides_active (w : World) (i : nat) (s c : node) :
  NoDup (slides w) ->
  Forall (fun n => n < length (elements w)) (slides w) ->
  (forall x, In x (slides w) -> ~ In x (dots w)) ->
  slides w !! i = Some s ->
  dotsContainer w = Some c ->
  active_positions (shown (Num (Z.of_nat i)) s c w) (slides w) = [i].
Proof.
  intros Hnds Hvs Hdisj Hs Hc.
  assert (i < length (slides w)) as Hi by (eapply lookup_lt_Some, Hs).
  assert (s < length (elements w)) as Hsv.
  { rewrite Forall_forall in Hvs. apply Hvs. eapply list_elem_of_lookup_2, Hs. }
  unfold shown. rewrite (shown_dots_arg s c w Hc).
  apply active_positions_single; [exact Hi|].
  intros j m Hj. unfold is_active. cbn [elements set_elements].
  assert (m ∈ slides w) as Hm by (eapply list_elem_of_lookup_2, Hj).
  rewrite active_mark_from_notin
    by (intros Hin; apply (Hdisj m); now apply list_elem_of_In).
  rewrite active_upd_add
    by (destruct (deactivate_same (slides w) (elements w)) as (-> & _); exact Hsv).
  rewrite active_deactivate_in by exact Hm. rewrite orb_false_r.
  destruct (Nat.eqb_spec j i) as [E|Hne].
  - subst j. assert (m = s) as -> by congruence. apply Nat.eqb_refl.
  - apply Nat.eqb_neq. intros E. subst m. apply Hne.
    exact (NoDup_lookup (slides w) j i s Hnds Hj Hs).
Qed.

(** ** C8: what construction leaves *)

(** C8.  On a page (a tree in document order) with the slider root, at least
    one slide and an indicator container, construction completes; it creates
    one new element per slide, carrying the class [slider-dot], and appends
    them to the container in slide order after what the container held, so
    that the indicators are those found inside the container before, followed
    by the new ones; [currentIndex] is 0, and slide 0 is the only active slide
    unless a slide is itself one of the indicators found before.  A click on
    the [i]-th new indicator runs its listener, the call [showSlide(i)], and
    then the click listeners of the container and of its ancestors, to which
    it bubbles: when neither control is the container or encloses it, the
    click is exactly that call.  When the slides and the indicators found
    before are pairwise distinct elements, the deck is left well formed with
    slide 0 and the first indicator the only active ones.  When the container
    held no indicator before, at any depth, the indicators are exactly the
    new ones. *)
Theorem constructor_creates_indicators (page : list Element) (s c : node) :
  document_querySelector "gallery-slider" page = Some s ->
  document_querySelector "slider-dots" page = Some c ->
  document_querySelectorAll "gallery-slide" page <> [] ->
  document_order page = true ->
  exists w',
    constructor page = (Ok tt, w') /\
    slides w' = document_querySelectorAll "gallery-slide" page /\
    length (elements w') = length page + length (slides w') /\
    children (elements w') c =
      (children page c ++ seq (length page) (length (slides w')))%list /\
    dots w' = (dots (new_object page) ++ seq (length page) (length (slides w')))%list /\
    (forall i, i < length (slides w') ->
       page !! (length page + i) = None /\
       has_class (elements w') "slider-dot" (length page + i) = true /\
       parentNode (elements w') (length page + i) = Some c) /\
    (forall i e, i < length (slides w') -> type e = "click" ->
       dispatch (El (length page + i)) e w' =
       run_listeners
         (OnDotClick i ::
          flat_map (fun a => listeners_for (El a) "click" w') (c :: ancestors page c))
         e w') /\
    ((forall b, document_querySelector "slider-btn-prev" page = Some b ->
                encloses page b c = false) ->
     (forall b, document_querySelector "slider-btn-next" page = Some b ->
                encloses page b c = false) ->
     forall i e, i < length (slides w') -> type e = "click" ->
       dispatch (El (length page + i)) e w' =
       as_event (showSlide (Num (Z.of_nat i))) w') /\
    currentIndex w' = Num 0 /\
    ((forall x, In x (slides w') -> ~ In x (dots (new_object page))) ->
     active_positions w' (slides w') = [0]) /\
    (NoDup (slides w' ++ dots (new_object page)) ->
     invariant w' /\ exactly_active w' 0) /\
    (no_indicator_yet page c ->
       dots w' = seq (length page) (length (slides w')) /\
       invariant w' /\ exactly_active w' 0).
Proof.
  intros Hs Hc Hne Ho.
  pose proof (document_querySelector_spec _ _ _ Hc) as [Hcv _].
  destruct (document_querySelectorAll "gallery-slide" page) as [|n0 l] eqn:Hsl;
    [contradiction|].
  set (w0 := new_object page).
  assert (slides w0 = n0 :: l) as Hsl0 by exact Hsl.
  set (w1 := dotted c 0 (length (slides w0)) w0).
  exists (built page s c n0).
  assert (slides (built page s c n0) = document_querySelectorAll "gallery-slide" page)
    as Fs by reflexivity.
  destruct (built_elements_same page s c n0) as (Hlen & Hch & Hcl).
  pose proof (dots_built page s c n0 Hc Ho) as Hdots.
  rewrite Fs, Hsl in *.
  assert (NoDup (slides w1)) as Hnd
    by (change (slides w1) with (document_querySelectorAll "gallery-slide" page);
        apply document_querySelectorAll_NoDup).
  assert (Forall (fun n => n < length page) (slides w1)) as Hlive.
  { apply Forall_forall. intros x Hx. apply list_elem_of_In in Hx.
    change (slides w1) with (document_querySelectorAll "gallery-slide" page) in Hx.
    now apply document_querySelectorAll_spec in Hx. }
  assert (length (elements w1) = length page + length (n0 :: l)) as Hlen1.
  { unfold w1. cbn [dotted elements set_listeners set_elements].
    rewrite length_with_dots. now rewrite Hsl0. }
  split; [now apply (constructor_built page s c n0 l)|].
  split; [reflexivity|].
  split. { rewrite Hlen. apply length_with_dots. }
  split. { rewrite Hch. now apply children_with_dots. }
  split; [exact Hdots|].
  split.
  { intros i Hi. split; [apply lookup_ge_None; lia|]. split.
    - rewrite Hcl by discriminate. unfold has_class.
      now rewrite classes_with_dots_new.
    - apply parentNode_built_new; [exact Ho | exact Hcv | now rewrite Hsl]. }
  assert (forall i e, i < length (n0 :: l) -> type e = "click" ->
            dispatch (El (length page + i)) e (built page s c n0) =
            run_listeners
              (OnDotClick i ::
               flat_map (fun a => listeners_for (El a) "click" (built page s c n0))
                 (c :: ancestors page c))
              e (built page s c n0)) as Hclick.
  { intros i e Hi He.
    rewrite dispatch_element, He, listeners_for_document_click, app_nil_r.
    rewrite listeners_for_new by (now rewrite Hsl).
    now rewrite ancestors_built_new by (auto; now rewrite Hsl). }
  split; [exact Hclick|].
  split.
  { intros Hprev Hnext i e Hi He. rewrite Hclick by assumption.
    rewrite flat_map_nil; [apply run_single_listener|].
    intros a Ha.
    assert (a < length page) as Hav.
    { destruct Ha as [<-|Ha]; [exact Hcv|]. apply ancestors_upto_lt in Ha. lia. }
    rewrite listeners_for_old by exact Hav.
    now rewrite !(button_at_outside page _ _ c a). }
  split; [reflexivity|].
  split.
  { intros Hdisj. rewrite <- Hsl0.
    change (active_positions (shown (Num (Z.of_nat 0)) n0 c w1) (slides w1) = [0]).
    apply shown_slides_active; auto.
    - rewrite Hlen1. eapply Forall_impl; [exact Hlive|]. intros x Hx. simpl in *. lia.
    - intros x Hx Hin.
      change (slides w1) with (document_querySelectorAll "gallery-slide" page) in Hx.
      rewrite Hsl in Hx. unfold w1 in Hin. rewrite dots_dotted in Hin by auto.
      apply in_app_or in Hin as [Hin|Hin]; [now apply (Hdisj x)|].
      apply in_seq in Hin. rewrite Forall_forall in Hlive.
      assert (x < length page); [|change (length (elements w0)) with (length page) in Hin; lia].
      apply Hlive. apply list_elem_of_In.
      change (slides w1) with (document_querySelectorAll "gallery-slide" page).
      now rewrite Hsl.
    - change (slides w1 !! 0 = Some n0). change (slides w1) with (slides w0).
      now rewrite Hsl0. }
  assert (NoDup ((n0 :: l) ++ dots (new_object page)) ->
          invariant (built page s c n0) /\ exactly_active (built page s c n0) 0) as Hinv.
  { intros Hdist.
    assert (well_formed w1) as Hwf1.
    { apply well_formed_dotted; auto. fold w0. now rewrite Hsl0. }
    destruct (shown_exactly w1 0 n0 c Hwf1) as [Hwf2 Hact2].
    { change (slides w0 !! 0 = Some n0). now rewrite Hsl0. }
    { exact Hc. }
    split; [split; [exact Hwf2 | exists 0; exact Hact2] | exact Hact2]. }
  split; [exact Hinv|].
  intros Hno.
  pose proof (no_indicator_yet_dots c (new_object page) Hc Hno) as Hnone.
  split; [now rewrite Hdots, Hnone|].
  apply Hinv. rewrite Hnone, app_nil_r. rewrite <- Hsl0. exact Hnd.
Qed.

(** ** Construction without slides, and without the indicator container *)

Lemma target_eqb_eq (a b : target) : target_eqb a b = true <-> a = b.
Proof.
  destruct a as [|n], b as [|m]; simpl; split; try discriminate; auto.
  - intros H. apply Nat.eqb_eq in H. now subst.
  - intros H. injection H as ->. apply Nat.eqb_refl.
Qed.

Lemma dispatch_no_listener (t : target) (e : Event) (w : World) :
  listeners w = [] -> dispatch t e w = ([], w).
Proof.
  intros H. apply dispatch_nothing. intros t' _. unfold listeners_for. now rewrite H.
Qed.

(** An element without children is on the path of no event but its own. *)
Lemma event_path_avoids_leaf (els : list Element) (t : target) (x : node) :
  children els x = [] -> t <> El x -> ~ In (El x) (event_path els t).
Proof.
  intros Hx Ht Hin. destruct t as [|n]; cbn [event_path] in Hin.
  - destruct Hin as [E|[]]. discriminate E.
  - destruct Hin as [E|Hin]; [now apply Ht|].
    apply in_app_or in Hin as [Hin|[E|[]]]; [|discriminate E].
    apply in_map_iff in Hin as (a & E & Ha). injection E as ->.
    now apply ancestors_upto_parent in Ha.
Qed.

Lemma showSlide_null_throws (idx : jsnum) (w : World) :
  dotsContainer w = None -> fst (showSlide idx w) = Throw TypeError.
Proof.
  intros Hc. destruct (item (slides w) idx) as [s|] eqn:Hs.
  - now rewrite (showSlide_null idx s w Hs Hc).
  - now rewrite (showSlide_undefined idx w Hs).
Qed.

(** C4, as the code has it.  On a page without slides the constructor
    completes without creating an element, registering a listener or arming a
    timer, so every event delivered afterwards, to any target, runs nothing:
    no exception and no change of state. *)
Theorem no_slides_inert (page : list Element) :
  document_querySelectorAll "gallery-slide" page = [] ->
  exists w',
    constructor page = (Ok tt, w') /\
    elements w' = page /\
    listeners w' = [] /\
    timers w' = [] /\
    currentIndex w' = Num 0 /\
    (forall t e, dispatch t e w' = ([], w')) /\
    (forall id, tick id w' = ([], w')).
Proof.
  intros H. exists (new_object page). split.
  - unfold constructor. simpl. rewrite H. simpl. now rewrite orb_true_r.
  - repeat split. intros t e. now apply dispatch_no_listener.
Qed.

(** C4, where the claim fails.  On the deck built from a page without slides,
    a direct call of [nextSlide] or [prevSlide] assigns NaN to [currentIndex]
    and throws, and [showSlide(0)] throws too: none is a no-op. *)
Lemma no_slides_direct_calls_throw :
  let w := snd (constructor no_slide_page) in
  constructor no_slide_page = (Ok tt, w) /\
  slides w = [] /\
  nextSlide w = (Throw TypeError, set_currentIndex NaN w) /\
  prevSlide w = (Throw TypeError, set_currentIndex NaN w) /\
  showSlide (Num 0) w = (Throw TypeError, w) /\
  nextSlide w <> (Ok tt, w) /\
  prevSlide w <> (Ok tt, w) /\
  showSlide (Num 0) w <> (Ok tt, w).
Proof.
  repeat split; try reflexivity; intros H; vm_compute in H; discriminate H.
Qed.

(** C3, evaluated on the code.  On a page with the slider root and at least
    one slide but no indicator container, [createDots] throws in its first
    iteration and the constructor is left before [showSlide(0)] and before any
    navigation listener is registered: the only listener is the click listener
    of the one indicator that was created and never inserted, so an event
    delivered anywhere else runs nothing; and a direct [nextSlide] or
    [prevSlide] throws as well. *)
Theorem missing_container_aborts_construction (page : list Element) (s : node) :
  document_querySelector "gallery-slider" page = Some s ->
  document_querySelectorAll "gallery-slide" page <> [] ->
  document_querySelector "slider-dots" page = None ->
  exists w',
    constructor page = (Throw TypeError, w') /\
    dots w' = [] /\
    listeners w' = [(El (length page), "click", OnDotClick 0)] /\
    (forall t e, t <> El (length page) -> dispatch t e w' = ([], w')) /\
    fst (nextSlide w') = Throw TypeError /\
    fst (prevSlide w') = Throw TypeError.
Proof.
  intros Hs Hne Hc.
  set (w0 := new_object page).
  destruct (slides w0) as [|n0 l] eqn:Hsl; [contradiction|].
  eexists. split.
  { rewrite (constructor_runs_init page s Hs Hne). fold w0.
    unfold init, bind at 1. rewrite (createDots_null n0 l w0 Hsl Hc). reflexivity. }
  split; [unfold dots; simpl; now rewrite Hc|].
  split; [reflexivity|].
  split.
  { intros t e Ht. apply dispatch_nothing. intros t' Ht'. unfold listeners_for.
    simpl (listeners _). cbn [List.filter]. unfold listens. cbn [fst snd].
    destruct (target_eqb (El (length page)) t') eqn:E; [|reflexivity].
    apply target_eqb_eq in E. subst t'. exfalso.
    apply (event_path_avoids_leaf _ t (length page)) in Ht'; [exact Ht' | | exact Ht].
    cbn [elements set_listeners set_elements]. rewrite children_upd.
    unfold children. change (elements w0) with page.
    rewrite lookup_app_r by lia. now rewrite Nat.sub_diag. }
  split.
  - unfold nextSlide, bind, gets. apply showSlide_null_throws. exact Hc.
  - unfold prevSlide, bind, gets. apply showSlide_null_throws. exact Hc.
Qed.

(** ** The theorems at work on sample pages *)

Lemma sample_deck_well_formed : well_formed sample_deck.
Proof.
  unfold well_formed. split; [|split].
  - vm_compute. compute_done.
  - vm_compute. compute_done.
  - vm_compute. lia.
Defined.

Lemma sample_deck_invariant : invariant sample_deck.
Proof.
  split; [exact sample_deck_well_formed|].
  exists 0. repeat split.
Defined.

Lemma next_prev_index_modulo_witness :
  currentIndex (after_calls 7 nextSlide sample_deck) = Num 1 /\
  currentIndex (after_calls 7 prevSlide sample_deck) = Num 2 /\
  visited 3 nextSlide sample_deck = [Num 1; Num 2; Num 0] /\
  repeat_call 7 nextSlide sample_deck = (Ok tt, after_calls 7 nextSlide sample_deck).
Proof.
  assert (slides sample_deck <> []) as H1 by (vm_compute; discriminate).
  assert (dotsContainer sample_deck <> None) as H2 by (vm_compute; discriminate).
  destruct (next_prev_index_modulo sample_deck 7 H1 eq_refl)
    as (Hn & Hp & _ & _ & Hv & Hr).
  split; [exact Hn|]. split; [exact Hp|]. split; [apply Hv; reflexivity|].
  apply (Hr H2).
Defined.

Lemma wrapped_dot_deck_well_formed : well_formed wrapped_dot_deck.
Proof.
  unfold well_formed. split; [|split].
  - vm_compute. compute_done.
  - vm_compute. compute_done.
  - vm_compute. lia.
Defined.

Lemma showSlide_exactly_one_active_witness :
  (exists w', showSlide (Num 2) sample_deck = (Ok tt, w') /\
              exactly_active w' 2 /\ invariant w') /\
  (exists w', nextSlide sample_deck = (Ok tt, w') /\ invariant w') /\
  (exists w', prevSlide sample_deck = (Ok tt, w') /\ invariant w') /\
  dots wrapped_dot_deck = [5; 6; 7] /\
  (exists w', showSlide (Num 1) wrapped_dot_deck = (Ok tt, w') /\
              exactly_active w' 1 /\ invariant w') /\
  is_active (snd (showSlide (Num 1) wrapped_dot_deck)) 6 = true.
Proof.
  assert (2 < length (slides sample_deck)) as H2 by (vm_compute; lia).
  assert (1 < length (slides wrapped_dot_deck)) as H1 by (vm_compute; lia).
  destruct (showSlide_exactly_one_active sample_deck 2 sample_deck_well_formed H2)
    as (Hs & Hinv).
  destruct (showSlide_exactly_one_active wrapped_dot_deck 1 wrapped_dot_deck_well_formed H1)
    as (Hw & _).
  split; [exact Hs|].
  destruct (Hinv sample_deck_invariant) as [Hn Hp].
  split; [exact Hn|]. split; [exact Hp|].
  split; [reflexivity|]. split; [exact Hw | reflexivity].
Defined.

Lemma swipe_threshold_witness :
  handleSwipe 100 51 = ret tt /\
  handleSwipe 100 49 = nextSlide /\
  handleSwipe 49 100 = prevSlide.
Proof.
  split; [|split].
  - exact (proj1 (swipe_threshold 100 51) eq_refl).
  - exact (proj1 (proj2 (swipe_threshold 100 49)) eq_refl eq_refl).
  - exact (proj1 (proj2 (proj2 (swipe_threshold 49 100))) eq_refl eq_refl).
Defined.

Lemma wraparound_at_both_ends_witness :
  currentIndex (snd (nextSlide sample_deck_at_last)) = Num 0 /\
  currentIndex (snd (prevSlide sample_deck)) = Num 2.
Proof.
  split.
  - apply (wraparound_at_both_ends sample_deck_at_last);
      [vm_compute; discriminate | reflexivity].
  - apply (wraparound_at_both_ends sample_deck);
      [vm_compute; discriminate | reflexivity].
Defined.

Lemma next_prev_round_trip_witness :
  currentIndex (snd (prevSlide (snd (nextSlide sample_deck_at_last)))) = Num 2 /\
  currentIndex (snd (nextSlide (snd (prevSlide sample_deck_at_last)))) = Num 2.
Proof.
  destruct (next_prev_round_trip sample_deck_at_last 2) as (H1 & H2 & _);
    [vm_compute; split; [discriminate | reflexivity] | reflexivity |].
  split; [exact H1 | exact H2].
Defined.

Lemma showSlide_out_of_range_not_atomic_witness :
  exists w', showSlide (Num 3) sample_deck = (Throw TypeError, w') /\
             w' = half_shown (Num 3) sample_deck /\
             currentIndex w' = Num 3 /\
             slides w' = slides sample_deck /\
             active_positions w' (slides w') = [] /\
             (forall d, d ∈ dots sample_deck -> d ∉ slides sample_deck ->
                        is_active w' d = is_active sample_deck d).
Proof.
  apply (showSlide_out_of_range_not_atomic sample_deck 3);
    [vm_compute; discriminate | right; vm_compute; discriminate].
Defined.

Lemma sample_page_no_indicator_yet : no_indicator_yet sample_page 6.
Proof. vm_compute. constructor. Defined.

Lemma constructor_creates_indicators_witness :
  (exists w',
    constructor sample_page = (Ok tt, w') /\
    slides w' = [1; 2; 3] /\
    length (elements w') = 10 /\
    children (elements w') 6 = [7; 8; 9] /\
    (forall e, type e = "click" ->
       dispatch (El 8) e w' = as_event (showSlide (Num 1)) w') /\
    currentIndex w' = Num 0 /\
    active_positions w' (slides w') = [0] /\
    dots w' = [7; 8; 9] /\
    invariant w' /\ exactly_active w' 0) /\
  (exists w',
    constructor wrapped_dot_page = (Ok tt, w') /\
    children (elements w') 3 = [4; 6; 7] /\
    dots w' = [5; 6; 7] /\
    (forall e, type e = "click" ->
       dispatch (El 7) e w' = as_event (showSlide (Num 1)) w') /\
    active_positions w' (slides w') = [0] /\
    invariant w' /\ exactly_active w' 0) /\
  (exists w',
    constructor dots_in_control_page = (Ok tt, w') /\
    dots w' = [4; 5] /\
    forall e, type e = "click" ->
      dispatch (El 5) e w' = run_listeners [OnDotClick 1; OnPrevClick] e w').
Proof.
  split; [|split].
  - destruct (constructor_creates_indicators sample_page 0 6)
      as (w' & E & Hs & Hl & Hch & _ & _ & _ & Hclick & Hi & Hsl & _ & Hinv);
      [reflexivity | reflexivity | vm_compute; discriminate | reflexivity |].
    exists w'. change (slides w' = [1; 2; 3]) in Hs. rewrite Hs in *.
    destruct (Hinv sample_page_no_indicator_yet) as (Hd & Hi' & Ha).
    split; [exact E|]. split; [reflexivity|]. split; [exact Hl|].
    split; [exact Hch|]. split.
    { intros e He. apply (Hclick ltac:(intros b Hb; vm_compute in Hb; now injection Hb as <-)
                                 ltac:(intros b Hb; vm_compute in Hb; now injection Hb as <-)
                                 1 e ltac:(vm_compute; lia) He). }
    split; [exact Hi|]. split.
    { apply Hsl. vm_compute. intros x Hx []. }
    split; [exact Hd|]. split; [exact Hi' | exact Ha].
  - destruct (constructor_creates_indicators wrapped_dot_page 0 3)
      as (w' & E & Hs & _ & Hch & Hdots & _ & _ & Hclick & _ & Hsl & Hinv & _);
      [reflexivity | reflexivity | vm_compute; discriminate | reflexivity |].
    exists w'. change (slides w' = [1; 2]) in Hs. rewrite Hs in *.
    split; [exact E|]. split; [exact Hch|]. split; [exact Hdots|]. split.
    { intros e He. apply (Hclick ltac:(intros b Hb; discriminate Hb)
                                 ltac:(intros b Hb; discriminate Hb)
                                 1 e ltac:(vm_compute; lia) He). }
    split.
    { apply Hsl. vm_compute. intros x [<-|[<-|[]]] [E5|[]]; discriminate E5. }
    apply Hinv. vm_compute. compute_done.
  - destruct (constructor_creates_indicators dots_in_control_page 0 3)
      as (w' & E & Hs & _ & _ & Hdots & _ & Hbubble & _);
      [reflexivity | reflexivity | vm_compute; discriminate | reflexivity |].
    exists w'. change (slides w' = [1; 2]) in Hs. rewrite Hs in *.
    split; [exact E|]. split; [exact Hdots|].
    intros e He.
    etransitivity; [exact (Hbubble 1 e ltac:(vm_compute; lia) He)|].
    assert (w' = snd (constructor dots_in_control_page)) as ->
      by (apply (f_equal snd) in E; symmetry; exact E).
    apply (f_equal (fun hs => run_listeners hs e (snd (constructor dots_in_control_page)))).
    vm_compute. reflexivity.
Defined.

Lemma no_slides_inert_witness :
  exists w',
    constructor no_slide_page = (Ok tt, w') /\
    elements w' = no_slide_page /\
    listeners w' = [] /\
    timers w' = [] /\
    currentIndex w' = Num 0 /\
    (forall t e, dispatch t e w' = ([], w')) /\
    (forall id, tick id w' = ([], w')).
Proof. apply (no_slides_inert no_slide_page). reflexivity. Defined.

Lemma missing_container_aborts_construction_witness :
  exists w',
    constructor no_container_page = (Throw TypeError, w') /\
    dots w' = [] /\
    listeners w' = [(El 2, "click", OnDotClick 0)] /\
    (forall t e, t <> El 2 -> dispatch t e w' = ([], w')) /\
    fst (nextSlide w') = Throw TypeError /\
    fst (prevSlide w') = Throw TypeError.
Proof.
  apply (missing_container_aborts_construction no_container_page 0);
    [reflexivity | vm_compute; discriminate | reflexivity].
Defined.

(** * Further properties of the slider *)

(** ** What navigation leaves alone *)

Lemma only_active_changes_showSlide (idx : jsnum) (w : World) :
  only_active_changes w (snd (showSlide idx w)).
Proof.
  destruct (item (slides w) idx) as [s|] eqn:Hs.
  - destruct (dotsContainer w) as [c|] eqn:Hc.
    + rewrite (showSlide_ok idx s c w Hs Hc).
      split; [apply shown_same | simpl; repeat split; auto].
    + rewrite (showSlide_null idx s w Hs Hc). simpl.
      split; [|simpl; repeat split; auto].
      eapply same_but_active_trans; [apply deactivate_same|].
      apply same_but_active_upd. intros t cl. apply token_add_active_other.
  - rewrite (showSlide_undefined idx w Hs).
    split; [apply deactivate_same | simpl; repeat split].
Qed.

Lemma nextSlide_unfold (w : World) :
  nextSlide w =
  showSlide (js_rem (js_add (currentIndex w) (Num 1)) (length_num (slides w))) w.
Proof. reflexivity. Qed.

Lemma prevSlide_unfold (w : World) :
  prevSlide w =
  showSlide
    (js_rem (js_add (js_sub (currentIndex w) (Num 1)) (length_num (slides w)))
       (length_num (slides w))) w.
Proof. reflexivity. Qed.

(** X1.  Whatever its argument and whether it completes or throws,
    [showSlide] changes nothing but [currentIndex] and the presence of the
    token [active]: no element is created or removed, no other class, child
    list, listener, timer or field of the object changes.  The same holds for
    [nextSlide], [prevSlide] and [handleSwipe]. *)
Theorem navigation_changes_only_active (w : World) (idx : jsnum) (startX endX : Z) :
  only_active_changes w (snd (showSlide idx w)) /\
  only_active_changes w (snd (nextSlide w)) /\
  only_active_changes w (snd (prevSlide w)) /\
  only_active_changes w (snd (handleSwipe startX endX w)).
Proof.
  assert (only_active_changes w (snd (nextSlide w))) as Hn
    by (rewrite nextSlide_unfold; apply only_active_changes_showSlide).
  assert (only_active_changes w (snd (prevSlide w))) as Hp
    by (rewrite prevSlide_unfold; apply only_active_changes_showSlide).
  split; [apply only_active_changes_showSlide|].
  split; [exact Hn|]. split; [exact Hp|].
  unfold handleSwipe.
  destruct (50 <? Z.abs (startX - endX))%Z.
  - destruct (0 <? startX - endX)%Z; assumption.
  - simpl. split; [apply same_but_active_refl | repeat split].
Qed.

(** ** Cycles *)

Lemma after_calls_nextSlide_slides (k : nat) (w : World) :
  slides (after_calls k nextSlide w) = slides w.
Proof.
  revert w. induction k as [|k IH]; intros w; simpl; [reflexivity|].
  rewrite IH, nextSlide_unfold. apply showSlide_fields.
Qed.

Lemma after_calls_prevSlide_slides (k : nat) (w : World) :
  slides (after_calls k prevSlide w) = slides w.
Proof.
  revert w. induction k as [|k IH]; intros w; simpl; [reflexivity|].
  rewrite IH, prevSlide_unfold. apply showSlide_fields.
Qed.

(** X2.  From any valid index, [N] calls of [nextSlide] come back to it, and
    so do [N] calls of [prevSlide]; and [k] calls of [prevSlide] undo [k]
    calls of [nextSlide], for every [k]. *)
Theorem navigation_cycles (w : World) (z : Z) (k : nat) :
  (0 <= z < Z.of_nat (length (slides w)))%Z ->
  currentIndex w = Num z ->
  currentIndex (after_calls (length (slides w)) nextSlide w) = Num z /\
  currentIndex (after_calls (length (slides w)) prevSlide w) = Num z /\
  currentIndex (after_calls k prevSlide (after_calls k nextSlide w)) = Num z.
Proof.
  intros Hz Hi. set (n := Z.of_nat (length (slides w))) in *.
  destruct (after_calls_nextSlide (length (slides w)) w z Hz Hi) as [In _].
  destruct (after_calls_prevSlide (length (slides w)) w z Hz Hi) as [Ip _].
  destruct (after_calls_nextSlide k w z Hz Hi) as [Ik _].
  fold n in In, Ip, Ik.
  split; [|split].
  - rewrite In. rewrite <- (Z.mul_1_l n) at 1.
    now rewrite Z.mod_add, Z.mod_small by lia.
  - rewrite Ip. replace (z - n)%Z with (z + (-1) * n)%Z by lia.
    now rewrite Z.mod_add, Z.mod_small by lia.
  - destruct (after_calls_prevSlide k (after_calls k nextSlide w)
                ((z + Z.of_nat k) mod n)) as [I2 _].
    + rewrite after_calls_nextSlide_slides. apply Z.mod_pos_bound. lia.
    + exact Ik.
    + rewrite I2, after_calls_nextSlide_slides. fold n.
      rewrite Zminus_mod_idemp_l.
      replace (z + Z.of_nat k - Z.of_nat k)%Z with z by lia.
      now rewrite Z.mod_small.
Qed.

Lemma navigation_cycles_witness :
  currentIndex (after_calls 3 nextSlide sample_deck_at_last) = Num 2 /\
  currentIndex (after_calls 3 prevSlide sample_deck_at_last) = Num 2 /\
  currentIndex (after_calls 5 prevSlide (after_calls 5 nextSlide sample_deck_at_last)) = Num 2.
Proof.
  apply (navigation_cycles sample_deck_at_last 2 5);
    [vm_compute; split; [discriminate | reflexivity] | reflexivity].
Defined.

(** ** The inputs wired by construction *)

Lemma as_event_seq_ret (m : M unit) (w : World) :
  as_event (m >> ret tt) w = as_event m w.
Proof.
  unfold as_event, bind, ret. destruct (m w) as [[a|x] w']; reflexivity.
Qed.

(** X3.  After a completed construction, a key press delivered to the
    document is exactly one [prevSlide] call for [ArrowLeft], exactly one
    [nextSlide] call for [ArrowRight], and nothing at all for any other
    key. *)
Theorem keyboard_navigation (page : list Element) (s c : node) (e : Event) :
  document_querySelector "gallery-slider" page = Some s ->
  document_querySelector "slider-dots" page = Some c ->
  document_querySelectorAll "gallery-slide" page <> [] ->
  type e = "keydown" ->
  exists w',
    constructor page = (Ok tt, w') /\
    dispatch Doc e w' =
      if String.eqb (key e) "ArrowLeft" then as_event prevSlide w'
      else if String.eqb (key e) "ArrowRight" then as_event nextSlide w'
      else ([], w').
Proof.
  intros Hs Hc Hne He.
  destruct (document_querySelectorAll "gallery-slide" page) as [|n0 l] eqn:Hsl;
    [contradiction|].
  exists (built page s c n0). split; [now apply (constructor_built page s c n0 l)|].
  rewrite dispatch_document, He.
  replace (listeners_for Doc "keydown" (built page s c n0)) with [OnKeydown].
  - rewrite run_single_listener. cbn [handle].
    destruct (String.eqb_spec (key e) "ArrowLeft") as [E|_].
    + rewrite E. cbn [String.eqb Ascii.eqb Bool.eqb]. apply as_event_seq_ret.
    + destruct (String.eqb (key e) "ArrowRight"); reflexivity.
  - unfold listeners_for. rewrite listeners_built, Hsl.
    rewrite !List.filter_app, dot_listeners_not_click,
      !button_listener_not_click by reflexivity.
    reflexivity.
Qed.

Lemma keyboard_navigation_witness :
  exists w',
    constructor sample_page = (Ok tt, w') /\
    dispatch Doc (mkEvent "keydown" "ArrowRight" 0) w' = as_event nextSlide w'.
Proof.
  apply (keyboard_navigation sample_page 0 6 (mkEvent "keydown" "ArrowRight" 0));
    [reflexivity | reflexivity | vm_compute; discriminate | reflexivity].
Defined.

(** The click listeners met on the way up from a control are those of the
    other control, where it encloses the first. *)
Lemma click_listeners_above (page : list Element) (s c n0 b : node)
    (other : option node) (h h' : handler) :
  c < length page -> b < length page ->
  (forall a, a < length page ->
     listeners_for (El a) "click" (built page s c n0) =
     (button_at (Some b) h a ++ button_at other h' a)%list \/
     listeners_for (El a) "click" (built page s c n0) =
     (button_at other h' a ++ button_at (Some b) h a)%list) ->
  flat_map (fun a => listeners_for (El a) "click" (built page s c n0))
    (ancestors (elements (built page s c n0)) b) =
  match other with
  | Some n => if existsb (Nat.eqb n) (ancestors page b) then [h'] else []
  | None => []
  end.
Proof.
  intros Hc Hb Hl. rewrite ancestors_built_old by assumption.
  transitivity (flat_map (fun a => button_at other h' a) (ancestors page b)).
  - apply flat_map_ext_In. intros a Ha. apply ancestors_upto_lt in Ha.
    cbn [button_at] in Hl.
    destruct (Hl a ltac:(lia)) as [-> | ->];
      destruct (Nat.eqb_spec a b); try lia; cbn [app]; [reflexivity | apply app_nil_r].
  - destruct other as [n|]; cbn [button_at]; [|now apply flat_map_nil].
    apply flat_map_ancestors.
Qed.

(** X4.  After a completed construction a click on the "previous" control
    runs [prevSlide] and then bubbles through the ancestors of the control:
    when the "next" control is another element and does not enclose it, the
    click is exactly one [prevSlide] call; when the "next" control encloses
    it, [prevSlide] is followed by [nextSlide].  The same holds with the two
    controls exchanged.  A control that is absent from the page leaves
    construction unharmed. *)
Theorem button_navigation (page : list Element) (s c : node) (e : Event) :
  document_querySelector "gallery-slider" page = Some s ->
  document_querySelector "slider-dots" page = Some c ->
  document_querySelectorAll "gallery-slide" page <> [] ->
  document_order page = true ->
  type e = "click" ->
  exists w',
    constructor page = (Ok tt, w') /\
    (forall b, document_querySelector "slider-btn-prev" page = Some b ->
       (forall n, document_querySelector "slider-btn-next" page = Some n ->
                  encloses page n b = false) ->
       dispatch (El b) e w' = as_event prevSlide w') /\
    (forall b, document_querySelector "slider-btn-next" page = Some b ->
       (forall n, document_querySelector "slider-btn-prev" page = Some n ->
                  encloses page n b = false) ->
       dispatch (El b) e w' = as_event nextSlide w') /\
    (forall b n, document_querySelector "slider-btn-prev" page = Some b ->
       document_querySelector "slider-btn-next" page = Some n ->
       In n (ancestors page b) ->
       dispatch (El b) e w' = run_listeners [OnPrevClick; OnNextClick] e w') /\
    (forall b n, document_querySelector "slider-btn-next" page = Some b ->
       document_querySelector "slider-btn-prev" page = Some n ->
       In n (ancestors page b) ->
       dispatch (El b) e w' = run_listeners [OnNextClick; OnPrevClick] e w').
Proof.
  intros Hs Hc Hne _ He.
  pose proof (document_querySelector_spec _ _ _ Hc) as [Hcv _].
  destruct (document_querySelectorAll "gallery-slide" page) as [|n0 l] eqn:Hsl;
    [contradiction|].
  exists (built page s c n0). split; [now apply (constructor_built page s c n0 l)|].
  assert (forall b, document_querySelector "slider-btn-prev" page = Some b ->
            b < length page /\
            dispatch (El b) e (built page s c n0) =
            run_listeners
              (OnPrevClick ::
               button_at (document_querySelector "slider-btn-next" page) OnNextClick b ++
               match document_querySelector "slider-btn-next" page with
               | Some n => if existsb (Nat.eqb n) (ancestors page b) then [OnNextClick] else []
               | None => []
               end) e (built page s c n0)) as Hprev.
  { intros b Hb. pose proof (document_querySelector_spec _ _ _ Hb) as [Hbv _].
    split; [exact Hbv|].
    rewrite dispatch_element, He, listeners_for_document_click, app_nil_r.
    rewrite (click_listeners_above page s c n0 b
               (document_querySelector "slider-btn-next" page) OnPrevClick OnNextClick)
      by (auto; intros a Ha; left; rewrite listeners_for_old by exact Ha; now rewrite Hb).
    rewrite listeners_for_old, Hb by exact Hbv.
    cbn [button_at]. now rewrite Nat.eqb_refl. }
  assert (forall b, document_querySelector "slider-btn-next" page = Some b ->
            b < length page /\
            dispatch (El b) e (built page s c n0) =
            run_listeners
              (button_at (document_querySelector "slider-btn-prev" page) OnPrevClick b ++
               OnNextClick ::
               match document_querySelector "slider-btn-prev" page with
               | Some n => if existsb (Nat.eqb n) (ancestors page b) then [OnPrevClick] else []
               | None => []
               end) e (built page s c n0)) as Hnext.
  { intros b Hb. pose proof (document_querySelector_spec _ _ _ Hb) as [Hbv _].
    split; [exact Hbv|].
    rewrite dispatch_element, He, listeners_for_document_click, app_nil_r.
    rewrite (click_listeners_above page s c n0 b
               (document_querySelector "slider-btn-prev" page) OnNextClick OnPrevClick)
      by (auto; intros a Ha; right; rewrite listeners_for_old by exact Ha; now rewrite Hb).
    rewrite listeners_for_old, Hb by exact Hbv.
    cbn [button_at]. rewrite Nat.eqb_refl. now rewrite <- app_assoc. }
  split; [|split; [|split]].
  - intros b Hb Hout. destruct (Hprev b Hb) as [_ ->].
    destruct (document_querySelector "slider-btn-next" page) as [n|];
      [|apply run_single_listener].
    destruct (encloses_false page n b (Hout n eq_refl)) as [Hnb ->].
    cbn [button_at]. destruct (Nat.eqb_spec b n); [now subst|].
    apply run_single_listener.
  - intros b Hb Hout. destruct (Hnext b Hb) as [_ ->].
    destruct (document_querySelector "slider-btn-prev" page) as [n|];
      [|apply run_single_listener].
    destruct (encloses_false page n b (Hout n eq_refl)) as [Hnb ->].
    cbn [button_at]. destruct (Nat.eqb_spec b n); [now subst|].
    apply run_single_listener.
  - intros b n Hb Hn Hin. destruct (Hprev b Hb) as [_ ->]. rewrite Hn.
    pose proof (ancestors_upto_lt _ _ _ _ Hin) as Hlt.
    cbn [button_at]. destruct (Nat.eqb_spec b n); [lia|].
    replace (existsb (Nat.eqb n) (ancestors page b)) with true; [reflexivity|].
    symmetry. apply existsb_exists. exists n. split; [exact Hin | apply Nat.eqb_refl].
  - intros b n Hb Hn Hin. destruct (Hnext b Hb) as [_ ->]. rewrite Hn.
    pose proof (ancestors_upto_lt _ _ _ _ Hin) as Hlt.
    cbn [button_at]. destruct (Nat.eqb_spec b n); [lia|].
    replace (existsb (Nat.eqb n) (ancestors page b)) with true; [reflexivity|].
    symmetry. apply existsb_exists. exists n. split; [exact Hin | apply Nat.eqb_refl].
Qed.

Lemma button_navigation_witness :
  (exists w',
    constructor sample_page = (Ok tt, w') /\
    dispatch (El 4) (mkEvent "click" EmptyString 0) w' = as_event prevSlide w' /\
    dispatch (El 5) (mkEvent "click" EmptyString 0) w' = as_event nextSlide w') /\
  (exists w',
    constructor nested_buttons_page = (Ok tt, w') /\
    dispatch (El 3) (mkEvent "click" EmptyString 0) w' = as_event nextSlide w' /\
    dispatch (El 4) (mkEvent "click" EmptyString 0) w' =
      run_listeners [OnPrevClick; OnNextClick] (mkEvent "click" EmptyString 0) w').
Proof.
  split.
  - destruct (button_navigation sample_page 0 6 (mkEvent "click" EmptyString 0))
      as (w' & E & Hp & Hn & _);
      [reflexivity | reflexivity | vm_compute; discriminate | reflexivity | reflexivity |].
    exists w'. split; [exact E|]. split.
    + apply Hp; [reflexivity|]. intros n Hn'. vm_compute in Hn'. now injection Hn' as <-.
    + apply Hn; [reflexivity|]. intros n Hn'. vm_compute in Hn'. now injection Hn' as <-.
  - destruct (button_navigation nested_buttons_page 0 5 (mkEvent "click" EmptyString 0))
      as (w' & E & _ & Hn & Hpn & _);
      [reflexivity | reflexivity | vm_compute; discriminate | reflexivity | reflexivity |].
    exists w'. split; [exact E|]. split.
    + apply Hn; [reflexivity|]. intros n Hn'. vm_compute in Hn'. now injection Hn' as <-.
    + apply (Hpn 4 3); [reflexivity | reflexivity | vm_compute; now left].
Defined.

(** X5.  After a completed construction, a touch that starts at one point of
    the slider and ends at another is the call [handleSwipe] on the two screen
    abscissas: a movement of at most 50 changes nothing but the two recorded
    abscissas, a longer one is one [nextSlide] (leftwards) or one [prevSlide]
    (rightwards). *)
Theorem touch_navigation (page : list Element) (s c : node) (e0 e1 : Event) :
  document_querySelector "gallery-slider" page = Some s ->
  document_querySelector "slider-dots" page = Some c ->
  document_querySelectorAll "gallery-slide" page <> [] ->
  type e0 = "touchstart" ->
  type e1 = "touchend" ->
  exists w',
    constructor page = (Ok tt, w') /\
    dispatch (El s) e0 w' = ([], set_touchStartX (screenX e0) w') /\
    let w1 := set_touchEndX (screenX e1) (set_touchStartX (screenX e0) w') in
    dispatch (El s) e1 (set_touchStartX (screenX e0) w') =
      if (50 <? Z.abs (screenX e0 - screenX e1))%Z then
        if (screenX e1 <? screenX e0)%Z then as_event nextSlide w1
        else as_event prevSlide w1
      else ([], w1).
Proof.
  intros Hs Hc Hne He0 He1.
  destruct (document_querySelectorAll "gallery-slide" page) as [|n0 l] eqn:Hsl;
    [contradiction|].
  exists (built page s c n0). split; [now apply (constructor_built page s c n0 l)|].
  assert (forall ty h,
            (ty = "touchstart" /\ h = OnTouchStart) \/ (ty = "touchend" /\ h = OnTouchEnd) ->
            forall w, listeners w = listeners (built page s c n0) ->
                      listeners_for (El s) ty w = [h] /\
                      forall t, t <> El s -> listeners_for t ty w = []) as Hl.
  { intros ty h Hty w Hw. unfold listeners_for. rewrite Hw, listeners_built.
    split; [|intros t Ht];
      rewrite !List.filter_app, dot_listeners_not_click,
        !button_listener_not_click by (destruct Hty as [[-> _]|[-> _]]; reflexivity);
      cbn [List.filter app]; unfold listens; cbn [fst snd target_eqb].
    - rewrite Nat.eqb_refl.
      destruct Hty as [[-> ->]|[-> ->]]; reflexivity.
    - destruct t as [|n].
      + destruct Hty as [[-> _]|[-> _]]; reflexivity.
      + destruct (Nat.eqb_spec s n) as [->|_]; [now contradiction Ht|].
        destruct Hty as [[-> _]|[-> _]]; reflexivity. }
  assert (forall ty h,
            (ty = "touchstart" /\ h = OnTouchStart) \/ (ty = "touchend" /\ h = OnTouchEnd) ->
            forall e w, type e = ty -> listeners w = listeners (built page s c n0) ->
                        dispatch (El s) e w = run_listeners [h] e w) as Hd.
  { intros ty h Hty e w He Hw. destruct (Hl ty h Hty w Hw) as [H1 H2].
    rewrite dispatch_element, He, H1, (H2 Doc) by discriminate.
    rewrite flat_map_nil; [reflexivity|].
    intros a Ha. apply H2. apply ancestors_upto_lt in Ha.
    intros E. injection E as ->. lia. }
  split.
  - rewrite (Hd "touchstart" OnTouchStart) by auto.
    reflexivity.
  - intros w1.
    rewrite (Hd "touchend" OnTouchEnd) by auto.
    rewrite run_single_listener. unfold as_event at 1. cbn [handle].
    change ((modify (set_touchEndX (screenX e1)) >>
             (let* sx := gets touchStartX in
              let* ex := gets touchEndX in handleSwipe sx ex))
              (set_touchStartX (screenX e0) (built page s c n0)))
      with (handleSwipe (screenX e0) (screenX e1) w1).
    destruct (Z.lt_ge_cases 50 (Z.abs (screenX e0 - screenX e1))) as [Hb|Hsm].
    + rewrite handleSwipe_big by exact Hb.
      destruct (Z.ltb_spec 50 (Z.abs (screenX e0 - screenX e1))); [|lia].
      destruct (screenX e1 <? screenX e0)%Z; reflexivity.
    + rewrite handleSwipe_small by exact Hsm.
      destruct (Z.ltb_spec 50 (Z.abs (screenX e0 - screenX e1))); [lia|].
      reflexivity.
Qed.

Lemma touch_navigation_witness :
  exists w',
    constructor sample_page = (Ok tt, w') /\
    dispatch (El 0) (mkEvent "touchend" EmptyString 100) (set_touchStartX 200 w') =
      as_event nextSlide (set_touchEndX 100 (set_touchStartX 200 w')).
Proof.
  destruct (touch_navigation sample_page 0 6
              (mkEvent "touchstart" EmptyString 200) (mkEvent "touchend" EmptyString 100))
    as (w' & E & _ & H);
    [reflexivity | reflexivity | vm_compute; discriminate | reflexivity | reflexivity |].
  exists w'. split; [exact E | exact H].
Defined.

Lemma length_dot_listeners (base k m : nat) : length (dot_listeners base k m) = m.
Proof. unfold dot_listeners. now rewrite length_map, length_seq. Qed.

Lemma built_timers (page : list Element) (s c n0 : node) :
  timers (built page s c n0) = [].
Proof. reflexivity. Qed.

Lemma built_tick (page : list Element) (s c n0 : node) (id : nat) :
  tick id (built page s c n0) = ([], built page s c n0).
Proof. unfold tick. rewrite built_timers. reflexivity. Qed.

Lemma built_fields (page : list Element) (s c n0 : node) :
  slides (built page s c n0) = document_querySelectorAll "gallery-slide" page /\
  prevBtn (built page s c n0) = document_querySelector "slider-btn-prev" page /\
  nextBtn (built page s c n0) = document_querySelector "slider-btn-next" page /\
  autoPlayInterval (built page s c n0) = None.
Proof. repeat split. Qed.

(** X6.  Construction never starts auto-play: when it completes no interval
    is armed, the timer handle is [null] and a tick of any handle runs
    nothing; and it registers exactly one click listener per slide, one per
    control present, and three more (keydown, touchstart, touchend). *)
Theorem construction_arms_no_timer (page : list Element) (s c : node) :
  document_querySelector "gallery-slider" page = Some s ->
  document_querySelector "slider-dots" page = Some c ->
  document_querySelectorAll "gallery-slide" page <> [] ->
  exists w',
    constructor page = (Ok tt, w') /\
    timers w' = [] /\
    autoPlayInterval w' = None /\
    (forall id, tick id w' = ([], w')) /\
    length (listeners w') =
      length (slides w')
      + length (button_listener (prevBtn w') OnPrevClick)
      + length (button_listener (nextBtn w') OnNextClick) + 3.
Proof.
  intros Hs Hc Hne.
  destruct (document_querySelectorAll "gallery-slide" page) as [|n0 l] eqn:Hsl;
    [contradiction|].
  exists (built page s c n0). split; [now apply (constructor_built page s c n0 l)|].
  destruct (built_fields page s c n0) as (Fs & Fp & Fn & Fa).
  split; [apply built_timers|]. split; [exact Fa|]. split; [apply built_tick|].
  rewrite listeners_built, Fs, Fp, Fn, !length_app, length_dot_listeners.
  cbn [length]. lia.
Qed.

Lemma construction_arms_no_timer_witness :
  exists w',
    constructor sample_page = (Ok tt, w') /\
    timers w' = [] /\
    autoPlayInterval w' = None /\
    (forall id, tick id w' = ([], w')) /\
    length (listeners w') = 8.
Proof.
  destruct (construction_arms_no_timer sample_page 0 6) as (w' & E & Ht & Ha & Hk & Hl);
    [reflexivity | reflexivity | vm_compute; discriminate |].
  exists w'. split; [exact E|]. split; [exact Ht|]. split; [exact Ha|].
  split; [exact Hk|].
  assert (w' = sample_deck) as -> by (apply (f_equal snd) in E; symmetry; exact E).
  vm_compute. reflexivity.
Defined.

(** X7.  Without the slider root the constructor returns at once, even when
    the page has slides and an indicator container: it creates no indicator,
    registers no listener and arms no timer, so every event delivered
    afterwards runs nothing. *)
Theorem no_slider_inert (page : list Element) :
  document_querySelector "gallery-slider" page = None ->
  exists w',
    constructor page = (Ok tt, w') /\
    elements w' = page /\
    slides w' = document_querySelectorAll "gallery-slide" page /\
    listeners w' = [] /\
    timers w' = [] /\
    (forall t e, dispatch t e w' = ([], w')) /\
    (forall id, tick id w' = ([], w')).
Proof.
  intros H. exists (new_object page). split.
  - unfold constructor. cbn [slider new_object]. now rewrite H.
  - repeat split. intros t e. now apply dispatch_no_listener.
Qed.

Lemma no_slider_inert_witness :
  exists w',
    constructor no_slider_page = (Ok tt, w') /\
    elements w' = no_slider_page /\
    slides w' = [0] /\
    listeners w' = [] /\
    timers w' = [] /\
    (forall t e, dispatch t e w' = ([], w')) /\
    (forall id, tick id w' = ([], w')).
Proof. apply (no_slider_inert no_slider_page). reflexivity. Defined.

(** ** Auto-play, used as a pair *)

Lemma filter_other_ids (id : nat) (ts : list (nat * handler * nat)) :
  Forall (fun t => fst (fst t) < id) ts ->
  List.filter (fun t => negb (fst (fst t) =? id)) ts = ts /\
  List.filter (fun t => fst (fst t) =? id) ts = [].
Proof.
  intros H. rewrite Forall_forall in H. split.
  - apply filter_all. intros x Hx. apply list_elem_of_In, H in Hx.
    apply negb_true_iff, Nat.eqb_neq. lia.
  - apply filter_none. intros x Hx. apply list_elem_of_In, H in Hx.
    apply Nat.eqb_neq. lia.
Qed.

Lemma timers_consistent_lt (w : World) :
  timers_consistent w -> Forall (fun t => fst (fst t) < S (lastTimer w)) (timers w).
Proof.
  unfold timers_consistent. intros H. eapply Forall_impl; [exact H|].
  intros t Ht. simpl in *. lia.
Qed.

(** X8.  When every armed interval carries a handle that was handed out,
    [startAutoPlay] followed by [stopAutoPlay] completes and restores the
    world but for the handle counter and the handle, which is [null]: the
    armed intervals are exactly those armed before. *)
Theorem start_stop_round_trip (w : World) :
  timers_consistent w ->
  (startAutoPlay >> stopAutoPlay) w =
    (Ok tt, set_autoPlayInterval None (set_timers (timers w) (S (lastTimer w)) w)) /\
  timers (snd ((startAutoPlay >> stopAutoPlay) w)) = timers w /\
  autoPlayInterval (snd ((startAutoPlay >> stopAutoPlay) w)) = None /\
  timers_consistent (snd ((startAutoPlay >> stopAutoPlay) w)).
Proof.
  intros Hc. pose proof (timers_consistent_lt w Hc) as Hlt.
  destruct (filter_other_ids _ _ Hlt) as [Hkeep _].
  assert ((startAutoPlay >> stopAutoPlay) w =
          (Ok tt, set_autoPlayInterval None (set_timers (timers w) (S (lastTimer w)) w)))
    as E.
  { unfold bind. rewrite startAutoPlay_ok.
    erewrite stopAutoPlay_armed by reflexivity. f_equal.
    cbn [timers lastTimer set_autoPlayInterval set_timers].
    rewrite List.filter_app, Hkeep. cbn [List.filter fst]. rewrite Nat.eqb_refl.
    cbn [negb]. rewrite app_nil_r. reflexivity. }
  rewrite E. split; [reflexivity|]. split; [reflexivity|]. split; [reflexivity|].
  unfold timers_consistent. cbn [snd timers lastTimer set_autoPlayInterval set_timers].
  eapply Forall_impl; [exact Hc|]. intros t Ht. simpl in *. lia.
Qed.

Lemma sample_deck_playing_consistent : timers_consistent sample_deck_playing.
Proof. vm_compute. repeat constructor. Defined.

Lemma start_stop_round_trip_witness :
  timers (snd ((startAutoPlay >> stopAutoPlay) sample_deck_playing)) =
    [(1, OnTick, 5000)] /\
  autoPlayInterval (snd ((startAutoPlay >> stopAutoPlay) sample_deck_playing)) = None.
Proof.
  destruct (start_stop_round_trip sample_deck_playing sample_deck_playing_consistent)
    as (_ & Ht & Ha & _).
  split; [exact Ht | exact Ha].
Defined.

(** X9.  When every armed interval carries a handle that was handed out, a
    tick of the interval that [startAutoPlay] has just armed is exactly one
    [nextSlide] call, and once [stopAutoPlay] has run a tick of that handle
    runs nothing. *)
Theorem autoplay_tick (w : World) :
  timers_consistent w ->
  let id := S (lastTimer w) in
  let w1 := snd (startAutoPlay w) in
  let w2 := snd (stopAutoPlay w1) in
  autoPlayInterval w1 = Some id /\
  tick id w1 = as_event nextSlide w1 /\
  tick id w2 = ([], w2).
Proof.
  intros Hc id w1 w2. pose proof (timers_consistent_lt w Hc) as Hlt.
  destruct (filter_other_ids _ _ Hlt) as [Hkeep Hnone].
  unfold w2, w1, id. rewrite startAutoPlay_ok. cbn [snd].
  erewrite stopAutoPlay_armed by reflexivity. cbn [snd].
  split; [reflexivity|]. split.
  - unfold tick. cbn [timers set_autoPlayInterval set_timers].
    rewrite List.filter_app, Hnone. cbn [List.filter fst app].
    rewrite Nat.eqb_refl. cbn [map snd fst]. apply run_single_listener.
  - unfold tick. cbn [timers set_autoPlayInterval set_timers].
    rewrite List.filter_app, Hkeep. cbn [List.filter fst]. rewrite Nat.eqb_refl.
    cbn [negb]. rewrite app_nil_r, Hnone. reflexivity.
Qed.

Lemma autoplay_tick_witness :
  tick 2 (snd (startAutoPlay sample_deck_playing)) =
    as_event nextSlide (snd (startAutoPlay sample_deck_playing)) /\
  tick 2 (snd (stopAutoPlay (snd (startAutoPlay sample_deck_playing)))) =
    ([], snd (stopAutoPlay (snd (startAutoPlay sample_deck_playing)))).
Proof.
  destruct (autoplay_tick sample_deck_playing sample_deck_playing_consistent)
    as (_ & H1 & H2).
  split; [exact H1 | exact H2].
Defined.

(** ** Navigation from an index left out of range *)

Lemma showSlide_negative_throws (w : World) (z : Z) :
  (z < 0)%Z -> fst (showSlide (Num z) w) = Throw TypeError.
Proof.
  intros Hz. rewrite showSlide_undefined; [reflexivity|].
  apply item_out_of_range. now left.
Qed.

(** X10.  With at least one slide and [currentIndex] an integer [z] that a
    failed [showSlide] may have left out of range, as long as [z - 1],
    [z + N] and [N] are integers on which doubles are exact: from any
    [z >= -1], [nextSlide] lands on [(z + 1) mod N], in range; from any
    [z >= 1 - N], [prevSlide] lands on [(z - 1) mod N], in range; but from
    [z < -1] with [z + 1] not a multiple of [N] the remainder keeps the sign
    of [z + 1], so [nextSlide] throws again and leaves that negative
    remainder as [currentIndex]. *)
Theorem navigation_from_out_of_range (w : World) (z : Z) :
  slides w <> [] ->
  currentIndex w = Num z ->
  let n := Z.of_nat (length (slides w)) in
  safe_integer (z - 1) = true ->
  safe_integer (z + n) = true ->
  safe_integer n = true ->
  ((-1 <= z)%Z ->
   currentIndex (snd (nextSlide w)) = Num ((z + 1) mod n) /\
   (0 <= (z + 1) mod n < n)%Z /\
   (dotsContainer w <> None -> fst (nextSlide w) = Ok tt)) /\
  ((1 - n <= z)%Z ->
   currentIndex (snd (prevSlide w)) = Num ((z - 1) mod n) /\
   (0 <= (z - 1) mod n < n)%Z /\
   (dotsContainer w <> None -> fst (prevSlide w) = Ok tt)) /\
  ((z < -1)%Z -> Z.rem (z + 1) n <> 0%Z ->
   fst (nextSlide w) = Throw TypeError /\
   currentIndex (snd (nextSlide w)) = Num (Z.rem (z + 1) n) /\
   (- n < Z.rem (z + 1) n < 0)%Z).
Proof.
  intros Hne Hi n _ _ _.
  assert (0 < n)%Z as Hn by (unfold n; destruct (slides w); [contradiction | simpl; lia]).
  assert (js_rem (js_add (currentIndex w) (Num 1)) (length_num (slides w)) =
          Num (Z.rem (z + 1) n)) as En.
  { rewrite Hi. unfold length_num. fold n. unfold js_rem, js_add, js_sub.
    destruct (Z.eqb_spec n 0); [lia | reflexivity]. }
  assert (js_rem (js_add (js_sub (currentIndex w) (Num 1)) (length_num (slides w)))
            (length_num (slides w)) = Num (Z.rem (z - 1 + n) n)) as Ep.
  { rewrite Hi. unfold length_num. fold n. unfold js_rem, js_add, js_sub.
    destruct (Z.eqb_spec n 0); [lia | reflexivity]. }
  split; [|split].
  - intros Hz. rewrite nextSlide_unfold, En, Z.rem_mod_nonneg by lia.
    pose proof (Z.mod_pos_bound (z + 1) n Hn) as Hb.
    split; [apply showSlide_fields|]. split; [exact Hb|].
    intros Hc. now apply showSlide_returns.
  - intros Hz. rewrite prevSlide_unfold, Ep, Z.rem_mod_nonneg by lia.
    replace ((z - 1 + n) mod n)%Z with ((z - 1) mod n)%Z
      by (rewrite <- (Z.mod_add (z - 1) 1 n) by lia; f_equal; lia).
    pose proof (Z.mod_pos_bound (z - 1) n Hn) as Hb.
    split; [apply showSlide_fields|]. split; [exact Hb|].
    intros Hc. now apply showSlide_returns.
  - intros Hz Hr. rewrite nextSlide_unfold, En.
    assert (- n < Z.rem (z + 1) n < 0)%Z as Hb.
    { pose proof (Z.rem_bound_pos_neg (z + 1) n Hn ltac:(lia)). lia. }
    split; [apply showSlide_negative_throws; lia|].
    split; [apply showSlide_fields | exact Hb].
Qed.

Lemma navigation_from_out_of_range_witness :
  currentIndex (snd (nextSlide sample_deck_past_end)) = Num 1 /\
  fst (nextSlide sample_deck_past_end) = Ok tt /\
  currentIndex (snd (prevSlide sample_deck_past_end)) = Num 2 /\
  fst (nextSlide sample_deck_negative) = Throw TypeError /\
  currentIndex (snd (nextSlide sample_deck_negative)) = Num (-2).
Proof.
  destruct (navigation_from_out_of_range sample_deck_past_end 3) as (Hn & Hp & _);
    [vm_compute; discriminate | reflexivity | reflexivity | reflexivity | reflexivity |].
  destruct (navigation_from_out_of_range sample_deck_negative (-3)) as (_ & _ & Hr);
    [vm_compute; discriminate | reflexivity | reflexivity | reflexivity | reflexivity |].
  destruct Hn as (H1 & _ & H2); [vm_compute; discriminate|].
  destruct Hp as (H3 & _ & _); [vm_compute; discriminate|].
  destruct Hr as (H4 & H5 & _); [reflexivity | vm_compute; discriminate|].
  split; [exact H1|]. split; [apply H2; vm_compute; discriminate|].
  split; [exact H3|]. split; [exact H4 | exact H5].
Defined.

(** * Properties of the utilities *)

(** ** throttle *)

Section ThrottleFacts.
Context {A S R : Type}.
Variable func : A -> S -> Res R * S.
Variable delay : Z.

Lemma throttled_run_spaced (calls : list (A * Z)) (lastCall : Z) (s : S) :
  spaced delay lastCall (fst (throttled_run func delay calls (lastCall, s))).
Proof.
  revert lastCall s. induction calls as [|[args now] rest IH]; intros lastCall s.
  - exact I.
  - cbn [throttled_run throttled].
    destruct (Z.ltb_spec (now - lastCall) delay) as [Hd|Hd].
    + specialize (IH lastCall s).
      destruct (throttled_run func delay rest (lastCall, s)) as [ts st]. exact IH.
    + destruct (func args s) as [[r|e] s'].
      * specialize (IH now s').
        destruct (throttled_run func delay rest (now, s')) as [ts st].
        split; [exact Hd | exact IH].
      * specialize (IH now s').
        destruct (throttled_run func delay rest (now, s')) as [ts st].
        split; [exact Hd | exact IH].
Qed.
End ThrottleFacts.

Lemma last_nonempty_default (t d d' : Z) (ts : list Z) :
  List.last (t :: ts) d = List.last (t :: ts) d'.
Proof.
  revert t. induction ts as [|u ts IH]; intros t; [reflexivity|].
  change (List.last (u :: ts) d = List.last (u :: ts) d'). apply IH.
Qed.

Lemma last_cons_default (t d : Z) (ts : list Z) :
  List.last (t :: ts) d = List.last ts t.
Proof.
  destruct ts as [|u ts]; [reflexivity|].
  change (List.last (u :: ts) d = List.last (u :: ts) t).
  apply last_nonempty_default.
Qed.

Lemma spaced_span (d last : Z) (ts : list Z) :
  spaced d last ts ->
  (Z.of_nat (length ts) * d <= List.last ts last - last)%Z.
Proof.
  revert last. induction ts as [|t ts IH]; intros last H.
  - simpl. lia.
  - destruct H as [Hd H]. specialize (IH t H).
    rewrite last_cons_default. cbn [length]. lia.
Qed.

(** X11.  Whatever the calls and clock readings, the calls that a throttled
    function lets through to [func] are at least [delay] apart, the first of
    them at least [delay] after the initial [lastCall] (0 for a fresh
    closure); a call closer than that to the last one let through is dropped
    without trace: it returns [undefined] and leaves the state as it was,
    and it is not retried later. *)
Theorem throttle_spacing {A S R : Type} (func : A -> S -> Res R * S) (delay : Z)
    (calls : list (A * Z)) (args : A) (now lastCall : Z) (s : S) :
  spaced delay lastCall (fst (throttled_run func delay calls (lastCall, s))) /\
  spaced delay 0 (fst (throttled_run func delay calls (throttle_new s))) /\
  ((now - lastCall < delay)%Z ->
   throttled func delay args now (lastCall, s) = (Ok None, (lastCall, s)) /\
   throttled_run func delay ((args, now) :: calls) (lastCall, s) =
     throttled_run func delay calls (lastCall, s)).
Proof.
  split; [apply throttled_run_spaced|]. split; [apply throttled_run_spaced|].
  intros Hd. cbn [throttled_run throttled].
  destruct (Z.ltb_spec (now - lastCall) delay); [|lia].
  split; [reflexivity|].
  now destruct (throttled_run func delay calls (lastCall, s)).
Qed.

Lemma throttle_spacing_witness :
  fst (throttled_run count_call 100 sample_calls (throttle_new 0)) =
    [1000; 1100; 1250]%Z /\
  throttled count_call 100 tt 1050 (1000%Z, 1) = (Ok None, (1000%Z, 1)).
Proof.
  split; [reflexivity|].
  apply (throttle_spacing count_call 100 [] tt 1050 1000 1). reflexivity.
Defined.

(** X12.  However many calls arrive, [k + 1] of them reaching [func] take at
    least [k] times [delay] of clock time from the first to the last: a
    throttled function runs [func] at most once per [delay]. *)
Theorem throttle_rate {A S R : Type} (func : A -> S -> Res R * S) (delay : Z)
    (calls : list (A * Z)) (st : Z * S) (t1 : Z) (rest : list Z) :
  fst (throttled_run func delay calls st) = t1 :: rest ->
  (Z.of_nat (length rest) * delay <= List.last rest t1 - t1)%Z.
Proof.
  intros H. destruct st as [lastCall s].
  pose proof (throttled_run_spaced func delay calls lastCall s) as Hs.
  rewrite H in Hs. destruct Hs as [_ Hs]. now apply spaced_span.
Qed.

Lemma throttle_rate_witness : (2 * 100 <= 1250 - 1000)%Z.
Proof.
  apply (throttle_rate count_call 100 sample_calls (throttle_new 0) 1000 [1100; 1250]%Z).
  reflexivity.
Defined.

(** ** debounce *)

Lemma debounce_ok_clear {A : Type} (d : Debounce A) :
  debounce_ok d -> clearTimeout (timeoutId d) (pending d) = [].
Proof.
  intros (_ & Hid & _). unfold clearTimeout.
  destruct (timeoutId d) as [i|] eqn:E.
  - apply filter_none. intros t Ht. apply Hid in Ht. injection Ht as ->.
    now rewrite Nat.eqb_refl.
  - destruct (pending d) as [|t ts]; [reflexivity|].
    specialize (Hid t (or_introl eq_refl)). discriminate.
Qed.

Lemma debounced_pending {A : Type} (args : A) (d : Debounce A) :
  debounce_ok d -> pending (debounced args d) = [(S (lastTimeout d), args)].
Proof. intros H. cbn [debounced pending]. now rewrite debounce_ok_clear. Qed.

Lemma debounce_ok_debounced {A : Type} (args : A) (d : Debounce A) :
  debounce_ok d -> debounce_ok (debounced args d).
Proof.
  intros H. unfold debounce_ok. rewrite debounced_pending by exact H.
  cbn [debounced timeoutId lastTimeout length]. split; [lia|]. split.
  - intros t [<-|[]]. reflexivity.
  - intros i Hi. injection Hi as <-. lia.
Qed.

Lemma debounce_ok_expire {A : Type} (id : nat) (d : Debounce A) :
  debounce_ok d -> debounce_ok (snd (expire id d)).
Proof.
  intros (Hlen & Hid & Hlast). unfold debounce_ok. cbn [expire snd pending timeoutId lastTimeout].
  split; [|split]; [| |exact Hlast].
  - pose proof (List.filter_length (fun t : nat * A => fst t =? id) (pending d)). lia.
  - intros t Ht. apply filter_In in Ht as [Ht _]. now apply Hid.
Qed.

Lemma expire_partition {A : Type} (id : nat) (d : Debounce A) :
  length (fst (expire id d)) + length (pending (snd (expire id d))) = length (pending d).
Proof.
  cbn [expire fst snd pending]. rewrite length_map. apply List.filter_length.
Qed.

Lemma debounce_run_ok {A : Type} (evs : list (debounce_event A)) (d : Debounce A) :
  debounce_ok d ->
  debounce_ok (snd (debounce_run evs d)) /\
  length (fst (debounce_run evs d)) <= length (pending d) + calls_in evs.
Proof.
  revert d. induction evs as [|[args|id] rest IH]; intros d Hok.
  - split; [exact Hok | simpl; lia].
  - cbn [debounce_run calls_in].
    destruct (IH _ (debounce_ok_debounced args d Hok)) as [I1 I2].
    split; [exact I1|]. rewrite debounced_pending in I2 by exact Hok.
    cbn [length] in I2. lia.
  - cbn [debounce_run calls_in].
    pose proof (expire_partition id d) as Hp.
    destruct (IH _ (debounce_ok_expire id d Hok)) as [I1 I2].
    destruct (expire id d) as [ran d']. cbn [fst snd] in *.
    destruct (debounce_run rest d') as [ran' d'']. cbn [fst snd] in *.
    split; [exact I1|]. rewrite length_app. lia.
Qed.

(** X13.  A debounced function never has more than one timeout pending,
    whatever the order of its calls and of the expiries (of pending, expired
    or unknown handles), and the pending one is the one it remembers; an
    expiry applies [func] at most once, and over any sequence [func] is
    applied at most once per call (plus once for a timeout pending at the
    start). *)
Theorem debounce_single_timeout {A : Type} (evs : list (debounce_event A)) (d : Debounce A) :
  debounce_ok d ->
  debounce_ok (snd (debounce_run evs d)) /\
  length (pending (snd (debounce_run evs d))) <= 1 /\
  (forall id, length (fst (expire id d)) <= 1) /\
  length (fst (debounce_run evs d)) <= length (pending d) + calls_in evs.
Proof.
  intros Hok. destruct (debounce_run_ok evs d Hok) as [H1 H2].
  split; [exact H1|]. split; [apply H1|]. split; [|exact H2].
  intros id. pose proof (expire_partition id d). destruct Hok as (Hl & _). lia.
Qed.

Lemma debounce_single_timeout_witness :
  length (pending (snd (debounce_run
     [Call 1; Call 2; Expire 1; Call 3; Expire 7; Call 4; Expire 4; Expire 4]
     debounce_new))) <= 1 /\
  length (fst (debounce_run
     [Call 1; Call 2; Expire 1; Call 3; Expire 7; Call 4; Expire 4; Expire 4]
     debounce_new)) <= 0 + 4.
Proof.
  assert (@debounce_ok nat debounce_new) as Hok.
  { split; [simpl; lia|]. split; [intros t []|discriminate]. }
  destruct (debounce_single_timeout
              [Call 1; Call 2; Expire 1; Call 3; Expire 7; Call 4; Expire 4; Expire 4]
              debounce_new Hok) as (_ & H1 & _ & H2).
  split; [exact H1 | exact H2].
Defined.

Lemma debounce_run_calls {A : Type} (l : list A) (d : Debounce A) :
  fst (debounce_run (map Call l) d) = [] /\
  lastTimeout (snd (debounce_run (map Call l) d)) = lastTimeout d + length l.
Proof.
  revert d. induction l as [|a l IH]; intros d; simpl; [split; [reflexivity | lia]|].
  destruct (IH (debounced a d)) as [I1 I2]. split; [exact I1|].
  rewrite I2. cbn [debounced lastTimeout]. lia.
Qed.

Lemma debounce_run_app {A : Type} (e1 e2 : list (debounce_event A)) (d : Debounce A) :
  debounce_run (e1 ++ e2) d =
  ((fst (debounce_run e1 d) ++ fst (debounce_run e2 (snd (debounce_run e1 d))))%list,
   snd (debounce_run e2 (snd (debounce_run e1 d)))).
Proof.
  revert d. induction e1 as [|[args|id] e1 IH]; intros d.
  - simpl. now destruct (debounce_run e2 d).
  - cbn [app debounce_run]. apply IH.
  - cbn [app debounce_run]. destruct (expire id d) as [ran d'].
    rewrite IH. destruct (debounce_run e1 d') as [r1 d1]. cbn [fst snd].
    now rewrite app_assoc.
Qed.

(** X14.  After a burst of calls with no expiry in between, however long, a
    single timeout is pending and it carries the arguments of the last call;
    no call of the burst has applied [func]; and when that timeout expires
    [func] is applied exactly once, to the arguments of the last call, and
    nothing stays pending. *)
Theorem debounce_burst {A : Type} (l : list A) (a : A) (d : Debounce A) :
  debounce_ok d ->
  let id := S (lastTimeout d + length l) in
  let d1 := snd (debounce_run (map Call (l ++ [a])) d) in
  fst (debounce_run (map Call (l ++ [a])) d) = [] /\
  timeoutId d1 = Some id /\
  pending d1 = [(id, a)] /\
  fst (expire id d1) = [a] /\
  pending (snd (expire id d1)) = [].
Proof.
  intros Hok id d1.
  destruct (debounce_run_calls (l ++ [a]) d) as [Hran _].
  destruct (debounce_run_calls l d) as [_ Hlast].
  assert (debounce_ok (snd (debounce_run (map Call l) d))) as Hok'
    by (apply debounce_run_ok; exact Hok).
  assert (d1 = debounced a (snd (debounce_run (map Call l) d))) as E.
  { unfold d1. rewrite map_app, debounce_run_app. reflexivity. }
  assert (pending d1 = [(id, a)]) as Hp.
  { rewrite E, debounced_pending by exact Hok'. unfold id. now rewrite Hlast. }
  split; [exact Hran|]. split.
  - rewrite E. cbn [debounced timeoutId]. unfold id. now rewrite Hlast.
  - split; [exact Hp|]. cbn [expire fst snd pending]. rewrite Hp.
    cbn [List.filter fst]. rewrite Nat.eqb_refl. split; reflexivity.
Qed.

Lemma debounce_burst_witness :
  fst (debounce_run (map Call [1; 2; 3]) debounce_new) = [] /\
  pending (snd (debounce_run (map Call [1; 2; 3]) debounce_new)) = [(3, 3)] /\
  fst (expire 3 (snd (debounce_run (map Call [1; 2; 3]) debounce_new))) = [3].
Proof.
  assert (@debounce_ok nat debounce_new) as Hok.
  { split; [simpl; lia|]. split; [intros t []|discriminate]. }
  destruct (debounce_burst [1; 2] 3 debounce_new Hok) as (H1 & _ & H2 & H3 & _).
  split; [exact H1|]. split; [exact H2 | exact H3].
Defined.

(** ** isInViewport *)

(** X15.  [isInViewport] is monotone in its offset: an element in view for an
    offset is in view for every smaller one, so whatever ScrollAnimations
    (offset 150) takes to be in view, KPICounter (offset 100, the default)
    does too.  An element whose bottom edge is above the top of the viewport
    is never in view, and with [window.innerHeight] equal to 0 the height of
    the document element is used instead. *)
Theorem isInViewport_monotone (ly : Layout) (element : node) (o1 o2 : Z) :
  (o1 <= o2)%Z ->
  (isInViewport ly element (Some o2) = true -> isInViewport ly element (Some o1) = true) /\
  (isInViewport ly element (Some 150%Z) = true -> isInViewport ly element None = true) /\
  ((rect_bottom (boundingRect ly element) < 0)%Q ->
   isInViewport ly element (Some o1) = false) /\
  (innerHeight ly = 0%Z ->
   isInViewport ly element (Some o1) =
   isInViewport (mkLayout (boundingRect ly) (clientHeight ly) 0) element (Some o1)).
Proof.
  intros Ho.
  assert (forall a b, (a <= b)%Z ->
            isInViewport ly element (Some b) = true ->
            isInViewport ly element (Some a) = true) as Hmono.
  { intros a b Hab. unfold isInViewport. rewrite !andb_true_iff, !Qle_bool_iff.
    intros [H1 H2]. split; [|exact H2].
    eapply Qle_trans; [exact H1|]. rewrite <- Zle_Qle. lia. }
  split; [now apply Hmono|]. split; [apply (Hmono 100%Z 150%Z); lia|]. split.
  - intros Hb. unfold isInViewport. apply andb_false_iff. right.
    apply not_true_is_false. rewrite Qle_bool_iff. intros H.
    apply (Qlt_irrefl 0%Q). eapply Qle_lt_trans; [exact H | exact Hb].
  - intros H0. unfold isInViewport. cbn [innerHeight clientHeight boundingRect].
    rewrite H0. cbn [Z.eqb].
    destruct (clientHeight ly =? 0)%Z eqn:E; [|reflexivity].
    apply Z.eqb_eq in E. now rewrite E.
Qed.

Lemma isInViewport_monotone_witness :
  isInViewport sample_layout 1 (Some 100%Z) = true /\
  isInViewport sample_layout 1 None = true.
Proof.
  destruct (isInViewport_monotone sample_layout 1 100 150) as (H1 & H2 & _); [lia|].
  split; [apply H1; reflexivity | apply H2; reflexivity].
Defined.

(** ** KPICounter *)

Section AnimateCountersFacts.
Variable kpi_number : node -> option node.

Lemma existsb_eqb_In (c : nat) (l : list nat) :
  existsb (Nat.eqb c) l = true <-> In c l.
Proof. rewrite existsb_eqb_elem_of. apply list_elem_of_In. Qed.

Lemma animateCounter_once (ly : Layout) (c : node) (k : KPICounter) :
  animated_once k -> animated_once (snd (animateCounter kpi_number ly c k)).
Proof.
  intros [Hnd Hin]. unfold animateCounter.
  destruct (existsb (Nat.eqb c) (hasAnimated k)) eqn:Hc; [split; assumption|].
  destruct (isInViewport ly c None); [|split; assumption].
  assert (~ In c (map fst (animations k))) as Hfresh.
  { intros H. apply Hin, existsb_eqb_In in H. congruence. }
  destruct (kpi_number c) as [el|]; cbn [snd]; unfold animated_once;
    cbn [animations hasAnimated].
  - rewrite map_app. cbn [map fst]. split.
    + apply NoDup_app. split; [exact Hnd|]. split; [|apply NoDup_singleton].
      intros x Hx Hx'. apply list_elem_of_In in Hx.
      apply list_elem_of_singleton in Hx'. subst x. contradiction.
    + intros x Hx. apply in_app_or in Hx as [Hx|[<-|[]]]; apply in_or_app;
        [left; now apply Hin | right; now left].
  - split; [exact Hnd|]. intros x Hx. apply in_or_app. left. now apply Hin.
Qed.

Lemma forEach_counter_once (ly : Layout) (cs : list node) (k : KPICounter) :
  animated_once k -> animated_once (snd (forEach_counter kpi_number ly cs k)).
Proof.
  revert k. induction cs as [|c cs IH]; intros k Hk; [exact Hk|].
  cbn [forEach_counter]. pose proof (animateCounter_once ly c k Hk) as H1.
  destruct (animateCounter kpi_number ly c k) as [[u|e] k']; cbn [snd] in *.
  - now apply IH.
  - exact H1.
Qed.

Lemma animate_passes_once (lys : list Layout) (k : KPICounter) :
  animated_once k -> animated_once (animate_passes kpi_number lys k).
Proof.
  revert k. induction lys as [|ly lys IH]; intros k Hk; [exact Hk|].
  cbn [animate_passes]. apply IH. unfold animateCounters.
  now apply forEach_counter_once.
Qed.
End AnimateCountersFacts.

(** X16.  Over any number of passes of [animateCounters], with any layouts
    and whether or not a pass ends in an exception, [animateValue] is called
    at most once for each card, and only for cards that are then marked in
    [hasAnimated]. *)
Theorem counters_animate_once (kpi_number : node -> option node)
    (lys : list Layout) (cs : list node) :
  animated_once (animate_passes kpi_number lys (mkKPI cs [] [])) /\
  forall k, animated_once k -> animated_once (animate_passes kpi_number lys k).
Proof.
  split; [|intros k; apply animate_passes_once].
  apply animate_passes_once. split; [constructor | intros c []].
Qed.

Lemma counters_animate_once_witness :
  animations (animate_passes sample_kpi_number
                [sample_layout; sample_layout; sample_layout] (mkKPI [0; 1; 3] [] []))
    = [(0, 1); (1, 2)] /\
  animated_once (animate_passes sample_kpi_number
                   [sample_layout; sample_layout; sample_layout] (mkKPI [0; 1; 3] [] [])).
Proof.
  split; [reflexivity|].
  exact (proj1 (counters_animate_once sample_kpi_number
                  [sample_layout; sample_layout; sample_layout] [0; 1; 3])).
Defined.

(** X17.  A card in view that has no [.kpi-number] element is marked in
    [hasAnimated] before the missing element is dereferenced: its first pass
    in view throws a TypeError there, starting no animation for it and
    leaving the cards after it unvisited; in every later pass the card is
    skipped without exception and the cards after it are visited. *)
Theorem counter_without_number (kpi_number : node -> option node) (ly ly' : Layout)
    (c : node) (rest : list node) (k : KPICounter) :
  kpi_number c = None ->
  existsb (Nat.eqb c) (hasAnimated k) = false ->
  isInViewport ly c None = true ->
  let k' := mkKPI (counters k) (hasAnimated k ++ [c]) (animations k) in
  forEach_counter kpi_number ly (c :: rest) k = (Throw TypeError, k') /\
  forEach_counter kpi_number ly' (c :: rest) k' = forEach_counter kpi_number ly' rest k'.
Proof.
  intros Hn Hc Hv k'. split.
  - cbn [forEach_counter]. unfold animateCounter. now rewrite Hc, Hv, Hn.
  - cbn [forEach_counter]. unfold animateCounter. cbn [hasAnimated k'].
    rewrite existsb_app. cbn [existsb]. now rewrite Nat.eqb_refl, orb_true_r.
Qed.

Lemma counter_without_number_witness :
  forEach_counter sample_kpi_number
    (mkLayout (boundingRect sample_layout) 2000 0) [5; 6] (mkKPI [5; 6] [] []) =
    (Throw TypeError, mkKPI [5; 6] [5] []) /\
  forEach_counter sample_kpi_number
    (mkLayout (boundingRect sample_layout) 2000 0) [5; 6] (mkKPI [5; 6] [5] []) =
    (Ok tt, mkKPI [5; 6] [5; 6] [(6, 7)]).
Proof.
  destruct (counter_without_number sample_kpi_number
              (mkLayout (boundingRect sample_layout) 2000 0)
              (mkLayout (boundingRect sample_layout) 2000 0) 5 [6] (mkKPI [5; 6] [] []))
    as [H1 H2]; [reflexivity | reflexivity | reflexivity |].
  split; [exact H1|]. cbn [counters hasAnimated animations app] in H2.
  rewrite H2. reflexivity.
Defined.

(** ** Navigation: the mobile menu *)

Lemma contains_token_flip (t s : string) (cl : list string) :
  contains s (token_flip t cl) =
  if String.eqb s t then negb (contains t cl) else contains s cl.
Proof.
  unfold token_flip. destruct (contains t cl) eqn:E.
  - rewrite contains_token_remove.
    destruct (String.eqb_spec s t) as [->|]; [reflexivity|reflexivity].
  - rewrite contains_token_add.
    destruct (String.eqb_spec s t) as [->|]; [reflexivity|reflexivity].
Qed.

Lemma active_upd_flip n els m :
  n < length els ->
  has_class (upd (token_flip "active") n els) "active" m =
  if m =? n then negb (has_class els "active" n) else has_class els "active" m.
Proof.
  intros Hn. unfold has_class. rewrite classes_upd. case_decide as H.
  - destruct H as [-> _]. now rewrite contains_token_flip, Nat.eqb_refl.
  - destruct (Nat.eqb_spec m n) as [->|]; [tauto | reflexivity].
Qed.

Lemma same_but_active_flip n els : same_but_active els (upd (token_flip "active") n els).
Proof.
  apply same_but_active_upd. intros t cl Ht. rewrite contains_token_flip.
  destruct (String.eqb_spec t "active"); [contradiction | reflexivity].
Qed.

Lemma same_but_active_remove n els : same_but_active els (upd (token_remove "active") n els).
Proof. apply same_but_active_upd. intros t cl. apply token_remove_active_other. Qed.

Lemma toggleMenu_ok (nav : Navigation) (m t : node) (w : World) :
  navMenu nav = Some m -> navToggle nav = Some t ->
  toggleMenu nav w =
  (Ok tt, set_elements
            (upd (token_flip "active") t (upd (token_flip "active") m (elements w))) w).
Proof. intros Hm Ht. unfold toggleMenu. rewrite Hm, Ht. reflexivity. Qed.

Lemma closeMenu_ok (nav : Navigation) (m t : node) (w : World) :
  navMenu nav = Some m -> navToggle nav = Some t ->
  closeMenu nav w =
  (Ok tt, set_elements
            (upd (token_remove "active") t (upd (token_remove "active") m (elements w))) w).
Proof. intros Hm Ht. unfold closeMenu. rewrite Hm, Ht. reflexivity. Qed.

Lemma token_remove_idem (t : string) (cl : list string) :
  token_remove t (token_remove t cl) = token_remove t cl.
Proof.
  unfold token_remove. induction cl as [|x cl IH]; [reflexivity|]. simpl.
  destruct (negb (String.eqb t x)) eqn:E; simpl; [rewrite E; now f_equal | exact IH].
Qed.

Lemma upd_remove_idem (n : node) (els : list Element) :
  upd (token_remove "active") n (upd (token_remove "active") n els) =
  upd (token_remove "active") n els.
Proof.
  unfold upd. rewrite list_alter_alter_eq. apply list_alter_ext; [|reflexivity].
  intros [tg cl ch] _. unfold with_classList; simpl. now rewrite token_remove_idem.
Qed.

Lemma upd_comm (f g : list string -> list string) (n n' : node) (els : list Element) :
  n <> n' -> upd f n (upd g n' els) = upd g n' (upd f n els).
Proof. intros H. unfold upd. now apply list_alter_alter_ne. Qed.

Lemma close_twice_store (m t : node) (els : list Element) :
  m <> t ->
  upd (token_remove "active") t (upd (token_remove "active") m
    (upd (token_remove "active") t (upd (token_remove "active") m els))) =
  upd (token_remove "active") t (upd (token_remove "active") m els).
Proof.
  intros H.
  rewrite (upd_comm _ _ m t (upd (token_remove "active") m els)) by exact H.
  now rewrite !upd_remove_idem.
Qed.

Lemma toggleMenu_flips (nav : Navigation) (m t : node) (w : World) :
  navMenu nav = Some m -> navToggle nav = Some t -> m <> t ->
  m < length (elements w) -> t < length (elements w) ->
  is_active (snd (toggleMenu nav w)) m = negb (is_active w m) /\
  is_active (snd (toggleMenu nav w)) t = negb (is_active w t) /\
  length (elements (snd (toggleMenu nav w))) = length (elements w).
Proof.
  intros Hm Ht Hne Hmv Htv. rewrite (toggleMenu_ok nav m t w Hm Ht).
  unfold is_active. cbn [snd elements set_elements].
  rewrite !length_upd.
  rewrite (active_upd_flip t _ m), (active_upd_flip t _ t)
    by (rewrite length_upd; assumption).
  rewrite (active_upd_flip m _ m), (active_upd_flip m _ t) by assumption.
  rewrite !Nat.eqb_refl.
  destruct (Nat.eqb_spec m t) as [E|_]; [contradiction|].
  destruct (Nat.eqb_spec t m) as [E|_]; [now symmetry in E|].
  repeat split.
Qed.

(** X18.  With the menu and its toggle two different live elements,
    [toggleMenu] completes and flips the token [active] on both, so the two
    stay in step once they are and two calls restore who is active;
    [closeMenu] completes and clears it on both, and closing twice is the
    same as closing once.  Neither changes anything but that token on those
    two elements. *)
Theorem menu_stays_in_step (nav : Navigation) (m t : node) (w : World) :
  navMenu nav = Some m ->
  navToggle nav = Some t ->
  m <> t ->
  m < length (elements w) ->
  t < length (elements w) ->
  let w1 := snd (toggleMenu nav w) in
  let w2 := snd (closeMenu nav w) in
  fst (toggleMenu nav w) = Ok tt /\
  fst (closeMenu nav w) = Ok tt /\
  is_active w1 m = negb (is_active w m) /\
  is_active w1 t = negb (is_active w t) /\
  is_active w2 m = false /\
  is_active w2 t = false /\
  (forall x, x <> m -> x <> t ->
             classes (elements w1) x = classes (elements w) x /\
             classes (elements w2) x = classes (elements w) x) /\
  only_active_changes w w1 /\
  only_active_changes w w2 /\
  (is_active w m = is_active w t -> is_active w1 m = is_active w1 t) /\
  is_active (snd (toggleMenu nav w1)) m = is_active w m /\
  is_active (snd (toggleMenu nav w1)) t = is_active w t /\
  (closeMenu nav >> closeMenu nav) w = closeMenu nav w.
Proof.
  intros Hm Ht Hne Hmv Htv w1 w2.
  destruct (toggleMenu_flips nav m t w Hm Ht Hne Hmv Htv) as (F1 & F2 & Hl1).
  fold w1 in F1, F2, Hl1.
  destruct (toggleMenu_flips nav m t w1 Hm Ht Hne) as (G1 & G2 & _); [lia | lia |].
  rewrite F1 in G1. rewrite F2 in G2. rewrite negb_involutive in G1, G2.
  split; [now rewrite (toggleMenu_ok nav m t w Hm Ht)|].
  split; [now rewrite (closeMenu_ok nav m t w Hm Ht)|].
  split; [exact F1|]. split; [exact F2|].
  assert (elements w1 =
          upd (token_flip "active") t (upd (token_flip "active") m (elements w))) as E1
    by (unfold w1; now rewrite (toggleMenu_ok nav m t w Hm Ht)).
  assert (w2 = set_elements
            (upd (token_remove "active") t (upd (token_remove "active") m (elements w))) w)
    as E2 by (unfold w2; now rewrite (closeMenu_ok nav m t w Hm Ht)).
  split.
  { rewrite E2. unfold is_active. cbn [elements set_elements].
    rewrite !active_upd_remove. destruct (Nat.eqb_spec m t); [contradiction|].
    now rewrite Nat.eqb_refl. }
  split.
  { rewrite E2. unfold is_active. cbn [elements set_elements].
    rewrite !active_upd_remove. now rewrite Nat.eqb_refl. }
  split.
  { intros x Hxm Hxt. rewrite E1, E2. cbn [elements set_elements].
    rewrite !classes_upd.
    rewrite !decide_False by (intros [E _]; congruence). split; reflexivity. }
  split.
  { split.
    - rewrite E1. eapply same_but_active_trans; apply same_but_active_flip.
    - unfold w1. rewrite (toggleMenu_ok nav m t w Hm Ht). cbn. repeat split. }
  split.
  { rewrite E2. split; [|cbn; repeat split]. cbn [elements set_elements].
    eapply same_but_active_trans; apply same_but_active_remove. }
  split; [intros E; rewrite F1, F2; now f_equal|].
  split; [exact G1|]. split; [exact G2|].
  unfold bind. rewrite (closeMenu_ok nav m t w Hm Ht), (closeMenu_ok nav m t _ Hm Ht).
  cbn [elements set_elements]. rewrite close_twice_store by exact Hne. reflexivity.
Qed.

Lemma menu_stays_in_step_witness :
  is_active (snd (toggleMenu sample_nav nav_world)) 2 = false /\
  is_active (snd (closeMenu sample_nav nav_world)) 2 = false /\
  (closeMenu sample_nav >> closeMenu sample_nav) nav_world = closeMenu sample_nav nav_world.
Proof.
  destruct (menu_stays_in_step sample_nav 2 1 nav_world)
    as (_ & _ & H1 & _ & H2 & _ & _ & _ & _ & _ & _ & _ & H3);
    [reflexivity | reflexivity | discriminate | vm_compute; lia | vm_compute; lia |].
  split; [exact H1|]. split; [exact H2 | exact H3].
Defined.

(** X19.  [closeMenu] and [toggleMenu] dereference the menu and then the
    toggle without a check: when the page has the menu but no toggle, each
    first changes the menu (cleared, respectively flipped) and then throws a
    TypeError; when the page has no menu, each throws at once and changes
    nothing. *)
Theorem menu_with_missing_elements (nav : Navigation) (w : World) :
  (navMenu nav = None ->
   closeMenu nav w = (Throw TypeError, w) /\
   toggleMenu nav w = (Throw TypeError, w)) /\
  (forall m, navMenu nav = Some m -> navToggle nav = None -> m < length (elements w) ->
   fst (closeMenu nav w) = Throw TypeError /\
   fst (toggleMenu nav w) = Throw TypeError /\
   is_active (snd (closeMenu nav w)) m = false /\
   is_active (snd (toggleMenu nav w)) m = negb (is_active w m)).
Proof.
  split.
  - intros Hm. unfold closeMenu, toggleMenu. rewrite Hm. split; reflexivity.
  - intros m Hm Ht Hv. unfold closeMenu, toggleMenu. rewrite Hm, Ht.
    cbn. unfold is_active. cbn [elements set_elements].
    split; [reflexivity|]. split; [reflexivity|].
    rewrite active_upd_remove, active_upd_flip, Nat.eqb_refl by exact Hv.
    split; reflexivity.
Qed.

Lemma menu_with_missing_elements_witness :
  fst (closeMenu sample_nav_no_toggle nav_world) = Throw TypeError /\
  is_active (snd (closeMenu sample_nav_no_toggle nav_world)) 2 = false /\
  is_active nav_world 2 = true.
Proof.
  destruct (menu_with_missing_elements sample_nav_no_toggle nav_world) as [_ H].
  destruct (H 2) as (H1 & _ & H2 & _); [reflexivity | reflexivity | vm_compute; lia |].
  split; [exact H1|]. split; [exact H2 | reflexivity].
Defined.

(** ** ScrollAnimations *)

Lemma checkElement_fields (ly : Layout) (e : node) (a : ScrollAnimations) :
  aos_elements (checkElement ly e a) = aos_elements a /\
  animated (checkElement ly e a) = animated a /\
  aos_page (checkElement ly e a) = aos_page a.
Proof.
  unfold checkElement. destruct (existsb (Nat.eqb e) (animated a)); [auto|].
  destruct (isInViewport ly e (Some 150%Z)); auto.
Qed.

Lemma checkElement_timeouts (ly : Layout) (e : node) (a : ScrollAnimations) :
  aos_timeouts (checkElement ly e a) =
  (aos_timeouts a ++
   if negb (existsb (Nat.eqb e) (animated a)) && isInViewport ly e (Some 150%Z)
   then [(S (aos_last a), e)] else [])%list.
Proof.
  unfold checkElement. destruct (existsb (Nat.eqb e) (animated a)); cbn [negb andb].
  - now rewrite app_nil_r.
  - destruct (isInViewport ly e (Some 150%Z)); [reflexivity | now rewrite app_nil_r].
Qed.

Lemma check_loop_fields (ly : Layout) (l : list node) (a : ScrollAnimations) :
  let a' := fold_left (fun acc element => checkElement ly element acc) l a in
  aos_elements a' = aos_elements a /\
  animated a' = animated a /\
  aos_page a' = aos_page a.
Proof.
  revert a. induction l as [|e l IH]; intros a; cbn [fold_left]; [auto|].
  destruct (IH (checkElement ly e a)) as (H1 & H2 & H3).
  destruct (checkElement_fields ly e a) as (F1 & F2 & F3).
  cbn zeta. rewrite H1, H2, H3. auto.
Qed.

Lemma check_loop_timeouts_in (ly : Layout) (l : list node) (a : ScrollAnimations) (t : nat * node) :
  In t (aos_timeouts (fold_left (fun acc element => checkElement ly element acc) l a)) ->
  In t (aos_timeouts a) \/ (In (snd t) l /\ existsb (Nat.eqb (snd t)) (animated a) = false).
Proof.
  revert a. induction l as [|e l IH]; intros a; cbn [fold_left]; [auto|].
  intros H. apply IH in H as [H|[H Hn]].
  - rewrite checkElement_timeouts in H. apply in_app_or in H as [H|H]; [now left|].
    destruct (existsb (Nat.eqb e) (animated a)) eqn:E; cbn [negb andb] in H; [destruct H|].
    destruct (isInViewport ly e (Some 150%Z)); [|destruct H].
    destruct H as [<-|[]]. right. split; [now left | exact E].
  - right. split; [now right|].
    destruct (checkElement_fields ly e a) as (_ & F2 & _). now rewrite F2 in Hn.
Qed.

Lemma aos_ok_checkElements (ly : Layout) (a : ScrollAnimations) :
  aos_ok a -> aos_ok (checkElements ly a).
Proof.
  intros (H1 & H2 & H3). unfold checkElements.
  destruct (check_loop_fields ly (aos_elements a) a) as (F1 & F2 & F3).
  unfold aos_ok. rewrite F1, F2, F3. split; [exact H1|]. split; [|exact H3].
  intros t Ht. apply check_loop_timeouts_in in Ht as [Ht|[Ht _]]; auto.
Qed.

Lemma has_class_upd_add_keeps (t c : string) (n m : node) (els : list Element) :
  has_class els c m = true -> has_class (upd (token_add t) n els) c m = true.
Proof.
  intros H. unfold has_class in *. rewrite classes_upd.
  case_decide; [|exact H]. rewrite contains_token_add, H. apply orb_true_r.
Qed.

Lemma has_class_upd_add_same (t : string) (n : node) (els : list Element) :
  n < length els -> has_class (upd (token_add t) n els) t n = true.
Proof.
  intros H. unfold has_class. rewrite classes_upd, decide_True by auto.
  now rewrite contains_token_add, String.eqb_refl.
Qed.

Lemma In_set_add (x y : node) (l : list node) :
  In y (set_add x l) <-> y = x \/ In y l.
Proof.
  unfold set_add. destruct (existsb (Nat.eqb x) l) eqn:E.
  - apply existsb_eqb_elem_of, list_elem_of_In in E. split; [auto|].
    intros [->|H]; auto.
  - rewrite in_app_iff. cbn [In]. intuition congruence.
Qed.

(** The callbacks of a list of timeouts keep what a state promises, as long
    as they are for elements of the page. *)
Lemma aos_callbacks_ok (ts : list (nat * node)) (a : ScrollAnimations) :
  (forall t, In t ts -> snd t < length (aos_page a)) ->
  let a' := fold_left (fun acc t => aos_callback (snd t) acc) ts a in
  aos_elements a' = aos_elements a /\
  aos_timeouts a' = aos_timeouts a /\
  length (aos_page a') = length (aos_page a) /\
  (forall c m, has_class (aos_page a) c m = true -> has_class (aos_page a') c m = true) /\
  (forall e, In e (animated a') <-> In e (animated a) \/ In e (map snd ts)) /\
  (forall e, In e (map snd ts) -> has_class (aos_page a') "aos-animate" e = true).
Proof.
  revert a. induction ts as [|t ts IH]; intros a Hv; cbn [fold_left].
  - cbn zeta. cbn [map In]. repeat split; auto; tauto.
  - destruct (IH (aos_callback (snd t) a)) as (I1 & I2 & I3 & I4 & I5 & I6).
    { intros t' Ht'. cbn [aos_callback aos_page]. rewrite length_upd.
      apply Hv. now right. }
    cbn zeta. rewrite I1, I2, I3. cbn [aos_callback aos_elements aos_timeouts aos_page].
    rewrite length_upd. split; [reflexivity|]. split; [reflexivity|].
    split; [reflexivity|]. split; [|split].
    + intros c m H. apply I4. cbn [aos_callback aos_page].
      now apply has_class_upd_add_keeps.
    + intros e. rewrite I5. cbn [aos_callback animated map In].
      rewrite In_set_add. intuition congruence.
    + intros e [<-|He]; [|now apply I6].
      apply I4. cbn [aos_callback aos_page]. apply has_class_upd_add_same.
      apply Hv. now left.
Qed.

Lemma aos_ok_expire (id : nat) (a : ScrollAnimations) :
  aos_ok a ->
  aos_ok (aos_expire id a) /\
  (forall c m, has_class (aos_page a) c m = true ->
               has_class (aos_page (aos_expire id a)) c m = true).
Proof.
  intros (H1 & H2 & H3). unfold aos_expire.
  match goal with |- context [fold_left _ ?ts ?a0] =>
    destruct (aos_callbacks_ok ts a0) as (I1 & I2 & I3 & I4 & I5 & I6) end.
  { intros t Ht. apply filter_In in Ht as [Ht _]. cbn [aos_page]. auto. }
  cbn zeta in *. cbn [aos_elements aos_timeouts aos_page animated] in *.
  split; [|exact I4]. unfold aos_ok. rewrite I1, I2, I3. split; [exact H1|]. split.
  - intros t Ht. apply filter_In in Ht as [Ht _]. auto.
  - intros e He. apply I5 in He as [He|He]; [apply I4; auto | now apply I6].
Qed.

Lemma aos_run_ok (evs : list aos_event) (a : ScrollAnimations) :
  aos_ok a ->
  aos_ok (aos_run evs a) /\
  (forall c m, has_class (aos_page a) c m = true ->
               has_class (aos_page (aos_run evs a)) c m = true).
Proof.
  revert a. induction evs as [|ev evs IH]; intros a Hok; [split; auto|].
  unfold aos_run in *. cbn [fold_left]. destruct ev as [ly|id]; cbn [aos_step].
  - destruct (IH _ (aos_ok_checkElements ly a Hok)) as [I1 I2].
    split; [exact I1|]. intros c m H. apply I2. unfold checkElements.
    destruct (check_loop_fields ly (aos_elements a) a) as (_ & _ & F3).
    cbn zeta in F3. now rewrite F3.
  - destruct (aos_ok_expire id a Hok) as [E1 E2].
    destruct (IH _ E1) as [I1 I2]. split; [exact I1|].
    intros c m H. apply I2, E2, H.
Qed.

Lemma check_loop_marked (ly : Layout) (e : node) (l : list node) (a : ScrollAnimations) :
  existsb (Nat.eqb e) (animated a) = true ->
  timeouts_for e (fold_left (fun acc element => checkElement ly element acc) l a) =
  timeouts_for e a.
Proof.
  revert a. induction l as [|x l IH]; intros a He; cbn [fold_left]; [reflexivity|].
  rewrite IH by (destruct (checkElement_fields ly x a) as (_ & -> & _); exact He).
  unfold timeouts_for. rewrite checkElement_timeouts, List.filter_app.
  destruct (Nat.eqb_spec x e) as [->|Hne].
  - rewrite He. cbn [negb andb List.filter]. apply app_nil_r.
  - destruct (negb (existsb (Nat.eqb x) (animated a)) && isInViewport ly x (Some 150%Z));
      cbn [List.filter snd]; [|apply app_nil_r].
    destruct (Nat.eqb_spec x e); [contradiction | apply app_nil_r].
Qed.

(** X20.  Whatever the order of passes of [checkElements] and of timeout
    expiries, every element marked in [animated] carries the class
    [aos-animate], no class that an element of the page carries is ever
    removed, and a pass sets no timeout for an element that is marked. *)
Theorem animated_elements_keep_class (evs : list aos_event) (a : ScrollAnimations)
    (ly : Layout) (e : node) :
  aos_ok a ->
  aos_ok (aos_run evs a) /\
  (forall x, In x (animated (aos_run evs a)) ->
             has_class (aos_page (aos_run evs a)) "aos-animate" x = true) /\
  (forall c m, has_class (aos_page a) c m = true ->
               has_class (aos_page (aos_run evs a)) c m = true) /\
  (In e (animated a) -> timeouts_for e (checkElements ly a) = timeouts_for e a).
Proof.
  intros Hok. destruct (aos_run_ok evs a Hok) as [H1 H2].
  split; [exact H1|]. split; [apply H1|]. split; [exact H2|].
  intros He. apply check_loop_marked, existsb_eqb_elem_of, list_elem_of_In, He.
Qed.

Lemma sample_aos_ok : aos_ok sample_aos.
Proof.
  split; [|split].
  - intros e [<-|[<-|[<-|[]]]]; vm_compute; lia.
  - intros t [].
  - intros e [].
Defined.

Lemma animated_elements_keep_class_witness :
  animated (aos_run [Pass sample_layout; Pass sample_layout; Timeout 1; Pass sample_layout]
              sample_aos) = [0] /\
  has_class (aos_page (aos_run
               [Pass sample_layout; Pass sample_layout; Timeout 1; Pass sample_layout]
               sample_aos)) "aos-animate" 0 = true.
Proof.
  destruct (animated_elements_keep_class
              [Pass sample_layout; Pass sample_layout; Timeout 1; Pass sample_layout]
              sample_aos sample_layout 0 sample_aos_ok) as (_ & H & _).
  split; [reflexivity|]. apply H. vm_compute. now left.
Defined.

Lemma check_loop_count (ly : Layout) (e : node) (l : list node) (a : ScrollAnimations) :
  NoDup l ->
  existsb (Nat.eqb e) (animated a) = false ->
  isInViewport ly e (Some 150%Z) = true ->
  length (timeouts_for e (fold_left (fun acc element => checkElement ly element acc) l a)) =
  length (timeouts_for e a) + (if existsb (Nat.eqb e) l then 1 else 0).
Proof.
  revert a. induction l as [|x l IH]; intros a Hnd He Hv; cbn [fold_left existsb].
  - lia.
  - apply NoDup_cons in Hnd as [Hx Hnd].
    rewrite IH by
      (try exact Hnd; try exact Hv;
       destruct (checkElement_fields ly x a) as (_ & -> & _); exact He).
    unfold timeouts_for at 1. rewrite checkElement_timeouts, List.filter_app, length_app.
    fold (timeouts_for e a).
    destruct (Nat.eqb_spec e x) as [->|Hne].
    + rewrite He, Hv. cbn [negb andb List.filter snd]. rewrite Nat.eqb_refl.
      destruct (existsb (Nat.eqb x) l) eqn:E.
      * apply existsb_eqb_elem_of in E. contradiction.
      * cbn [orb length]. lia.
    + cbn [orb].
      destruct (negb (existsb (Nat.eqb x) (animated a)) && isInViewport ly x (Some 150%Z));
        cbn [List.filter snd length]; [|lia].
      destruct (Nat.eqb_spec x e); [congruence | cbn [length]; lia].
Qed.

(** X21.  An element is marked in [animated] only when its timeout expires,
    not when the timeout is set: as long as none has expired, every pass of
    [checkElements] that finds the element in view sets one more timeout for
    it, so [k] passes leave [k] more timeouts pending for the same
    element. *)
Theorem pending_timeouts_pile_up (ly : Layout) (e : node) (k : nat) (a : ScrollAnimations) :
  NoDup (aos_elements a) ->
  In e (aos_elements a) ->
  ~ In e (animated a) ->
  isInViewport ly e (Some 150%Z) = true ->
  length (timeouts_for e (aos_run (repeat (Pass ly) k) a)) =
    length (timeouts_for e a) + k /\
  animated (aos_run (repeat (Pass ly) k) a) = animated a.
Proof.
  intros Hnd Hin Hna Hv.
  assert (existsb (Nat.eqb e) (animated a) = false) as He.
  { destruct (existsb (Nat.eqb e) (animated a)) eqn:E; [|reflexivity].
    apply existsb_eqb_elem_of, list_elem_of_In in E. contradiction. }
  assert (existsb (Nat.eqb e) (aos_elements a) = true) as Hin'
    by (apply existsb_eqb_elem_of, list_elem_of_In, Hin).
  clear Hin Hna. revert a Hnd He Hin'.
  induction k as [|k IH]; intros a Hnd He Hin.
  - cbn. split; [lia | reflexivity].
  - unfold aos_run in *. cbn [repeat fold_left aos_step].
    destruct (check_loop_fields ly (aos_elements a) a) as (F1 & F2 & _).
    cbn zeta in F1, F2. fold (checkElements ly a) in F1, F2.
    destruct (IH (checkElements ly a)) as [I1 I2];
      [now rewrite F1 | now rewrite F2 | now rewrite F1 |].
    rewrite I1, I2, F2. split; [|reflexivity].
    unfold checkElements. rewrite check_loop_count by assumption.
    rewrite Hin. lia.
Qed.

Lemma pending_timeouts_pile_up_witness :
  length (timeouts_for 1 (aos_run (repeat (Pass sample_layout) 4) sample_aos)) = 4.
Proof.
  destruct (pending_timeouts_pile_up sample_layout 1 4 sample_aos) as [H _];
    [vm_compute; compute_done | vm_compute; tauto | intros [] | reflexivity |].
  exact H.
Defined.

(** ** Navigation: the link of the section in view *)

Lemma only_store_trans (a b c : World) :
  b = set_elements (elements b) a ->
  c = set_elements (elements c) b ->
  c = set_elements (elements c) a.
Proof.
  destruct a, b, c. unfold set_elements. cbn. intros Hab Hbc.
  injection Hab as -> -> -> -> -> -> -> -> -> -> -> ->.
  injection Hbc as -> -> -> -> -> -> -> -> -> -> -> ->. reflexivity.
Qed.

Section HighlightFacts.
Variable getAttribute : node -> string -> option string.
Variable offsetTop : node -> Z.
Variable offsetHeight : node -> Z.
Variable querySelector_other : string -> list Element -> Res (option node).

Lemma nav_link_plain_same (els els' : list Element) (sectionId : string) :
  same_but_active els els' ->
  nav_link_plain getAttribute els' sectionId = nav_link_plain getAttribute els sectionId.
Proof.
  intros (Hl & _ & Hc). unfold nav_link_plain. rewrite Hl. f_equal.
  apply List.filter_ext. intros n. now rewrite Hc by discriminate.
Qed.

Lemma section_hit_same (els els' : list Element) (scrollY : Q) (section : node) :
  same_but_active els els' ->
  section_hit getAttribute offsetTop offsetHeight els' scrollY section =
  section_hit getAttribute offsetTop offsetHeight els scrollY section.
Proof. intros H. unfold section_hit. now rewrite (nav_link_plain_same els els'). Qed.

Lemma highlight_section_ok (nav : Navigation) (scrollY : Q) (section : node) (w : World) :
  plain_id (section_id getAttribute section) = true ->
  highlight_section getAttribute offsetTop offsetHeight querySelector_other
    nav scrollY section w =
  (Ok tt, highlighted getAttribute offsetTop offsetHeight nav scrollY w section).
Proof.
  intros Hp.
  unfold highlight_section, highlighted, section_hit, bind at 1, gets.
  unfold bind at 1, nav_link_to. rewrite Hp.
  destruct (nav_link_plain getAttribute (elements w) _) as [navLink|]; [|reflexivity].
  destruct (scrolled_into offsetTop offsetHeight scrollY section); [|reflexivity].
  unfold bind, forEach. rewrite forEach_remove. reflexivity.
Qed.

Lemma highlight_section_rejected (nav : Navigation) (scrollY : Q) (section : node)
    (w : World) (x : exn) :
  plain_id (section_id getAttribute section) = false ->
  querySelector_other (section_id getAttribute section) (elements w) = Throw x ->
  highlight_section getAttribute offsetTop offsetHeight querySelector_other
    nav scrollY section w = (Throw x, w).
Proof.
  intros Hp Hq. unfold highlight_section, bind at 1, gets.
  unfold bind at 1, nav_link_to. now rewrite Hp, Hq.
Qed.

Lemma forEach_highlight (nav : Navigation) (scrollY : Q) (l : list node) (i : nat) (w : World) :
  (forall s, In s l -> plain_id (section_id getAttribute s) = true) ->
  forEach_from i l
    (fun section _ =>
       highlight_section getAttribute offsetTop offsetHeight querySelector_other
         nav scrollY section) w =
  (Ok tt, fold_left (highlighted getAttribute offsetTop offsetHeight nav scrollY) l w).
Proof.
  revert i w. induction l as [|x l IH]; intros i w Hp; cbn [forEach_from fold_left];
    [reflexivity|].
  unfold bind. rewrite highlight_section_ok by (apply Hp; now left).
  apply IH. intros s Hs. apply Hp. now right.
Qed.

Lemma highlighted_same (nav : Navigation) (scrollY : Q) (w : World) (section : node) :
  let w' := highlighted getAttribute offsetTop offsetHeight nav scrollY w section in
  same_but_active (elements w) (elements w') /\ w' = set_elements (elements w') w.
Proof.
  unfold highlighted.
  destruct (section_hit getAttribute offsetTop offsetHeight (elements w) scrollY section).
  - cbn zeta. cbn [elements set_elements]. split; [|reflexivity].
    eapply same_but_active_trans; [apply deactivate_same|].
    apply same_but_active_upd. intros t cl. apply token_add_active_other.
  - cbn zeta. split; [apply same_but_active_refl | now rewrite set_elements_id].
Qed.

Lemma fold_highlighted_same (nav : Navigation) (scrollY : Q) (l : list node) (w : World) :
  let w' := fold_left (highlighted getAttribute offsetTop offsetHeight nav scrollY) l w in
  same_but_active (elements w) (elements w') /\ w' = set_elements (elements w') w.
Proof.
  revert w. induction l as [|x l IH]; intros w; cbn [fold_left].
  - cbn zeta. split; [apply same_but_active_refl | now rewrite set_elements_id].
  - destruct (highlighted_same nav scrollY w x) as [S1 E1].
    destruct (IH (highlighted getAttribute offsetTop offsetHeight nav scrollY w x)) as [S2 E2].
    cbn zeta in *. split; [eapply same_but_active_trans; eassumption|].
    eapply only_store_trans; eassumption.
Qed.

Lemma fold_highlighted_no_hit (nav : Navigation) (scrollY : Q) (l : list node)
    (els : list Element) (w : World) :
  same_but_active els (elements w) ->
  (forall s, In s l ->
             section_hit getAttribute offsetTop offsetHeight els scrollY s = None) ->
  fold_left (highlighted getAttribute offsetTop offsetHeight nav scrollY) l w = w.
Proof.
  intros Hs H. induction l as [|x l IH]; cbn [fold_left]; [reflexivity|].
  assert (highlighted getAttribute offsetTop offsetHeight nav scrollY w x = w) as ->.
  { unfold highlighted. rewrite (section_hit_same els (elements w)) by exact Hs.
    now rewrite H by now left. }
  apply IH. intros s Hin. apply H. now right.
Qed.
End HighlightFacts.

(** X22.  When the id of every section is plain (no quote, backslash, line
    break or NUL, so that the selector built from it is the one meant),
    [highlightActiveSection] completes and changes nothing but who carries
    [active]; when the page is scrolled into no section that has a link, it
    changes nothing at all (the link highlighted before stays so); otherwise
    the link of the last such section in document order ends up active and
    every other link of [navLinks] inactive.  When the id of the first
    section is not plain and the browser rejects the selector, the method
    throws what [querySelector] throws, before it has changed anything. *)
Theorem one_link_highlighted (getAttribute : node -> string -> option string)
    (offsetTop offsetHeight : node -> Z)
    (querySelector_other : string -> list Element -> Res (option node))
    (nav : Navigation) (scrollY : Q) (w : World) :
  let run :=
    highlightActiveSection getAttribute offsetTop offsetHeight querySelector_other
      nav scrollY in
  let hit := section_hit getAttribute offsetTop offsetHeight (elements w) scrollY in
  ((forall s, In s (sections_with_id getAttribute (elements w)) ->
              plain_id (section_id getAttribute s) = true) ->
   fst (run w) = Ok tt /\
   only_active_changes w (snd (run w)) /\
   currentIndex (snd (run w)) = currentIndex w /\
   ((forall s, In s (sections_with_id getAttribute (elements w)) -> hit s = None) ->
    run w = (Ok tt, w)) /\
   (forall pre h post navLink,
      sections_with_id getAttribute (elements w) = (pre ++ h :: post)%list ->
      hit h = Some navLink ->
      (forall s, In s post -> hit s = None) ->
      is_active (snd (run w)) navLink = true /\
      forall x, In x (navLinks nav) -> x <> navLink -> is_active (snd (run w)) x = false)) /\
  (forall h rest x,
     sections_with_id getAttribute (elements w) = h :: rest ->
     plain_id (section_id getAttribute h) = false ->
     querySelector_other (section_id getAttribute h) (elements w) = Throw x ->
     run w = (Throw x, w)).
Proof.
  intros run hit. split.
  2:{ intros h rest x Hsec Hp Hq.
      unfold run, highlightActiveSection, bind at 1, gets, forEach. rewrite Hsec.
      cbn [forEach_from]. unfold bind at 1.
      now rewrite (highlight_section_rejected getAttribute offsetTop offsetHeight
                     querySelector_other nav scrollY h w x Hp Hq). }
  intros Hplain.
  assert (run w = (Ok tt,
            fold_left (highlighted getAttribute offsetTop offsetHeight nav scrollY)
              (sections_with_id getAttribute (elements w)) w)) as E.
  { unfold run, highlightActiveSection, bind, gets, forEach.
    now apply forEach_highlight. }
  rewrite E. cbn [fst snd].
  destruct (fold_highlighted_same getAttribute offsetTop offsetHeight nav scrollY
              (sections_with_id getAttribute (elements w)) w) as [Hs Hw].
  cbn zeta in Hs, Hw.
  split; [reflexivity|]. split.
  { split; [exact Hs|]. rewrite Hw. cbn. repeat split. }
  split; [rewrite Hw; reflexivity|]. split.
  { intros Hno. f_equal.
    apply (fold_highlighted_no_hit getAttribute offsetTop offsetHeight nav scrollY _ (elements w));
      [apply same_but_active_refl | exact Hno]. }
  intros pre h post navLink Hsec Hh Hpost. rewrite Hsec, fold_left_app. cbn [fold_left].
  set (wp := fold_left (highlighted getAttribute offsetTop offsetHeight nav scrollY) pre w).
  destruct (fold_highlighted_same getAttribute offsetTop offsetHeight nav scrollY pre w)
    as [Sp _]. cbn zeta in Sp. fold wp in Sp.
  set (wh := highlighted getAttribute offsetTop offsetHeight nav scrollY wp h).
  destruct (highlighted_same getAttribute offsetTop offsetHeight nav scrollY wp h) as [Sh _].
  cbn zeta in Sh. fold wh in Sh.
  rewrite (fold_highlighted_no_hit getAttribute offsetTop offsetHeight nav scrollY post
             (elements w) wh);
    [| eapply same_but_active_trans; eassumption | exact Hpost].
  assert (wh = set_elements
            (upd (token_add "active") navLink (deactivate (navLinks nav) (elements wp))) wp)
    as Ewh.
  { unfold wh, highlighted.
    rewrite (section_hit_same getAttribute offsetTop offsetHeight (elements w) (elements wp))
      by exact Sp.
    fold hit. now rewrite Hh. }
  assert (navLink < length (deactivate (navLinks nav) (elements wp))) as Hv.
  { destruct (deactivate_same (navLinks nav) (elements wp)) as (-> & _).
    destruct Sp as (-> & _). unfold hit, section_hit in Hh.
    destruct (nav_link_plain getAttribute (elements w) _) as [n|] eqn:En; [|discriminate].
    destruct (scrolled_into offsetTop offsetHeight scrollY h); [|discriminate].
    injection Hh as <-. unfold nav_link_plain in En.
    destruct (List.filter _ _) as [|n' l'] eqn:Ef; [discriminate|]. injection En as ->.
    assert (In n (n :: l')) as Hin by now left. rewrite <- Ef in Hin.
    apply filter_In in Hin as [Hin _]. apply in_seq in Hin. lia. }
  rewrite Ewh. unfold is_active. cbn [elements set_elements]. split.
  - rewrite active_upd_add by exact Hv. now rewrite Nat.eqb_refl.
  - intros x Hx Hne. rewrite active_upd_add by exact Hv.
    rewrite active_deactivate_in by (now apply list_elem_of_In).
    destruct (Nat.eqb_spec x navLink); [contradiction | reflexivity].
Qed.

Lemma one_link_highlighted_witness :
  let run :=
    highlightActiveSection sections_attr sections_top sections_height rejecting
      sections_nav in
  is_active sections_world 0 = true /\
  is_active (snd (run (inject_Z 900) sections_world)) 1 = true /\
  is_active (snd (run (inject_Z 900) sections_world)) 0 = false /\
  run (inject_Z (-500)) sections_world = (Ok tt, sections_world) /\
  highlightActiveSection quoted_attr sections_top sections_height rejecting
    sections_nav (inject_Z 900) sections_world = (Throw SyntaxError, sections_world).
Proof.
  intros run.
  assert (forall s, In s (sections_with_id sections_attr (elements sections_world)) ->
                    plain_id (section_id sections_attr s) = true) as Hplain
    by (intros s Hs; vm_compute in Hs; destruct Hs as [<-|[<-|[]]]; reflexivity).
  destruct (one_link_highlighted sections_attr sections_top sections_height rejecting
              sections_nav (inject_Z 900) sections_world) as (Hok & _).
  destruct (Hok Hplain) as (_ & _ & _ & _ & Hhit).
  destruct (one_link_highlighted sections_attr sections_top sections_height rejecting
              sections_nav (inject_Z (-500)) sections_world) as (Hok' & _).
  destruct (Hok' Hplain) as (_ & _ & _ & Hno & _).
  destruct (one_link_highlighted quoted_attr sections_top sections_height rejecting
              sections_nav (inject_Z 900) sections_world) as (_ & Hrej).
  destruct (Hhit [2] 3 [] 1) as [H1 H0]; [reflexivity | reflexivity | intros s [] |].
  split; [reflexivity|]. split; [exact H1|].
  split; [apply H0; [now left | discriminate]|].
  split.
  - apply Hno. intros s Hs. vm_compute in Hs. destruct Hs as [<-|[<-|[]]]; reflexivity.
  - apply (Hrej 2 [3] SyntaxError); reflexivity.
Defined.

(** ** [showSlide] twice *)

Lemma with_classList_id (e : Element) : with_classList (classList e) e = e.
Proof. now destruct e. Qed.

Lemma lookup_app_at g els m :
  app_at g els !! m = (fun e => with_classList (g m (classList e)) e) <$> els !! m.
Proof. unfold app_at. apply list_lookup_imap. Qed.

Lemma app_at_ext g g' els :
  (forall m cl, g m cl = g' m cl) -> app_at g els = app_at g' els.
Proof.
  intros H. apply list_eq. intros m. rewrite !lookup_app_at.
  destruct (els !! m); [|reflexivity]. simpl. now rewrite H.
Qed.

Lemma app_at_compose g g' els :
  app_at g' (app_at g els) = app_at (fun m cl => g' m (g m cl)) els.
Proof.
  apply list_eq. intros m. rewrite !lookup_app_at.
  destruct (els !! m) as [[tg cl ch]|]; reflexivity.
Qed.

Lemma upd_app_at f n els : upd f n els = app_at (g_at f n) els.
Proof.
  apply list_eq. intros m. unfold upd. rewrite list_lookup_alter, lookup_app_at.
  unfold g_at. case_decide as E.
  - subst m. now rewrite Nat.eqb_refl.
  - destruct (Nat.eqb_spec m n); [congruence|].
    destruct (els !! m) as [e|]; [|reflexivity]. simpl. now rewrite with_classList_id.
Qed.

Lemma deactivate_app_at l els : deactivate l els = app_at (g_deactivate l) els.
Proof.
  revert els. induction l as [|n l IH]; intros els; cbn [deactivate].
  - apply list_eq. intros m. rewrite lookup_app_at.
    destruct (els !! m) as [e|]; [|reflexivity]. simpl.
    unfold g_deactivate. cbn [existsb]. now rewrite with_classList_id.
  - rewrite IH, upd_app_at, app_at_compose. apply app_at_ext. intros m cl.
    unfold g_deactivate, g_at. cbn [existsb].
    destruct (m =? n), (existsb (Nat.eqb m) l); cbn [orb];
      try reflexivity. apply token_remove_idem.
Qed.

Lemma mark_from_app_at k ds ci els : mark_from k ds ci els = app_at (g_mark k ds ci) els.
Proof.
  revert k els. induction ds as [|d ds IH]; intros k els; cbn [mark_from g_mark].
  - apply list_eq. intros m. rewrite lookup_app_at.
    destruct (els !! m) as [e|]; [|reflexivity]. simpl. now rewrite with_classList_id.
  - now rewrite IH, upd_app_at, app_at_compose.
Qed.

Lemma g_mark_notin k ds ci m cl : m ∉ ds -> g_mark k ds ci m cl = cl.
Proof.
  revert k cl. induction ds as [|d ds IH]; intros k cl H; cbn [g_mark]; [reflexivity|].
  apply not_elem_of_cons in H as [Hne H]. rewrite IH by exact H.
  unfold g_at. destruct (Nat.eqb_spec m d); [contradiction | reflexivity].
Qed.

Lemma g_mark_in k ds ci m :
  NoDup ds -> m ∈ ds ->
  exists b, forall cl, g_mark k ds ci m cl = token_toggle "active" b cl.
Proof.
  revert k. induction ds as [|d ds IH]; intros k Hnd Hin; [inversion Hin|].
  apply NoDup_cons in Hnd as [Hd Hnd]. cbn [g_mark].
  destruct (Nat.eqb_spec m d) as [->|Hne].
  - exists (strict_eq (Num (Z.of_nat k)) ci). intros cl.
    rewrite g_mark_notin by exact Hd. unfold g_at. now rewrite Nat.eqb_refl.
  - apply elem_of_cons in Hin as [E|Hin]; [contradiction|].
    destruct (IH (S k) Hnd Hin) as [b Hb]. exists b. intros cl. rewrite Hb.
    unfold g_at. destruct (Nat.eqb_spec m d); [contradiction | reflexivity].
Qed.

Lemma token_add_remove_idem (t : string) (cl : list string) :
  token_add t (token_remove t (token_add t (token_remove t cl))) =
  token_add t (token_remove t cl).
Proof.
  assert (forall x, contains t (token_remove t x) = false) as Hc
    by (intros x; now rewrite contains_token_remove, String.eqb_refl).
  assert (token_add t (token_remove t cl) = (token_remove t cl ++ [t])%list) as E
    by (unfold token_add; now rewrite Hc).
  assert (token_remove t (token_remove t cl ++ [t]) = token_remove t cl) as Hr.
  { unfold token_remove at 1. rewrite List.filter_app.
    cbn [List.filter]. rewrite String.eqb_refl. cbn [negb]. rewrite app_nil_r.
    apply token_remove_idem. }
  now rewrite E, Hr, E.
Qed.

Lemma token_toggle_idem (t : string) (b : bool) (cl : list string) :
  token_toggle t b (token_toggle t b cl) = token_toggle t b cl.
Proof.
  destruct b; cbn [token_toggle]; [|apply token_remove_idem].
  unfold token_add at 1. now rewrite contains_token_add, String.eqb_refl.
Qed.

(** X23.  When slides and indicators are pairwise distinct elements,
    [showSlide(i)] at a valid index is idempotent: a second call right after
    the first completes and leaves the world exactly as the first left it,
    class lists included. *)
Theorem showSlide_idempotent (w : World) (i : nat) :
  NoDup (slides w ++ dots w) ->
  i < length (slides w) ->
  dotsContainer w <> None ->
  fst (showSlide (Num (Z.of_nat i)) w) = Ok tt /\
  showSlide (Num (Z.of_nat i)) (snd (showSlide (Num (Z.of_nat i)) w)) =
    showSlide (Num (Z.of_nat i)) w.
Proof.
  intros Hnd Hi Hc.
  destruct (lookup_lt_is_Some_2 _ _ Hi) as [s Hs].
  destruct (dotsContainer w) as [c|] eqn:Ec; [clear Hc | contradiction].
  set (idx := Num (Z.of_nat i)).
  assert (item (slides w) idx = Some s) as Hitem by (unfold idx; now rewrite item_nat).
  rewrite (showSlide_ok idx s c w Hitem Ec). cbn [fst snd]. split; [reflexivity|].
  set (w1 := shown idx s c w).
  assert (dots w1 = dots w) as Hd
    by (apply dots_same; [apply shown_same | reflexivity]).
  rewrite (showSlide_ok idx s c w1 Hitem Ec). f_equal.
  unfold shown at 1. rewrite (shown_dots_arg s c w1 Ec), Hd.
  assert (elements w1 =
          mark_from 0 (dots w) idx
            (upd (token_add "active") s (deactivate (slides w) (elements w)))) as E1
    by (unfold w1, shown; now rewrite (shown_dots_arg s c w Ec)).
  change (slides w1) with (slides w).
  change (set_currentIndex idx w1) with
    (set_elements (elements w1) (set_currentIndex idx w)).
  transitivity (set_elements (elements w1) (set_currentIndex idx w));
    [|unfold w1, shown; reflexivity].
  change (set_elements ?x (set_elements ?y ?z)) with (set_elements x z).
  f_equal. rewrite E1 at 2. rewrite E1.
  rewrite !mark_from_app_at, !upd_app_at, !deactivate_app_at, !app_at_compose.
  apply app_at_ext. intros m cl.
  apply NoDup_app in Hnd as (Hns & Hdisj & Hnd).
  assert (s ∈ slides w) as Hsin by (eapply list_elem_of_lookup_2, Hs).
  destruct (decide (m ∈ dots w)) as [Hm|Hm].
  - destruct (g_mark_in 0 (dots w) idx m Hnd Hm) as [b Hb].
    assert (existsb (Nat.eqb m) (slides w) = false) as Hnot.
    { destruct (existsb (Nat.eqb m) (slides w)) eqn:E; [|reflexivity].
      apply existsb_eqb_elem_of in E. now apply Hdisj in E. }
    assert (m <> s) as Hms by (intros ->; now apply Hdisj in Hsin).
    unfold g_deactivate, g_at. rewrite Hnot.
    destruct (Nat.eqb_spec m s); [contradiction|].
    rewrite !Hb. apply token_toggle_idem.
  - rewrite !g_mark_notin by exact Hm. unfold g_deactivate, g_at.
    destruct (Nat.eqb_spec m s) as [->|Hms].
    + apply existsb_eqb_elem_of in Hsin. rewrite Hsin. apply token_add_remove_idem.
    + destruct (existsb (Nat.eqb m) (slides w)); [apply token_remove_idem | reflexivity].
Qed.

Lemma showSlide_idempotent_witness :
  showSlide (Num 2) (snd (showSlide (Num 2) sample_deck)) = showSlide (Num 2) sample_deck.
Proof.
  apply (showSlide_idempotent sample_deck 2);
    [vm_compute; compute_done | vm_compute; lia | vm_compute; discriminate].
Defined.
